(** * API-key aggregator: forwarder, OpenAI-compatible routes, start-up

    A shallow embedding of

    - [src/server/core/GoogleApiForwarder.ts]  (module [Forwarder]),
    - the OpenAI-compatible router with its stream relay
      (module [OpenAIRoute], with the UTF-8 text decoder it uses in
      module [TextDecoder]),
    - the credential loading of [src/server.ts] (module [Server]),

    together with the properties the specification states about them.

    JavaScript values are modelled by the tree-shaped type [JsVal]; an
    awaited call either completes normally or throws a JavaScript value
    ([Completion]).  Effects (calls on the key manager, on the response
    object and on the upstream) are recorded as an event trace by a small
    state-and-exception monad.  Logging ([console.info], [console.error])
    is left out, but for the [JSON.stringify] call inside the [catch]
    blocks of the forwarder, which may throw. *)

From Stdlib Require Import ZArith List String Ascii Bool Lia DecimalString.
Import ListNotations.
Local Open Scope Z_scope.
Local Open Scope string_scope.

Set Implicit Arguments.
Set Warnings "-register-all".

(* ===================================================================== *)
(** ** JavaScript values *)
(* ===================================================================== *)

Module Js.

(** JSON-like JavaScript values.  Numbers are the integers (status codes
    and counters are all the code inspects), objects are property lists
    looked up by name, first match wins. *)
Inductive JsVal : Type :=
| JUndefined
| JNull
| JBool (b : bool)
| JNum (n : Z)
| JStr (s : string)
| JArr (elts : list JsVal)
| JObj (props : list (string * JsVal)).

(** The outcome of evaluating a call or awaiting a promise. *)
Inductive Completion (A : Type) : Type :=
| Normal (a : A)
| Throw (e : JsVal).
Arguments Normal {A} a.
Arguments Throw {A} e.

Definition isNormal {A} (c : Completion A) : bool :=
  match c with Normal _ => true | Throw _ => false end.

(** [ToBoolean]. *)
Definition truthy (v : JsVal) : bool :=
  match v with
  | JUndefined | JNull => false
  | JBool b => b
  | JNum n => negb (Z.eqb n 0)
  | JStr s => negb (String.eqb s "")
  | JArr _ | JObj _ => true
  end.

Definition nullish (v : JsVal) : bool :=
  match v with JUndefined | JNull => true | _ => false end.

(** [a || b] *)
Definition js_or (a b : JsVal) : JsVal := if truthy a then a else b.

(** [v === n] for a number literal [n]. *)
Definition strict_eq_num (v : JsVal) (n : Z) : bool :=
  match v with JNum m => Z.eqb m n | _ => false end.

Fixpoint lookup (name : string) (props : list (string * JsVal)) : JsVal :=
  match props with
  | [] => JUndefined
  | (k, v) :: rest => if String.eqb k name then v else lookup name rest
  end.

Definition TypeError (msg : string) : JsVal :=
  JObj [("name", JStr "TypeError"); ("message", JStr msg)].

(** [v.name]: reading a property of [undefined] or [null] throws. *)
Definition get (v : JsVal) (name : string) : Completion JsVal :=
  match v with
  | JUndefined | JNull =>
      Throw (TypeError ("Cannot read properties of nullish value (reading '" ++ name ++ "')"))
  | JObj props => Normal (lookup name props)
  | _ => Normal JUndefined
  end.

(** [v?.name] *)
Definition get_opt (v : JsVal) (name : string) : Completion JsVal :=
  if nullish v then Normal JUndefined else get v name.

(** [ToString] of a number. *)
Definition num_to_string (n : Z) : string :=
  NilZero.string_of_int (Z.to_int n).

(** [ToString], as used by template literals. *)
Fixpoint toString (v : JsVal) : string :=
  match v with
  | JUndefined => "undefined"
  | JNull => "null"
  | JBool true => "true"
  | JBool false => "false"
  | JNum n => num_to_string n
  | JStr s => s
  | JArr elts =>
      String.concat ","
        (map (fun x => match x with
                       | JUndefined | JNull => ""
                       | _ => toString x
                       end) elts)
  | JObj _ => "[object Object]"
  end.

(** [JSON.stringify(v)].  The forwarder applies it to a caught value for
    the log alone, so no text is kept of it, only how the call completes:
    it throws a TypeError on a value it cannot serialise (an object that
    refers to itself, a value that holds a BigInt).  A [JsVal] holds the
    properties the code reads of a value, which does not settle whether
    the value can be serialised; the answer is the platform's. *)
Class JSON : Type := { stringify : JsVal -> Completion unit }.

End Js.
Import Js.

(* ===================================================================== *)
(** ** Effects: state, event trace and exceptions *)
(* ===================================================================== *)

Module Effects.

Section Monad.
Context {S E : Type}.

(** A computation reads and updates a state [S], appends events [E] to
    the trace, and completes normally or throws.  What was done before a
    throw stays done. *)
Definition Eff (A : Type) : Type := S -> Completion A * S * list E.

Definition ret {A} (a : A) : Eff A := fun s => (Normal a, s, []).

Definition throw {A} (e : JsVal) : Eff A := fun s => (Throw e, s, []).

Definition bind {A B} (m : Eff A) (f : A -> Eff B) : Eff B :=
  fun s =>
    match m s with
    | (Normal a, s1, t1) =>
        match f a s1 with (r, s2, t2) => (r, s2, (t1 ++ t2)%list) end
    | (Throw e, s1, t1) => (Throw e, s1, t1)
    end.

(** An effect that leaves an event. *)
Definition emit (ev : E) : Eff unit := fun s => (Normal tt, s, [ev]).

Definition update (f : S -> S) : Eff unit := fun s => (Normal tt, f s, []).

(** Settle a completion obtained from the environment. *)
Definition settle {A} (c : Completion A) : Eff A := fun s => (c, s, []).

(** [try { m } catch (e) { h e }] *)
Definition try_catch {A} (m : Eff A) (h : JsVal -> Eff A) : Eff A :=
  fun s =>
    match m s with
    | (Normal a, s1, t1) => (Normal a, s1, t1)
    | (Throw e, s1, t1) =>
        match h e s1 with (r, s2, t2) => (r, s2, (t1 ++ t2)%list) end
    end.

(** [try { m } finally { fin }]: [fin] runs on every exit of [m]; when
    [fin] throws, its exception replaces the completion of [m]. *)
Definition try_finally {A} (m : Eff A) (fin : Eff unit) : Eff A :=
  fun s =>
    match m s with
    | (r, s1, t1) =>
        match fin s1 with
        | (Normal _, s2, t2) => (r, s2, (t1 ++ t2)%list)
        | (Throw e, s2, t2) => (Throw e, s2, (t1 ++ t2)%list)
        end
    end.

Definition result {A} (x : Completion A * S * list E) : Completion A := fst (fst x).
Definition final {A} (x : Completion A * S * list E) : S := snd (fst x).
Definition trace {A} (x : Completion A * S * list E) : list E := snd x.
End Monad.

Arguments Eff : clear implicits.

Declare Scope eff_scope.
Delimit Scope eff_scope with eff.
Notation "x <- m ;; k" := (bind m (fun x => k))
  (at level 61, m at next level, right associativity) : eff_scope.
Notation "m ;; k" := (bind m (fun _ => k))
  (at level 61, right associativity) : eff_scope.

End Effects.
Import Effects.
Local Open Scope eff_scope.

(* ===================================================================== *)
(** ** Upstream streams *)
(* ===================================================================== *)

(** A streamed upstream response: a finite sequence of chunks that ends in
    end-of-stream or in a failure raised by the read after the last
    chunk. *)
Inductive StreamEnd : Type :=
| EndOfStream
| StreamFailure (e : JsVal).

Record Stream (C : Type) : Type := {
  chunks : list C;
  ending : StreamEnd
}.

(** A chunk of a fetch body ([Uint8Array]): bytes as integers 0..255. *)
Definition Bytes : Type := list Z.

(* ===================================================================== *)
(** ** GoogleApiForwarder.ts *)
(* ===================================================================== *)

Module Forwarder.

(** [ApiKey] of [../types]; the forwarder and the routes read [key]
    only. *)
Record ApiKey : Type := { key : string }.

(** [class GoogleApiError extends Error] *)
Record GoogleApiError : Type := {
  message : string;
  statusCode : JsVal;
  apiKey : string;
  isRateLimitError : bool
}.

(** The object both forwarding functions resolve to:
    [{ response?, stream?, error? }].  An absent [response] reads as
    [undefined]. *)
Record ForwardResult (C : Type) : Type := {
  response : JsVal;
  stream : option (Stream C);
  error : option GoogleApiError
}.
Arguments Build_ForwardResult {C} _ _ _.

(** *** The upstream, as the forwarder sees it *)

(** [GenerativeModel] of [@google/generative-ai]: its three calls, each
    resolving or rejecting. *)
Record GenerativeModel : Type := {
  generateContent : JsVal -> Completion JsVal;          (* result.response *)
  generateContentStream : JsVal -> Completion (Stream JsVal); (* result.stream *)
  countTokens : JsVal -> Completion JsVal
}.

(** [new GoogleGenerativeAI(key).getGenerativeModel({ model })]. *)
Definition Sdk : Type := string -> string -> Completion GenerativeModel.

(** A fetch [Response]. *)
Record Response : Type := {
  status : Z;
  statusText : string;
  text : Completion string;
  json : Completion JsVal;
  body : option (Stream Bytes)
}.

(** [response.ok]: the status is in the range 200-299. *)
Definition ok (r : Response) : bool :=
  Z.leb 200 (status r) && Z.leb (status r) 299.

(** The options handed to [fetch]; [fo_body] holds the value whose JSON
    text is sent (request bodies are parsed JSON, which
    [JSON.stringify] serialises). *)
Record FetchOptions : Type := {
  fo_method : string;
  fo_headers : list (string * string);
  fo_body : option JsVal
}.

Definition Fetch : Type := string -> FetchOptions -> Completion Response.

(** Calls that leave the process. *)
Inductive UpstreamCall : Type :=
| CallGenerateContent (model key : string) (requestBody : JsVal)
| CallGenerateContentStream (model key : string) (requestBody : JsVal)
| CallCountTokens (model key : string) (requestBody : JsVal)
| CallFetch (url : string) (options : FetchOptions)
| CallReadText
| CallReadJson.

Definition Fwd : Type -> Type := Eff unit UpstreamCall.

Definition call {A} (c : UpstreamCall) (r : Completion A) : Fwd A :=
  emit c ;; settle r.

Section Platform.
Context {J : JSON}.

(** *** forwardRequest *)

(** The [catch] block of [forwardRequest] (lines 56-72). *)
Definition forwardRequestCatch (apiKey : ApiKey) (error : JsVal)
  : Fwd (ForwardResult JsVal) :=
  (* console.error(..., JSON.stringify(error)) *)
  settle (stringify error) ;;
  (* error.response?.status || error.statusCode *)
  resp <- settle (get error "response") ;;
  respStatus <- settle (get_opt resp "status") ;;
  statusCode <- (if truthy respStatus then ret respStatus
                 else settle (get error "statusCode")) ;;
  let isRateLimit := strict_eq_num statusCode 429 in
  msg <- settle (get error "message") ;;
  let googleApiError :=
    {| message := "Google API Error: " ++ toString msg;
       statusCode := statusCode;
       apiKey := key apiKey;
       isRateLimitError := isRateLimit |} in
  ret (Build_ForwardResult JUndefined None (Some googleApiError)).

Definition forwardRequest (sdk : Sdk)
    (modelId methodName : string) (requestBody : JsVal) (apiKey : ApiKey)
  : Fwd (ForwardResult JsVal) :=
  generativeModel <- settle (sdk (key apiKey) modelId) ;;
  try_catch
    (if String.eqb methodName "generateContent" then
       response <- call (CallGenerateContent modelId (key apiKey) requestBody)
                        (generateContent generativeModel requestBody) ;;
       ret (Build_ForwardResult response None None)
     else if String.eqb methodName "streamGenerateContent" then
       stream <- call (CallGenerateContentStream modelId (key apiKey) requestBody)
                      (generateContentStream generativeModel requestBody) ;;
       ret (Build_ForwardResult JUndefined (Some stream) None)
     else if String.eqb methodName "countTokens" then
       result <- call (CallCountTokens modelId (key apiKey) requestBody)
                      (countTokens generativeModel requestBody) ;;
       ret (Build_ForwardResult result None None)
     else
       let unsupportedMethodError :=
         {| message := "Unsupported API method: " ++ methodName;
            statusCode := JNum 400;
            apiKey := key apiKey;
            isRateLimitError := false |} in
       ret (Build_ForwardResult JUndefined None (Some unsupportedMethodError)))
    (forwardRequestCatch apiKey).

(** *** forwardOpenAIRequest *)

Definition baseUrl : string :=
  "https://generativelanguage.googleapis.com/v1beta/openai".

(** [path.startsWith('/v1/') ? path.substring(3) : path] *)
Definition cleanPath (path : string) : string :=
  if String.prefix "/v1/" path
  then String.substring 3 (String.length path - 3) path
  else path.

(** The [catch] block of [forwardOpenAIRequest] (lines 122-133). *)
Definition forwardOpenAIRequestCatch (apiKey : ApiKey) (error : JsVal)
  : Fwd (ForwardResult Bytes) :=
  (* console.error(..., JSON.stringify(error)) *)
  settle (stringify error) ;;
  msg <- settle (get error "message") ;;
  thrownStatus <- settle (get error "statusCode") ;;
  let googleApiError :=
    {| message := "OpenAI Compatible API Error: " ++ toString msg;
       statusCode := js_or thrownStatus (JNum 500);
       apiKey := key apiKey;
       isRateLimitError := false |} in
  ret (Build_ForwardResult JUndefined None (Some googleApiError)).

Definition forwardOpenAIRequest (fetch : Fetch)
    (path : string) (requestBody : JsVal) (apiKey : ApiKey) (method : string)
  : Fwd (ForwardResult Bytes) :=
  let url := baseUrl ++ cleanPath path in
  try_catch
    (let headers :=
       [("Authorization", "Bearer " ++ key apiKey);
        ("Content-Type", "application/json")] in
     let fetchOptions :=
       {| fo_method := method;
          fo_headers := headers;
          fo_body := if negb (String.eqb method "GET") && truthy requestBody
                     then Some requestBody else None |} in
     response <- call (CallFetch url fetchOptions) (fetch url fetchOptions) ;;
     if negb (ok response) then
       errorBody <- call CallReadText (text response) ;;
       let isRateLimit := Z.eqb (status response) 429 in
       let googleApiError :=
         {| message := "OpenAI Compatible API Error: "
                         ++ num_to_string (status response) ++ " "
                         ++ statusText response ++ " - " ++ errorBody;
            statusCode := JNum (status response);
            apiKey := key apiKey;
            isRateLimitError := isRateLimit |} in
       ret (Build_ForwardResult JUndefined None (Some googleApiError))
     else
       (* requestBody?.stream *)
       wantsStream <- settle (get_opt requestBody "stream") ;;
       if truthy wantsStream then
         ret (Build_ForwardResult JUndefined (body response) None)
       else
         responseData <- call CallReadJson (json response) ;;
         ret (Build_ForwardResult responseData None None))
    (forwardOpenAIRequestCatch apiKey).

(** A caught value the [catch] blocks turn into a failure: one that
    [JSON.stringify] serialises and that is an object (anything but
    [undefined] and [null]), so that its properties can be read. *)
Definition plainError (e : JsVal) : Prop :=
  stringify e = Normal tt /\ nullish e = false.

(** An awaited call that, when it rejects, rejects with such a value. *)
Definition throwsObject {A} (c : Completion A) : Prop :=
  match c with
  | Normal _ => True
  | Throw e => plainError e
  end.

Definition modelThrowsObjects (m : GenerativeModel) : Prop :=
  forall requestBody,
    throwsObject (generateContent m requestBody)
    /\ throwsObject (generateContentStream m requestBody)
    /\ throwsObject (countTokens m requestBody).

End Platform.

(** Running a forwarding call: what the returned promise settles to, and
    the upstream calls made on the way. *)
Definition settled {A} (m : Fwd A) : Completion A := result (m tt).
Definition upstreamCalls {A} (m : Fwd A) : list UpstreamCall := trace (m tt).

(** The caught value carries the status code 429. *)
Definition carries429 (e : JsVal) : bool :=
  match get e "statusCode" with
  | Normal thrownStatus => strict_eq_num thrownStatus 429
  | Throw _ => false
  end.

(** No rejection of [fetch] or of a body read carries the status code
    429.  So it is with the platform's [fetch], which
    [forwardOpenAIRequest] calls directly: it rejects with a [TypeError]
    or an [AbortError], and its body reads with a [TypeError] or a
    [SyntaxError], none of which has a [statusCode]. *)
Definition rejectsWithout429 (fetch : Fetch) : Prop :=
  forall url options,
    match fetch url options with
    | Normal r =>
        (forall e, text r = Throw e -> carries429 e = false)
        /\ (forall e, json r = Throw e -> carries429 e = false)
    | Throw e => carries429 e = false
    end.

End Forwarder.

(* ===================================================================== *)
(** ** TextDecoder (UTF-8, streaming) and the UTF-8 encoding of writes *)
(* ===================================================================== *)

Module TextDecoder.

(** Decoded text: a sequence of Unicode code points. *)
Definition Text : Type := list Z.

(** State of a [new TextDecoder()] driven with [{ stream: true }]: the
    UTF-8 decoder's registers, and whether the byte-order mark has been
    looked for. *)
Record Decoder : Type := {
  codePoint : Z;
  bytesSeen : Z;
  bytesNeeded : Z;
  lowerBoundary : Z;
  upperBoundary : Z;
  bomSeen : bool
}.

Definition idle (bom : bool) : Decoder :=
  {| codePoint := 0; bytesSeen := 0; bytesNeeded := 0;
     lowerBoundary := 0x80; upperBoundary := 0xBF; bomSeen := bom |}.

Definition fresh : Decoder := idle false.

Definition REPLACEMENT : Z := 0xFFFD.

Definition between (lo x hi : Z) : bool := Z.leb lo x && Z.leb x hi.

(** A byte met while no sequence is open. *)
Definition lead (bom : bool) (b : Z) : Decoder * Text :=
  if between 0x00 b 0x7F then (idle bom, [b])
  else if between 0xC2 b 0xDF then
    ({| codePoint := Z.land b 0x1F; bytesSeen := 0; bytesNeeded := 1;
        lowerBoundary := 0x80; upperBoundary := 0xBF; bomSeen := bom |}, [])
  else if between 0xE0 b 0xEF then
    ({| codePoint := Z.land b 0xF; bytesSeen := 0; bytesNeeded := 2;
        lowerBoundary := if Z.eqb b 0xE0 then 0xA0 else 0x80;
        upperBoundary := if Z.eqb b 0xED then 0x9F else 0xBF;
        bomSeen := bom |}, [])
  else if between 0xF0 b 0xF4 then
    ({| codePoint := Z.land b 0x7; bytesSeen := 0; bytesNeeded := 3;
        lowerBoundary := if Z.eqb b 0xF0 then 0x90 else 0x80;
        upperBoundary := if Z.eqb b 0xF4 then 0x8F else 0xBF;
        bomSeen := bom |}, [])
  else (idle bom, [REPLACEMENT]).

(** One byte through the decoder.  A byte outside the expected range
    ends the open sequence with U+FFFD and is then decoded afresh. *)
Definition step (d : Decoder) (b : Z) : Decoder * Text :=
  if Z.eqb (bytesNeeded d) 0 then lead (bomSeen d) b
  else if negb (between (lowerBoundary d) b (upperBoundary d)) then
    let '(d', out) := lead (bomSeen d) b in (d', REPLACEMENT :: out)
  else
    let cp := Z.lor (Z.shiftl (codePoint d) 6) (Z.land b 0x3F) in
    let seen := bytesSeen d + 1 in
    if Z.eqb seen (bytesNeeded d) then (idle (bomSeen d), [cp])
    else
      ({| codePoint := cp; bytesSeen := seen; bytesNeeded := bytesNeeded d;
          lowerBoundary := 0x80; upperBoundary := 0xBF;
          bomSeen := bomSeen d |}, []).

Fixpoint run (d : Decoder) (bs : Bytes) : Decoder * Text :=
  match bs with
  | [] => (d, [])
  | b :: rest =>
      let '(d1, out1) := step d b in
      let '(d2, out2) := run d1 rest in
      (d2, out1 ++ out2)%list
  end.

(** The first code point of the stream is dropped when it is U+FEFF
    ([ignoreBOM] is false). *)
Definition stripBOM (d : Decoder) (out : Text) : Decoder * Text :=
  if bomSeen d then (d, out)
  else
    match out with
    | [] => (d, [])
    | c :: rest =>
        ({| codePoint := codePoint d; bytesSeen := bytesSeen d;
            bytesNeeded := bytesNeeded d;
            lowerBoundary := lowerBoundary d; upperBoundary := upperBoundary d;
            bomSeen := true |},
         if Z.eqb c 0xFEFF then rest else out)
    end.

(** [decoder.decode(value, { stream: true })]: bytes of an unfinished
    sequence stay in the decoder for the next call. *)
Definition decode (d : Decoder) (value : Bytes) : Decoder * Text :=
  let '(d1, out) := run d value in stripBOM d1 out.

(** The bytes a string puts on the wire when written with the default
    encoding (UTF-8). *)
Definition encodeCodePoint (c : Z) : Bytes :=
  if Z.ltb c 0x80 then [c]
  else if Z.ltb c 0x800 then
    [Z.lor 0xC0 (Z.shiftr c 6); Z.lor 0x80 (Z.land c 0x3F)]
  else if Z.ltb c 0x10000 then
    if between 0xD800 c 0xDFFF then [0xEF; 0xBF; 0xBD]
    else
      [Z.lor 0xE0 (Z.shiftr c 12);
       Z.lor 0x80 (Z.land (Z.shiftr c 6) 0x3F);
       Z.lor 0x80 (Z.land c 0x3F)]
  else
    [Z.lor 0xF0 (Z.shiftr c 18);
     Z.lor 0x80 (Z.land (Z.shiftr c 12) 0x3F);
     Z.lor 0x80 (Z.land (Z.shiftr c 6) 0x3F);
     Z.lor 0x80 (Z.land c 0x3F)].

Definition encode (t : Text) : Bytes := flat_map encodeCodePoint t.

(** The decoder with its byte-order-mark flag set to [bom]. *)
Definition setBOM (bom : bool) (d : Decoder) : Decoder :=
  {| codePoint := codePoint d; bytesSeen := bytesSeen d;
     bytesNeeded := bytesNeeded d;
     lowerBoundary := lowerBoundary d; upperBoundary := upperBoundary d;
     bomSeen := bom |}.

(** A text without its leading byte-order mark. *)
Definition dropBOM (out : Text) : Text :=
  match out with
  | c :: rest => if Z.eqb c 0xFEFF then rest else out
  | [] => []
  end.

(** Unicode scalar values: the code points outside the surrogate
    range. *)
Definition isScalar (c : Z) : Prop :=
  0 <= c < 0xD800 \/ 0xDFFF < c <= 0x10FFFF.

(** The registers of a decoder between two bytes: no sequence is open,
    or the bits gathered so far and the range set for the next byte leave
    room for scalar values only (no overlong form, no surrogate, nothing
    above U+10FFFF). *)
Definition consistent (d : Decoder) : Prop :=
  let cp := codePoint d in
  bytesNeeded d = 0
  \/ (0x80 <= lowerBoundary d /\ upperBoundary d <= 0xBF
      /\ ((bytesNeeded d = 1 /\ bytesSeen d = 0 /\ 2 <= cp <= 31)
          \/ (bytesNeeded d = 2 /\ bytesSeen d = 0 /\ 0 <= cp <= 15
              /\ (cp = 0 -> 0xA0 <= lowerBoundary d)
              /\ (cp = 13 -> upperBoundary d <= 0x9F))
          \/ (bytesNeeded d = 2 /\ bytesSeen d = 1 /\ 32 <= cp <= 1023
              /\ ~ 864 <= cp <= 895)
          \/ (bytesNeeded d = 3 /\ bytesSeen d = 0 /\ 0 <= cp <= 4
              /\ (cp = 0 -> 0x90 <= lowerBoundary d)
              /\ (cp = 4 -> upperBoundary d <= 0x8F))
          \/ (bytesNeeded d = 3 /\ bytesSeen d = 1 /\ 16 <= cp <= 271)
          \/ (bytesNeeded d = 3 /\ bytesSeen d = 2 /\ 1024 <= cp <= 17407))).

(** A chunk that is by itself the complete UTF-8 encoding of a text. *)
Definition isText (chunk : Bytes) : Prop :=
  exists t : Text, Forall isScalar t /\ chunk = encode t.

End TextDecoder.

(* ===================================================================== *)
(** ** The OpenAI-compatible router *)
(* ===================================================================== *)

Module OpenAIRoute.
Import Forwarder TextDecoder.

(** [config]: the values are read from the environment at load time. *)
Record Config : Type := {
  PORT : Z;
  KEY_COOL_DOWN_DURATION_MS : Z;
  LOG_LEVEL : string;
  DISPATCH_STRATEGY : string
}.

(** The five endpoints the router serves. *)
Inductive Route : Type :=
| ChatCompletions
| Embeddings
| Models
| ModelRetrieve (modelId : string)
| ImagesGenerations.

Definition routePath (r : Route) : string :=
  match r with
  | ChatCompletions => "/v1/chat/completions"
  | Embeddings => "/v1/embeddings"
  | Models => "/v1/models"
  | ModelRetrieve modelId => "/v1/models/" ++ modelId
  | ImagesGenerations => "/v1/images/generations"
  end.

(** The body handed to the forwarder: [req.body] for the POST routes,
    [null] for the GET routes. *)
Definition routeBody (r : Route) (reqBody : JsVal) : JsVal :=
  match r with
  | Models | ModelRetrieve _ => JNull
  | _ => reqBody
  end.

Definition routeMethod (r : Route) : string :=
  match r with
  | Models | ModelRetrieve _ => "GET"
  | _ => "POST"
  end.

(** Only the chat-completions handler has a branch for streams. *)
Definition relaysStream (r : Route) : bool :=
  match r with ChatCompletions => true | _ => false end.

(** What [reader.read()] resolved to. *)
Inductive ReadResult : Type :=
| ReadValue (value : Bytes)
| ReadDone
| ReadRejected (e : JsVal).

(** The calls a handler makes on its collaborators, in order. *)
Inductive Event : Type :=
| SelectApiKey
| ForwardOpenAIRequest (path : string) (requestBody : JsVal)
                       (apiKey : ApiKey) (method : string)
| DecrementRequestCount (key : string)
| MarkAsCoolingDown (key : string) (durationMs : Z)
| ResStatusJson (status : JsVal) (body : JsVal)
| ResJson (body : JsVal)
| ResSetHeader (name value : string)
| GetReader
| ReaderRead (r : ReadResult)
| ResWrite (chunk : Text)
| ResEnd
| Next (error : JsVal).

(** How the collaborators of one request behave: what the dispatcher and
    the forwarder settle to, and which calls on the response object
    throw. *)
Record Env : Type := {
  selectApiKey : Completion (option ApiKey);
  forward : string -> JsVal -> ApiKey -> string -> Completion (ForwardResult Bytes);
  resJson : Completion unit;
  resSetHeader : Completion unit;
  getReader : Completion unit;
  resWrite : nat -> Completion unit;
  resEnd : Completion unit
}.

Definition errorEnvelope (code message type : JsVal) : JsVal :=
  JObj [("error", JObj [("code", code); ("message", message); ("type", type)])].

Definition noAvailableKeys : JsVal :=
  errorEnvelope (JStr "no_available_keys")
                (JStr "Service Unavailable: No available API keys.")
                (JStr "unavailable_error").

Definition unknownError : JsVal :=
  errorEnvelope (JStr "unknown_error")
                (JStr "Unknown forwarding result.")
                (JStr "api_error").

Definition forwardError (err : GoogleApiError) : JsVal :=
  errorEnvelope
    (JStr (if isRateLimitError err then "rate_limit_exceeded" else "api_error"))
    (JStr (message err))
    (JStr (if isRateLimitError err then "rate_limit_error" else "api_error")).

Section Router.
(** The key manager ([ApiKeyManager]) is a collaborator: its state and
    the two operations the routes call. *)
Variable Store : Type.
Variable decrementRequestCount : string -> Store -> Store.
Variable markAsCoolingDown : string -> Z -> Store -> Store.

Variable config : Config.
Variable env : Env.

Definition Handler : Type -> Type := Eff Store Event.

Definition does {A} (ev : Event) (r : Completion A) : Handler A :=
  emit ev ;; settle r.

(** The read loop of [handleStreamingResponse]; [written] counts the
    writes made so far. *)
Fixpoint pump (decoder : Decoder) (written : nat)
              (pending : list Bytes) (fin : StreamEnd) : Handler unit :=
  match pending with
  | [] =>
      match fin with
      | EndOfStream => emit (ReaderRead ReadDone)
      | StreamFailure e => emit (ReaderRead (ReadRejected e)) ;; throw e
      end
  | value :: rest =>
      emit (ReaderRead (ReadValue value)) ;;
      let '(decoder', chunk) := decode decoder value in
      does (ResWrite chunk) (resWrite env written) ;;
      pump decoder' (S written) rest fin
  end.

Definition streamHeaders : list (string * string) :=
  [("Content-Type", "text/event-stream");
   ("Cache-Control", "no-cache");
   ("Connection", "keep-alive");
   ("Access-Control-Allow-Origin", "*");
   ("Access-Control-Allow-Headers", "Content-Type, Authorization")].

Fixpoint setHeaders (hs : list (string * string)) : Handler unit :=
  match hs with
  | [] => ret tt
  | (name, value) :: rest =>
      does (ResSetHeader name value) (resSetHeader env) ;; setHeaders rest
  end.

Definition handleStreamingResponse (stream : Stream Bytes) (apiKey : ApiKey)
  : Handler unit :=
  setHeaders streamHeaders ;;
  does GetReader (getReader env) ;;
  let decoder := fresh in
  try_finally
    (try_catch (pump decoder 0 (chunks stream) (ending stream))
               (fun error => ret tt))
    (does ResEnd (resEnd env)).

(** What a handler does with the forward result (lines 67-97 of the
    chat-completions handler, and the like in the others). *)
Definition evaluate (route : Route) (apiKey : ApiKey)
                    (forwardResult : ForwardResult Bytes) : Handler unit :=
  match error forwardResult with
  | Some err =>
      (if isRateLimitError err then
         emit (MarkAsCoolingDown (key apiKey)
                                 (KEY_COOL_DOWN_DURATION_MS config)) ;;
         update (markAsCoolingDown (key apiKey)
                                   (KEY_COOL_DOWN_DURATION_MS config))
       else ret tt) ;;
      does (ResStatusJson (js_or (statusCode err) (JNum 500))
                          (forwardError err))
           (resJson env)
  | None =>
      match (if relaysStream route then stream forwardResult else None) with
      | Some body => handleStreamingResponse body apiKey
      | None =>
          if truthy (response forwardResult) then
            does (ResJson (response forwardResult)) (resJson env)
          else
            does (ResStatusJson (JNum 500) unknownError) (resJson env)
      end
  end.

(** The handler of a route.  The five handlers differ in the arguments
    of the forward call and in the stream branch only. *)
Definition handle (route : Route) (reqBody : JsVal) : Handler unit :=
  try_catch
    (selected <- does SelectApiKey (selectApiKey env) ;;
     match selected with
     | None => does (ResStatusJson (JNum 503) noAvailableKeys) (resJson env)
     | Some apiKey =>
         let path := routePath route in
         let requestBody := routeBody route reqBody in
         let method := routeMethod route in
         forwardResult <-
           does (ForwardOpenAIRequest path requestBody apiKey method)
                (forward env path requestBody apiKey method) ;;
         (emit (DecrementRequestCount (key apiKey)) ;;
          update (decrementRequestCount (key apiKey))) ;;
         evaluate route apiKey forwardResult
     end)
    (fun error => emit (Next error)).

(** Serving one request from key-manager state [s]. *)
Definition serve (route : Route) (reqBody : JsVal) (s : Store)
  : Completion unit * Store * list Event :=
  handle route reqBody s.
End Router.

(** The forward outcome is a failure flagged as a rate limit. *)
Definition rateLimited {C} (r : ForwardResult C) : bool :=
  match error r with
  | Some err => isRateLimitError err
  | None => false
  end.

(** The response object accepts every call. *)
Definition sinkAccepts (env : Env) : Prop :=
  resSetHeader env = Normal tt
  /\ getReader env = Normal tt
  /\ (forall n, resWrite env n = Normal tt)
  /\ resEnd env = Normal tt.

(** The trace the specification asks of the relay, from the read loop
    on: every chunk read is written before the next read, then the
    stream's end is read and the sink is closed. *)
Fixpoint relayed (decoder : Decoder) (pending : list Bytes) (fin : StreamEnd)
  : list Event :=
  match pending with
  | [] =>
      [ReaderRead (match fin with
                   | EndOfStream => ReadDone
                   | StreamFailure e => ReadRejected e
                   end);
       ResEnd]
  | value :: rest =>
      ReaderRead (ReadValue value)
      :: ResWrite (snd (decode decoder value))
      :: relayed (fst (decode decoder value)) rest fin
  end.

(** The texts the decoder yields for a sequence of chunks. *)
Fixpoint decoded (decoder : Decoder) (pending : list Bytes) : list Text :=
  match pending with
  | [] => []
  | value :: rest =>
      snd (decode decoder value) :: decoded (fst (decode decoder value)) rest
  end.

(** Projections of a trace. *)
Definition isRelease (k : string) (ev : Event) : bool :=
  match ev with DecrementRequestCount k' => String.eqb k k' | _ => false end.

Definition isCoolDown (ev : Event) : bool :=
  match ev with MarkAsCoolingDown _ _ => true | _ => false end.

Definition isForward (ev : Event) : bool :=
  match ev with ForwardOpenAIRequest _ _ _ _ => true | _ => false end.

Definition isKeyManagerCall (ev : Event) : bool :=
  match ev with
  | DecrementRequestCount _ | MarkAsCoolingDown _ _ => true
  | _ => false
  end.

(** Events that deliver something to the caller. *)
Definition isDelivery (ev : Event) : bool :=
  match ev with
  | ResStatusJson _ _ | ResJson _ | ResSetHeader _ _
  | ResWrite _ | ResEnd | Next _ => true
  | _ => false
  end.

(** A trace without calls on the key manager, and a computation that
    neither calls the key manager nor changes its state. *)
Definition quiet (t : list Event) : Prop :=
  Forall (fun ev => isKeyManagerCall ev = false) t.

Definition passive {Store A : Type} (m : Eff Store Event A) : Prop :=
  forall s, final (m s) = s /\ quiet (trace (m s)).

Definition releases (k : string) (t : list Event) : nat :=
  List.length (filter (isRelease k) t).

Fixpoint writes (t : list Event) : list Text :=
  match t with
  | [] => []
  | ResWrite chunk :: rest => chunk :: writes rest
  | _ :: rest => writes rest
  end.

End OpenAIRoute.

(* ===================================================================== *)
(** ** The key manager *)
(* ===================================================================== *)

Module KeyManager.

(** Modelled from the spec: [ApiKeyManager] (the credential store of
    section 4.1) is not among the sources.  A credential has an in-flight
    count and an optional cooldown deadline; [release] decrements the
    count, floored at 0; [coolDown] sets the deadline to
    [now + durationMs], the last writer winning. *)
Record Credential : Type := {
  id : string;
  inFlightCount : Z;
  cooldownUntil : option Z
}.

Definition Store : Type := list Credential.

Definition onCredential (k : string) (f : Credential -> Credential)
                        (s : Store) : Store :=
  map (fun c => if String.eqb (id c) k then f c else c) s.

Definition release (k : string) : Store -> Store :=
  onCredential k (fun c =>
    {| id := id c;
       inFlightCount := Z.max 0 (inFlightCount c - 1);
       cooldownUntil := cooldownUntil c |}).

Definition coolDown (now : Z) (k : string) (durationMs : Z) : Store -> Store :=
  onCredential k (fun c =>
    {| id := id c;
       inFlightCount := inFlightCount c;
       cooldownUntil := Some (now + durationMs) |}).

Definition cooldowns (s : Store) : list (string * option Z) :=
  map (fun c => (id c, cooldownUntil c)) s.

End KeyManager.

(* ===================================================================== *)
(** ** server.ts: loading the credentials *)
(* ===================================================================== *)

Module Server.

(** A JavaScript string: its UTF-16 code units. *)
Definition JsString : Type := list Z.

Definition comma : Z := 44.

(** [WhiteSpace] and [LineTerminator] code points, the ones
    [String.prototype.trim] strips. *)
Definition isWhiteSpace (c : Z) : bool :=
  (Z.leb 9 c && Z.leb c 13) || Z.eqb c 32 || Z.eqb c 160 || Z.eqb c 0x1680
  || (Z.leb 0x2000 c && Z.leb c 0x200A)
  || Z.eqb c 0x2028 || Z.eqb c 0x2029 || Z.eqb c 0x202F || Z.eqb c 0x205F
  || Z.eqb c 0x3000 || Z.eqb c 0xFEFF.

Fixpoint trimStart (s : JsString) : JsString :=
  match s with
  | [] => []
  | c :: rest => if isWhiteSpace c then trimStart rest else s
  end.

Fixpoint trimEnd (s : JsString) : JsString :=
  match s with
  | [] => []
  | c :: rest =>
      match trimEnd rest with
      | [] => if isWhiteSpace c then [] else [c]
      | kept => c :: kept
      end
  end.

Definition trim (s : JsString) : JsString := trimEnd (trimStart s).

(** [s.split(sep)] for a one-character separator: the pieces between
    the separators, empty pieces included. *)
Fixpoint split (sep : Z) (s : JsString) : list JsString :=
  match s with
  | [] => [[]]
  | c :: rest =>
      if Z.eqb c sep then [] :: split sep rest
      else
        match split sep rest with
        | [] => [[c]]
        | piece :: pieces => (c :: piece) :: pieces
        end
  end.

(** The inverse of [split]: the pieces put together again with the
    separator between them. *)
Fixpoint join (sep : Z) (pieces : list JsString) : JsString :=
  match pieces with
  | [] => []
  | [piece] => piece
  | piece :: rest => (piece ++ sep :: join sep rest)%list
  end.

(** How start-up goes on: the process exits, or the key manager is built
    from the keys. *)
Inductive Startup : Type :=
| Exit (code : Z)
| Loaded (apiKeys : list JsString).

Definition nonEmpty (key : JsString) : bool := Nat.ltb 0 (List.length key).

(** The pipeline of line 23. *)
Definition parseApiKeys (apiKeysEnv : JsString) : list JsString :=
  filter nonEmpty (map trim (split comma apiKeysEnv)).

(** Lines 17-32; [apiKeysEnv] is [process.env.GEMINI_API_KEYS], [None]
    when the variable is unset. *)
Definition loadApiKeys (apiKeysEnv : option JsString) : Startup :=
  match apiKeysEnv with
  | None => Exit 1
  | Some [] => Exit 1
  | Some env =>
      let apiKeys := parseApiKeys env in
      if Nat.eqb (List.length apiKeys) 0 then Exit 1 else Loaded apiKeys
  end.

(** No white space at either end. *)
Definition hasOuterWhiteSpace (key : JsString) : bool :=
  match key with
  | [] => false
  | c :: _ => isWhiteSpace c || isWhiteSpace (last key 0)
  end.

End Server.

(* ===================================================================== *)
(** ** Concrete scenarios *)
(* ===================================================================== *)

Module Scenario.
Import Forwarder TextDecoder OpenAIRoute.

Definition key1 : ApiKey := {| key := "key-1" |}.

(** [JSON.stringify] where every value met can be serialised. *)
Definition serialising : JSON := {| stringify := fun _ => Normal tt |}.

(** [JSON.stringify] where the objects met refer to themselves, as the
    error objects of HTTP clients do that hold the request and the
    response, each pointing to the other. *)
Definition circular : JSON :=
  {| stringify := fun v =>
       match v with
       | JObj _ => Throw (TypeError "Converting circular structure to JSON")
       | _ => Normal tt
       end |}.

Definition config : Config :=
  {| PORT := 3145; KEY_COOL_DOWN_DURATION_MS := 60000;
     LOG_LEVEL := "info"; DISPATCH_STRATEGY := "round_robin" |}.

(** A model handle whose calls all succeed with an empty object. *)
Definition quietModel : GenerativeModel :=
  {| generateContent := fun _ => Normal (JObj []);
     generateContentStream :=
       fun _ => Normal {| chunks := []; ending := EndOfStream |};
     countTokens := fun _ => Normal (JObj []) |}.

Definition quietSdk : Sdk := fun _ _ => Normal quietModel.

(** The SDK refuses an empty model name when the handle is asked for. *)
Definition strictSdk : Sdk :=
  fun _ modelId =>
    if String.eqb modelId "" then
      Throw (JObj [("message", JStr "Must provide a model name.")])
    else Normal quietModel.

(** An upstream answering 200 with an empty JSON object. *)
Definition okResponse : Response :=
  {| status := 200; statusText := "OK"; text := Normal "{}";
     json := Normal (JObj []); body := None |}.

Definition okFetch : Fetch := fun _ _ => Normal okResponse.

(** An upstream answering 429 with a text body. *)
Definition tooManyRequests : Response :=
  {| status := 429; statusText := "Too Many Requests";
     text := Normal "quota exceeded";
     json := Throw (JObj [("message", JStr "Unexpected token q in JSON")]);
     body := None |}.

Definition fetch429 : Fetch := fun _ _ => Normal tooManyRequests.

(** A fetch that rejects with an error object carrying status 429. *)
Definition fetchThrowing429 : Fetch :=
  fun _ _ =>
    Throw (JObj [("message", JStr "Too Many Requests"); ("statusCode", JNum 429)]).

(** A fetch that rejects with [undefined]. *)
Definition fetchThrowingUndefined : Fetch := fun _ _ => Throw JUndefined.

Definition chatBody : JsVal :=
  JObj [("model", JStr "gemini-2.0-flash"); ("messages", JArr [])].

(** Forward outcomes. *)
Definition rateLimitFailure : ForwardResult Bytes :=
  Build_ForwardResult JUndefined None
    (Some {| message := "OpenAI Compatible API Error: 429 Too Many Requests - ";
             statusCode := JNum 429; apiKey := "key-1";
             isRateLimitError := true |}).

Definition streamOf (cs : list Bytes) (fin : StreamEnd) : Stream Bytes :=
  {| chunks := cs; ending := fin |}.

Definition streamed (cs : list Bytes) : ForwardResult Bytes :=
  Build_ForwardResult JUndefined (Some (streamOf cs EndOfStream)) None.

(** A request environment: the dispatcher and the forwarder settle as
    given, the response object accepts every call. *)
Definition envOf (selected : Completion (option ApiKey))
                 (forwarded : Completion (ForwardResult Bytes)) : Env :=
  {| selectApiKey := selected;
     forward := fun _ _ _ _ => forwarded;
     resJson := Normal tt;
     resSetHeader := Normal tt;
     getReader := Normal tt;
     resWrite := fun _ => Normal tt;
     resEnd := Normal tt |}.

(** The same, with the repository's forwarder over a given [fetch] in
    the forwarder's place. *)
Definition envOver {J : JSON} (selected : Completion (option ApiKey))
                   (fetch : Fetch) : Env :=
  {| selectApiKey := selected;
     forward := fun path requestBody apiKey method =>
                  settled (forwardOpenAIRequest fetch path requestBody apiKey method);
     resJson := Normal tt;
     resSetHeader := Normal tt;
     getReader := Normal tt;
     resWrite := fun _ => Normal tt;
     resEnd := Normal tt |}.

(** The key manager of the scenarios: one key with one request in
    flight, the clock at 1000. *)
Definition store1 : KeyManager.Store :=
  [{| KeyManager.id := "key-1"; KeyManager.inFlightCount := 1;
      KeyManager.cooldownUntil := None |}].

Definition run (env : Env) (route : Route) (reqBody : JsVal)
  : Completion unit * KeyManager.Store * list Event :=
  serve KeyManager.release (KeyManager.coolDown 1000) config env
        route reqBody store1.

Definition relay (cs : list Bytes) (fin : StreamEnd)
  : Completion unit * KeyManager.Store * list Event :=
  handleStreamingResponse (envOf (Normal None) (Throw JNull))
                          (streamOf cs fin) key1 store1.

End Scenario.

(* ===================================================================== *)
(** ** Reading traces and requests *)
(* ===================================================================== *)

Module Requests.
Import Forwarder.

(** The URL [forwardOpenAIRequest] fetches for a path. *)
Definition requestUrl (path : string) : string := baseUrl ++ cleanPath path.

(** The options it hands to [fetch] (lines 81-93). *)
Definition requestOptions (requestBody : JsVal) (apiKey : ApiKey)
                          (method : string) : FetchOptions :=
  {| fo_method := method;
     fo_headers := [("Authorization", "Bearer " ++ key apiKey);
                    ("Content-Type", "application/json")];
     fo_body := if negb (String.eqb method "GET") && truthy requestBody
                then Some requestBody else None |}.

(** [requestBody?.stream] is truthy. *)
Definition wantsStream (requestBody : JsVal) : bool :=
  match get_opt requestBody "stream" with
  | Normal flag => truthy flag
  | Throw _ => false
  end.

(** The method names [forwardRequest] serves. *)
Definition supported (methodName : string) : bool :=
  String.eqb methodName "generateContent"
  || String.eqb methodName "streamGenerateContent"
  || String.eqb methodName "countTokens".

(** The one upstream call [forwardRequest] makes for a method name. *)
Definition sdkCall (modelId methodName : string) (requestBody : JsVal)
                   (apiKey : ApiKey) : list UpstreamCall :=
  if String.eqb methodName "generateContent" then
    [CallGenerateContent modelId (key apiKey) requestBody]
  else if String.eqb methodName "streamGenerateContent" then
    [CallGenerateContentStream modelId (key apiKey) requestBody]
  else if String.eqb methodName "countTokens" then
    [CallCountTokens modelId (key apiKey) requestBody]
  else [].

(** Whether that call resolves. *)
Definition sdkResolves (m : GenerativeModel) (methodName : string)
                       (requestBody : JsVal) : bool :=
  if String.eqb methodName "generateContent" then
    isNormal (generateContent m requestBody)
  else if String.eqb methodName "streamGenerateContent" then
    isNormal (generateContentStream m requestBody)
  else if String.eqb methodName "countTokens" then
    isNormal (countTokens m requestBody)
  else true.



End Requests.

Module Traces.
Import Forwarder TextDecoder OpenAIRoute.

Definition isSelect (ev : Event) : bool :=
  match ev with SelectApiKey => true | _ => false end.

Definition isNext (ev : Event) : bool :=
  match ev with Next _ => true | _ => false end.

Definition isRead (ev : Event) : bool :=
  match ev with ReaderRead _ => true | _ => false end.

Definition isWrite (ev : Event) : bool :=
  match ev with ResWrite _ => true | _ => false end.

Definition isEnd (ev : Event) : bool :=
  match ev with ResEnd => true | _ => false end.

(** The events of [handleStreamingResponse]. *)
Definition isRelayEvent (ev : Event) : bool :=
  match ev with
  | ResSetHeader _ _ | GetReader | ReaderRead _ | ResWrite _ | ResEnd => true
  | _ => false
  end.

(** The events of the evaluation of a forward result. *)
Definition isEvaluationEvent (ev : Event) : bool :=
  match ev with
  | MarkAsCoolingDown _ _ | ResStatusJson _ _ | ResJson _ => true
  | _ => isRelayEvent ev
  end.

(** Every event a computation leaves satisfies [P]. *)
Definition confined {Store A : Type} (P : Event -> bool)
                    (m : Eff Store Event A) : Prop :=
  forall s, forallb P (trace (m s)) = true.

(** The tail of a handler's trace when its [try] block ended in [r]. *)
Definition handedToNext (r : Completion unit) : list Event :=
  match r with
  | Normal _ => []
  | Throw e => [Next e]
  end.

(** Chunks read and written in turn. *)
Fixpoint exchanged (decoder : Decoder) (pending : list Bytes) : list Event :=
  match pending with
  | [] => []
  | value :: rest =>
      ReaderRead (ReadValue value)
      :: ResWrite (snd (decode decoder value))
      :: exchanged (fst (decode decoder value)) rest
  end.

(** The forwarder of a request environment is the repository's
    [forwardOpenAIRequest] over [fetch]. *)
Definition usesForwarder {J : JSON} (env : Env) (fetch : Fetch) : Prop :=
  forall path requestBody apiKey method,
    forward env path requestBody apiKey method
      = settled (forwardOpenAIRequest fetch path requestBody apiKey method).

(** The path a route is served from upstream. *)
Definition upstreamPath (r : Route) : string :=
  match r with
  | ChatCompletions => "/chat/completions"
  | Embeddings => "/embeddings"
  | Models => "/models"
  | ModelRetrieve modelId => "/models/" ++ modelId
  | ImagesGenerations => "/images/generations"
  end.

End Traces.

Module Keys.
Import Server.

(** A key as a user would write it between the commas: not empty, free
    of commas, no white space at either end. *)
Definition clean (key : JsString) : Prop :=
  key <> [] /\ ~ In comma key /\ hasOuterWhiteSpace key = false.

(** A character that separates keys or pads them. *)
Definition isPadding (c : Z) : Prop := c = comma \/ isWhiteSpace c = true.

(** What stands between two commas of the variable: a key, which may be
    missing, with white space before and after it. *)
Record Entry : Type := {
  padBefore : JsString;
  keyText : JsString;
  padAfter : JsString
}.

Definition written (e : Entry) : JsString :=
  (padBefore e ++ keyText e ++ padAfter e)%list.

Definition isEntry (e : Entry) : Prop :=
  Forall (fun c => isWhiteSpace c = true) (padBefore e)
  /\ Forall (fun c => isWhiteSpace c = true) (padAfter e)
  /\ ~ In comma (keyText e)
  /\ hasOuterWhiteSpace (keyText e) = false.

End Keys.

(* ===================================================================== *)
(** ** config.ts: reading the settings *)
(* ===================================================================== *)

Module ConfigLoader.
Import Server.

(** The four variables of [process.env] the configuration reads; [None]
    is an unset variable. *)
Record ProcessEnv : Type := {
  env_PORT : option JsString;
  env_KEY_COOL_DOWN_DURATION_MS : option JsString;
  env_LOG_LEVEL : option JsString;
  env_DISPATCH_STRATEGY : option JsString
}.

(** [value || fallback] for a value that is a string or [undefined]:
    the fallback stands in for [undefined] and for the empty string. *)
Definition orDefault (value : option JsString) (fallback : JsString) : JsString :=
  match value with
  | Some (c :: rest) => c :: rest
  | _ => fallback
  end.

Definition isDigit (c : Z) : bool := Z.leb 48 c && Z.leb c 57.

(** The number written by the digits at the head of [s], after [acc]. *)
Fixpoint leadingDigits (acc : Z) (s : JsString) : Z :=
  match s with
  | c :: rest => if isDigit c then leadingDigits (10 * acc + (c - 48)) rest else acc
  | [] => acc
  end.

(** [parseInt(s, 10)]: leading white space is skipped, a sign is read,
    then the digits up to the first other character; [None] is [NaN].
    The result is the integer written (JavaScript holds it as a double,
    which is that integer up to 2^53). *)
Definition parseInt10 (s : JsString) : option Z :=
  let unsigned (sign : Z) (body : JsString) : option Z :=
    match body with
    | c :: _ => if isDigit c then Some (sign * leadingDigits 0 body) else None
    | [] => None
    end in
  match trimStart s with
  | 45 :: body => unsigned (-1) body
  | 43 :: body => unsigned 1 body
  | body => unsigned 1 body
  end.

(** The loaded configuration; a numeric setting that is [NaN] is
    [None]. *)
Record Settings : Type := {
  PORT : option Z;
  KEY_COOL_DOWN_DURATION_MS : option Z;
  LOG_LEVEL : JsString;
  DISPATCH_STRATEGY : JsString
}.

(** ['3145'], ['60000'], ['info'], ['round_robin'] *)
Definition defaultPort : JsString := [51; 49; 52; 53].
Definition defaultCoolDown : JsString := [54; 48; 48; 48; 48].
Definition defaultLogLevel : JsString := [105; 110; 102; 111].
Definition defaultStrategy : JsString :=
  [114; 111; 117; 110; 100; 95; 114; 111; 98; 105; 110].

(** The [config] object (lines 362-367). *)
Definition loadConfig (env : ProcessEnv) : Settings :=
  {| PORT := parseInt10 (orDefault (env_PORT env) defaultPort);
     KEY_COOL_DOWN_DURATION_MS :=
       parseInt10 (orDefault (env_KEY_COOL_DOWN_DURATION_MS env) defaultCoolDown);
     LOG_LEVEL := orDefault (env_LOG_LEVEL env) defaultLogLevel;
     DISPATCH_STRATEGY := orDefault (env_DISPATCH_STRATEGY env) defaultStrategy |}.

(** The number a sequence of digits writes. *)
Definition decimal (ds : JsString) : Z :=
  fold_left (fun acc c => 10 * acc + (c - 48)) ds 0.

(** A text [parseInt] reads no number from: after the leading white
    space, and after a sign if there is one, there is no digit. *)
Definition notNumeric (s : JsString) : Prop :=
  match trimStart s with
  | [] => True
  | c :: rest =>
      isDigit c = false
      /\ (c = 45 \/ c = 43 ->
          match rest with
          | [] => True
          | d :: _ => isDigit d = false
          end)
  end.

(** Unset, or set to the empty string. *)
Definition blank (value : option JsString) : Prop :=
  value = None \/ value = Some [].

End ConfigLoader.

(* ===================================================================== *)
(** ** Further scenarios *)
(* ===================================================================== *)

Module Cases.
Import Forwarder TextDecoder OpenAIRoute Scenario.

(** A model handle whose token count rejects with an error object. *)
Definition failingModel : GenerativeModel :=
  {| generateContent := fun _ => Normal (JObj []);
     generateContentStream :=
       fun _ => Normal {| chunks := []; ending := EndOfStream |};
     countTokens :=
       fun _ => Throw (JObj [("message", JStr "quota"); ("statusCode", JNum 429)]) |}.

Definition failingSdk : Sdk := fun _ _ => Normal failingModel.

(** A request body that asks for a stream. *)
Definition streamBody : JsVal :=
  JObj [("input", JStr "text"); ("stream", JBool true)].

(** An upstream answering 200 with a body of two chunks. *)
Definition streamingResponse : Response :=
  {| status := 200; statusText := "OK"; text := Normal "ab";
     json := Throw (JObj [("message", JStr "Unexpected token a in JSON")]);
     body := Some (streamOf [[97]; [98]] EndOfStream) |}.

Definition streamingFetch : Fetch := fun _ _ => Normal streamingResponse.

(** A response object whose second write throws. *)
Definition envFailingWrite : Env :=
  {| selectApiKey := Normal (Some key1);
     forward := fun _ _ _ _ => Normal (streamed [[97]; [98]; [99]]);
     resJson := Normal tt;
     resSetHeader := Normal tt;
     getReader := Normal tt;
     resWrite := fun n => if Nat.eqb n 1 then Throw (JStr "EPIPE") else Normal tt;
     resEnd := Normal tt |}.

(** Settings as they may be found in the environment: a port that is
    not a number, a cooldown followed by its unit. *)
Definition oddEnv : ConfigLoader.ProcessEnv :=
  {| ConfigLoader.env_PORT := Some [97; 98; 99];
     ConfigLoader.env_KEY_COOL_DOWN_DURATION_MS := Some [32; 57; 48; 109; 115];
     ConfigLoader.env_LOG_LEVEL := None;
     ConfigLoader.env_DISPATCH_STRATEGY := Some [] |}.

End Cases.
(* ===================================================================== *)
(** * Properties *)
(* ===================================================================== *)

Local Open Scope list_scope.

Section ForwarderProperties.
Import Forwarder Requests.
Context {J : JSON}.

Lemma get_object v name : nullish v = false -> exists w, get v name = Normal w.
Proof. destruct v; simpl; intros H; try discriminate; eauto. Qed.

Lemma get_opt_normal v name : exists w, get_opt v name = Normal w.
Proof. destruct v; cbv [get_opt nullish get]; eauto. Qed.


Ltac run_fwd :=
  unfold settled, upstreamCalls, result, trace, bind, try_catch, call, settle, emit, ret;
  simpl.

Ltac run_calls :=
  unfold settled, upstreamCalls, result, trace, bind, try_catch, call, settle, emit, ret.


Lemma forwardRequestCatch_returns apiKey e :
  plainError e ->
  exists err, forwardRequestCatch apiKey e tt
              = (Normal (Build_ForwardResult JUndefined None (Some err)), tt, []).
Proof.
  intros [Hs H]. unfold forwardRequestCatch. run_fwd. rewrite Hs. simpl.
  destruct (get_object e "response" H) as [resp ->].
  destruct (get_object e "message" H) as [msg Hm].
  destruct (get_object e "statusCode" H) as [sc Hsc].
  destruct (get_opt_normal resp "status") as [st ->]. simpl.
  destruct (truthy st); simpl; rewrite ?Hsc; simpl; rewrite Hm; simpl; eauto.
Qed.




(** When [JSON.stringify] throws on the caught value, that exception
    leaves the [catch] block. *)
Lemma forwardOpenAIRequestCatch_stringify_throws apiKey e t :
  stringify e = Throw t ->
  settled (forwardOpenAIRequestCatch apiKey e) = Throw t.
Proof.
  intros H. unfold forwardOpenAIRequestCatch. run_fwd. now rewrite H.
Qed.

Lemma forwardRequestCatch_stringify_throws apiKey e t :
  stringify e = Throw t ->
  settled (forwardRequestCatch apiKey e) = Throw t.
Proof.
  intros H. unfold forwardRequestCatch. run_fwd. now rewrite H.
Qed.

(** The [catch] blocks make no upstream call. *)
Lemma forwardRequestCatch_silent apiKey e :
  forwardRequestCatch apiKey e tt
    = (settled (forwardRequestCatch apiKey e), tt, []).
Proof.
  unfold forwardRequestCatch. run_calls.
  destruct (stringify e) as [[]|t]; cbn; [|reflexivity].
  destruct (get e "response") as [resp|]; cbn; [|reflexivity].
  destruct (get_opt resp "status") as [st|]; cbn; [|reflexivity].
  destruct (truthy st); cbn.
  - destruct (get e "message"); reflexivity.
  - destruct (get e "statusCode"); cbn; [|reflexivity].
    destruct (get e "message"); reflexivity.
Qed.

Lemma forwardOpenAIRequestCatch_silent apiKey e :
  forwardOpenAIRequestCatch apiKey e tt
    = (settled (forwardOpenAIRequestCatch apiKey e), tt, []).
Proof.
  unfold forwardOpenAIRequestCatch. run_calls.
  destruct (stringify e) as [[]|t]; cbn; [|reflexivity].
  destruct (get e "message"); cbn; [|reflexivity].
  destruct (get e "statusCode"); reflexivity.
Qed.

(** The run of [forwardRequest], case by case. *)
Lemma forwardRequest_run sdk modelId methodName requestBody apiKey :
  forwardRequest sdk modelId methodName requestBody apiKey tt
    = match sdk (key apiKey) modelId with
      | Throw e => (Throw e, tt, [])
      | Normal m =>
          if String.eqb methodName "generateContent" then
            match generateContent m requestBody with
            | Normal x => (Normal (Build_ForwardResult x None None), tt,
                           [CallGenerateContent modelId (key apiKey) requestBody])
            | Throw e => (settled (forwardRequestCatch apiKey e), tt,
                          [CallGenerateContent modelId (key apiKey) requestBody])
            end
          else if String.eqb methodName "streamGenerateContent" then
            match generateContentStream m requestBody with
            | Normal x => (Normal (Build_ForwardResult JUndefined (Some x) None), tt,
                           [CallGenerateContentStream modelId (key apiKey) requestBody])
            | Throw e => (settled (forwardRequestCatch apiKey e), tt,
                          [CallGenerateContentStream modelId (key apiKey) requestBody])
            end
          else if String.eqb methodName "countTokens" then
            match countTokens m requestBody with
            | Normal x => (Normal (Build_ForwardResult x None None), tt,
                           [CallCountTokens modelId (key apiKey) requestBody])
            | Throw e => (settled (forwardRequestCatch apiKey e), tt,
                          [CallCountTokens modelId (key apiKey) requestBody])
            end
          else
            (Normal (Build_ForwardResult JUndefined None
                       (Some {| message := ("Unsupported API method: " ++ methodName)%string;
                                statusCode := JNum 400;
                                apiKey := key apiKey;
                                isRateLimitError := false |})), tt, [])
      end.
Proof.
  unfold forwardRequest. unfold bind at 1, settle at 1.
  destruct (sdk (key apiKey) modelId) as [m|e0]; [|reflexivity].
  unfold try_catch.
  destruct (String.eqb methodName "generateContent").
  { unfold call, bind, emit, settle, ret.
    destruct (generateContent m requestBody) as [x|e]; cbv beta iota; [reflexivity|].
    now rewrite forwardRequestCatch_silent. }
  destruct (String.eqb methodName "streamGenerateContent").
  { unfold call, bind, emit, settle, ret.
    destruct (generateContentStream m requestBody) as [x|e]; cbv beta iota; [reflexivity|].
    now rewrite forwardRequestCatch_silent. }
  destruct (String.eqb methodName "countTokens").
  { unfold call, bind, emit, settle, ret.
    destruct (countTokens m requestBody) as [x|e]; cbv beta iota; [reflexivity|].
    now rewrite forwardRequestCatch_silent. }
  reflexivity.
Qed.


Lemma get_opt_settles v name :
  get_opt v name = Normal (match get_opt v name with Normal w => w | Throw _ => JUndefined end).
Proof. destruct v; reflexivity. Qed.

(** The run of [forwardOpenAIRequest], case by case. *)
Lemma forwardOpenAIRequest_run fetch path requestBody apiKey method :
  let url := requestUrl path in
  let options := requestOptions requestBody apiKey method in
  forwardOpenAIRequest fetch path requestBody apiKey method tt
    = match fetch url options with
      | Throw e =>
          (settled (forwardOpenAIRequestCatch apiKey e), tt, [CallFetch url options])
      | Normal resp =>
          if ok resp then
            if wantsStream requestBody then
              (Normal (Build_ForwardResult JUndefined (body resp) None), tt,
               [CallFetch url options])
            else
              match json resp with
              | Normal data =>
                  (Normal (Build_ForwardResult data None None), tt,
                   [CallFetch url options; CallReadJson])
              | Throw e =>
                  (settled (forwardOpenAIRequestCatch apiKey e), tt,
                   [CallFetch url options; CallReadJson])
              end
          else
            match text resp with
            | Normal errorBody =>
                (Normal (Build_ForwardResult JUndefined None
                   (Some {| message := ("OpenAI Compatible API Error: "
                                          ++ num_to_string (status resp) ++ " "
                                          ++ statusText resp ++ " - " ++ errorBody)%string;
                            statusCode := JNum (status resp);
                            apiKey := key apiKey;
                            isRateLimitError := Z.eqb (status resp) 429 |})), tt,
                 [CallFetch url options; CallReadText])
            | Throw e =>
                (settled (forwardOpenAIRequestCatch apiKey e), tt,
                 [CallFetch url options; CallReadText])
            end
      end.
Proof.
  intros url options. unfold forwardOpenAIRequest.
  fold (requestUrl path). fold url.
  change (Build_FetchOptions method _ _) with options.
  unfold try_catch, call. unfold bind at 1. unfold bind at 1, emit at 1, settle at 1.
  destruct (fetch url options) as [resp|e]; cbv beta iota.
  2: { now rewrite forwardOpenAIRequestCatch_silent. }
  destruct (ok resp); cbv beta iota; cbn [negb].
  - unfold wantsStream. unfold bind at 1, settle at 1.
    rewrite (get_opt_settles requestBody "stream"). cbv beta iota.
    destruct (truthy _).
    + reflexivity.
    + unfold bind, emit, settle, ret.
      destruct (json resp) as [data|e]; cbv beta iota; [reflexivity|].
      now rewrite forwardOpenAIRequestCatch_silent.
  - unfold bind, emit, settle, ret.
    destruct (text resp) as [errorBody|e]; cbv beta iota; [reflexivity|].
    now rewrite forwardOpenAIRequestCatch_silent.
Qed.


(** What the [catch] blocks return is an error outcome for the
    credential in use, without response and without stream. *)
Lemma forwardRequestCatch_shape apiKey0 e r :
  settled (forwardRequestCatch apiKey0 e) = Normal r ->
  exists err, error r = Some err /\ apiKey err = key apiKey0
              /\ response r = JUndefined /\ stream r = None.
Proof.
  unfold forwardRequestCatch. run_calls.
  destruct (stringify e) as [[]|t]; cbn; [|discriminate].
  destruct (get e "response") as [resp|]; cbn; [|discriminate].
  destruct (get_opt resp "status") as [st|]; cbn; [|discriminate].
  destruct (truthy st); cbn.
  - destruct (get e "message"); cbn; [|discriminate].
    intros [= <-]. eexists. repeat split.
  - destruct (get e "statusCode"); cbn; [|discriminate].
    destruct (get e "message"); cbn; [|discriminate].
    intros [= <-]. eexists. repeat split.
Qed.

Lemma forwardOpenAIRequestCatch_shape apiKey0 e r :
  settled (forwardOpenAIRequestCatch apiKey0 e) = Normal r ->
  exists err, error r = Some err /\ apiKey err = key apiKey0
              /\ response r = JUndefined /\ stream r = None
              /\ isRateLimitError err = false
              /\ truthy (statusCode err) = true.
Proof.
  unfold forwardOpenAIRequestCatch. run_calls.
  destruct (stringify e) as [[]|t]; cbn; [|discriminate].
  destruct (get e "message"); cbn; [|discriminate].
  destruct (get e "statusCode") as [sc|]; cbn; [|discriminate].
  intros [= <-]. eexists. repeat split. cbn. unfold js_or.
  destruct (truthy sc) eqn:Hsc; [exact Hsc|reflexivity].
Qed.



(** A non-2xx response of the passthrough is a rate-limit failure exactly
    when its status is 429. *)
Lemma forwardOpenAIRequest_response_classifies fetch path requestBody apiKey method url options resp :
  url = (baseUrl ++ cleanPath path)%string ->
  options = {| fo_method := method;
               fo_headers := [("Authorization", ("Bearer " ++ key apiKey)%string);
                              ("Content-Type", "application/json")];
               fo_body := if negb (String.eqb method "GET") && truthy requestBody
                          then Some requestBody else None |} ->
  fetch url options = Normal resp ->
  ok resp = false ->
  forall errorBody, text resp = Normal errorBody ->
  exists err,
    settled (forwardOpenAIRequest fetch path requestBody apiKey method)
      = Normal (Build_ForwardResult JUndefined None (Some err))
    /\ statusCode err = JNum (status resp)
    /\ isRateLimitError err = Z.eqb (status resp) 429.
Proof.
  intros -> -> Hf Hok errorBody Ht.
  unfold forwardOpenAIRequest.
  unfold settled, result, try_catch, call, bind, emit, settle, ret.
  cbv beta zeta. rewrite Hf. cbv beta iota. rewrite Hok. cbv beta iota.
  rewrite Ht. simpl. eexists. split; [reflexivity|]. split; reflexivity.
Qed.

Example forwardOpenAIRequest_models :
  forwardOpenAIRequest Scenario.okFetch "/v1/models" JNull Scenario.key1 "GET" tt
    = (Normal (Build_ForwardResult (JObj []) None None), tt,
       [CallFetch "https://generativelanguage.googleapis.com/v1beta/openai/models"
          {| fo_method := "GET";
             fo_headers := [("Authorization", "Bearer key-1");
                            ("Content-Type", "application/json")];
             fo_body := None |};
        CallReadJson]).
Proof. reflexivity. Qed.

Example forwardOpenAIRequest_429_response :
  settled (forwardOpenAIRequest Scenario.fetch429 "/v1/chat/completions"
             Scenario.chatBody Scenario.key1 "POST")
    = Normal (Build_ForwardResult JUndefined None
                (Some {| message := "OpenAI Compatible API Error: 429 Too Many Requests - quota exceeded";
                         statusCode := JNum 429;
                         apiKey := "key-1";
                         isRateLimitError := true |})).
Proof. reflexivity. Qed.


(** C8, amended: for a method name other than [generateContent],
    [streamGenerateContent] and [countTokens], [forwardRequest] makes no
    call to the upstream; once the model handle has been obtained it
    returns an error outcome with status code 400 that is not a
    rate-limit failure, and when obtaining the handle throws, which
    happens before the method name is looked at, that exception leaves
    [forwardRequest]. *)
Theorem forwardRequest_unsupported_method
    sdk modelId methodName requestBody apiKey :
  methodName <> "generateContent" ->
  methodName <> "streamGenerateContent" ->
  methodName <> "countTokens" ->
  upstreamCalls (forwardRequest sdk modelId methodName requestBody apiKey) = []
  /\ settled (forwardRequest sdk modelId methodName requestBody apiKey)
     = match sdk (key apiKey) modelId with
       | Normal _ =>
           Normal (Build_ForwardResult JUndefined None
                     (Some {| message := "Unsupported API method: " ++ methodName;
                              statusCode := JNum 400;
                              apiKey := key apiKey;
                              isRateLimitError := false |}))
       | Throw e => Throw e
       end.
Proof.
  intros H1 H2 H3.
  apply String.eqb_neq in H1, H2, H3.
  unfold settled, upstreamCalls. rewrite forwardRequest_run.
  destruct (sdk (key apiKey) modelId) as [m|e]; [|split; reflexivity].
  rewrite H1, H2, H3. split; reflexivity.
Qed.


End ForwarderProperties.

Section Utf8Arithmetic.

(** Bits of a number below [2^k] do not meet those of a multiple of
    [2^k]: or-ing them is adding them. *)
Lemma lor_add_shifted q k x :
  0 <= k -> 0 <= x < 2 ^ k -> Z.lor (q * 2 ^ k) x = q * 2 ^ k + x.
Proof.
  intros Hk Hx.
  pose proof (Z.add_lor_land (q * 2 ^ k) x) as Hadd.
  assert (Hl : Z.land (q * 2 ^ k) x = 0).
  { apply Z.bits_inj'. intros n Hn.
    rewrite Z.land_spec, Z.bits_0.
    destruct (Z.lt_ge_cases n k) as [Hlt|Hge].
    - rewrite Z.mul_pow2_bits_low by assumption. reflexivity.
    - rewrite <- (Z.mod_small x (2 ^ k)) by assumption.
      rewrite Z.mod_pow2_bits_high by lia. apply andb_false_r. }
  rewrite Hl in Hadd. lia.
Qed.

Lemma land_low x k : 0 <= k -> Z.land x (2 ^ k - 1) = x mod 2 ^ k.
Proof.
  intros Hk.
  replace (2 ^ k - 1) with (Z.ones k) by (rewrite Z.ones_equiv; lia).
  now apply Z.land_ones.
Qed.

Lemma lor_80 x : 0 <= x < 64 -> Z.lor 0x80 x = 0x80 + x.
Proof. intros H. apply (lor_add_shifted 2 (k := 6)); lia. Qed.

Lemma lor_C0 x : 0 <= x < 64 -> Z.lor 0xC0 x = 0xC0 + x.
Proof. intros H. apply (lor_add_shifted 3 (k := 6)); lia. Qed.

Lemma lor_E0 x : 0 <= x < 32 -> Z.lor 0xE0 x = 0xE0 + x.
Proof. intros H. apply (lor_add_shifted 7 (k := 5)); lia. Qed.

Lemma lor_F0 x : 0 <= x < 16 -> Z.lor 0xF0 x = 0xF0 + x.
Proof. intros H. apply (lor_add_shifted 15 (k := 4)); lia. Qed.

Lemma land_3F x : Z.land x 0x3F = x mod 64.
Proof. apply (land_low x (k := 6)). lia. Qed.

Lemma land_1F x : Z.land x 0x1F = x mod 32.
Proof. apply (land_low x (k := 5)). lia. Qed.

Lemma land_0F x : Z.land x 0xF = x mod 16.
Proof. apply (land_low x (k := 4)). lia. Qed.

Lemma land_07 x : Z.land x 0x7 = x mod 8.
Proof. apply (land_low x (k := 3)). lia. Qed.

Lemma shiftr_6 x : Z.shiftr x 6 = x / 64.
Proof. now rewrite Z.shiftr_div_pow2. Qed.

Lemma shiftr_12 x : Z.shiftr x 12 = x / 4096.
Proof. now rewrite Z.shiftr_div_pow2. Qed.

Lemma shiftr_18 x : Z.shiftr x 18 = x / 262144.
Proof. now rewrite Z.shiftr_div_pow2. Qed.

(** Appending six bits to an open sequence. *)
Lemma push_six cp x :
  0 <= x < 64 -> Z.lor (Z.shiftl cp 6) x = cp * 64 + x.
Proof.
  intros H. rewrite Z.shiftl_mul_pow2 by lia.
  apply (lor_add_shifted cp (k := 6)); lia.
Qed.

End Utf8Arithmetic.

Section DecoderProperties.
Import TextDecoder OpenAIRoute.

Ltac arith := Z.div_mod_to_equations; lia.

Ltac norm_seen :=
  change (0 + 1) with 1; change (1 + 1) with 2; change (2 + 1) with 3;
  change (Z.eqb 1 1) with true; change (Z.eqb 2 2) with true;
  change (Z.eqb 3 3) with true; change (Z.eqb 1 2) with false;
  change (Z.eqb 1 3) with false; change (Z.eqb 2 3) with false;
  cbv iota.

Lemma between_true lo x hi : lo <= x <= hi -> between lo x hi = true.
Proof. intros H. unfold between. apply andb_true_iff. split; apply Z.leb_le; lia. Qed.

Lemma between_false lo x hi : x < lo \/ hi < x -> between lo x hi = false.
Proof.
  intros H. unfold between. apply andb_false_iff.
  destruct H; [left|right]; apply Z.leb_gt; lia.
Qed.

Lemma encode_one c : 0 <= c < 0x80 -> encodeCodePoint c = [c].
Proof.
  intros H. unfold encodeCodePoint.
  now replace (Z.ltb c 128) with true by (symmetry; apply Z.ltb_lt; lia).
Qed.

Lemma encode_two c :
  0x80 <= c < 0x800 ->
  encodeCodePoint c = [0xC0 + c / 64; 0x80 + c mod 64].
Proof.
  intros H. unfold encodeCodePoint.
  replace (Z.ltb c 128) with false by (symmetry; apply Z.ltb_ge; lia).
  replace (Z.ltb c 2048) with true by (symmetry; apply Z.ltb_lt; lia).
  rewrite shiftr_6, land_3F, lor_C0, lor_80 by arith. reflexivity.
Qed.

Lemma encode_three c :
  0x800 <= c < 0x10000 -> c < 0xD800 \/ 0xDFFF < c ->
  encodeCodePoint c
    = [0xE0 + c / 4096; 0x80 + (c / 64) mod 64; 0x80 + c mod 64].
Proof.
  intros H Hs. unfold encodeCodePoint.
  replace (Z.ltb c 128) with false by (symmetry; apply Z.ltb_ge; lia).
  replace (Z.ltb c 2048) with false by (symmetry; apply Z.ltb_ge; lia).
  replace (Z.ltb c 65536) with true by (symmetry; apply Z.ltb_lt; lia).
  rewrite between_false by lia.
  rewrite shiftr_12, shiftr_6, !land_3F, lor_E0, !lor_80 by arith. reflexivity.
Qed.

Lemma encode_four c :
  0x10000 <= c <= 0x10FFFF ->
  encodeCodePoint c
    = [0xF0 + c / 262144; 0x80 + (c / 4096) mod 64;
       0x80 + (c / 64) mod 64; 0x80 + c mod 64].
Proof.
  intros H. unfold encodeCodePoint.
  replace (Z.ltb c 128) with false by (symmetry; apply Z.ltb_ge; lia).
  replace (Z.ltb c 2048) with false by (symmetry; apply Z.ltb_ge; lia).
  replace (Z.ltb c 65536) with false by (symmetry; apply Z.ltb_ge; lia).
  rewrite shiftr_18, shiftr_12, shiftr_6, !land_3F, lor_F0, !lor_80 by arith.
  reflexivity.
Qed.

Lemma lead_one bom b : 0 <= b <= 0x7F -> lead bom b = (idle bom, [b]).
Proof. intros H. unfold lead. now rewrite between_true by lia. Qed.

Lemma lead_two bom b :
  0xC2 <= b <= 0xDF ->
  lead bom b
    = ({| codePoint := b mod 32; bytesSeen := 0; bytesNeeded := 1;
          lowerBoundary := 0x80; upperBoundary := 0xBF; bomSeen := bom |}, []).
Proof.
  intros H. unfold lead.
  rewrite between_false by lia. rewrite between_true by lia.
  now rewrite land_1F.
Qed.

Lemma lead_three bom b :
  0xE0 <= b <= 0xEF ->
  lead bom b
    = ({| codePoint := b mod 16; bytesSeen := 0; bytesNeeded := 2;
          lowerBoundary := if Z.eqb b 0xE0 then 0xA0 else 0x80;
          upperBoundary := if Z.eqb b 0xED then 0x9F else 0xBF;
          bomSeen := bom |}, []).
Proof.
  intros H. unfold lead.
  rewrite between_false by lia. rewrite between_false by lia.
  rewrite between_true by lia. now rewrite land_0F.
Qed.

Lemma lead_four bom b :
  0xF0 <= b <= 0xF4 ->
  lead bom b
    = ({| codePoint := b mod 8; bytesSeen := 0; bytesNeeded := 3;
          lowerBoundary := if Z.eqb b 0xF0 then 0x90 else 0x80;
          upperBoundary := if Z.eqb b 0xF4 then 0x8F else 0xBF;
          bomSeen := bom |}, []).
Proof.
  intros H. unfold lead.
  rewrite between_false by lia. rewrite between_false by lia.
  rewrite between_false by lia. rewrite between_true by lia.
  now rewrite land_07.
Qed.

(** A continuation byte within the expected range. *)
Lemma step_continuation cp seen needed lo hi bom b :
  needed <> 0 -> lo <= b <= hi ->
  step {| codePoint := cp; bytesSeen := seen; bytesNeeded := needed;
          lowerBoundary := lo; upperBoundary := hi; bomSeen := bom |} b
    = if Z.eqb (seen + 1) needed
      then (idle bom, [cp * 64 + b mod 64])
      else ({| codePoint := cp * 64 + b mod 64; bytesSeen := seen + 1;
               bytesNeeded := needed;
               lowerBoundary := 0x80; upperBoundary := 0xBF;
               bomSeen := bom |}, []).
Proof.
  intros Hn Hb. unfold step. cbn [bytesNeeded lowerBoundary upperBoundary
                                   codePoint bytesSeen bomSeen].
  replace (Z.eqb needed 0) with false by (symmetry; now apply Z.eqb_neq).
  rewrite between_true by assumption. cbn [negb].
  rewrite land_3F, push_six by arith. reflexivity.
Qed.

Lemma run_cons d b rest :
  run d (b :: rest)
    = (let '(d1, out1) := step d b in
       let '(d2, out2) := run d1 rest in (d2, out1 ++ out2)).
Proof. reflexivity. Qed.

Lemma step_idle bom b : step (idle bom) b = lead bom b.
Proof. reflexivity. Qed.

(** Decoding the encoding of a scalar value gives the value back and
    leaves the decoder between characters. *)
Lemma run_encodeCodePoint bom c rest :
  isScalar c ->
  run (idle bom) (encodeCodePoint c ++ rest)
    = (fst (run (idle bom) rest), c :: snd (run (idle bom) rest)).
Proof.
  intros Hs.
  assert (Hcases : 0 <= c < 0x80 \/ 0x80 <= c < 0x800
                   \/ (0x800 <= c < 0x10000 /\ (c < 0xD800 \/ 0xDFFF < c))
                   \/ 0x10000 <= c <= 0x10FFFF) by (unfold isScalar in Hs; lia).
  destruct Hcases as [H1|[H2|[[H3 H3']|H4]]].
  - rewrite encode_one by assumption. cbn [app].
    rewrite run_cons, step_idle, lead_one by lia.
    destruct (run (idle bom) rest). reflexivity.
  - rewrite encode_two by assumption. cbn [app].
    rewrite run_cons, step_idle, lead_two by arith.
    rewrite run_cons, step_continuation by (try discriminate; arith).
    norm_seen.
    destruct (run (idle bom) rest). cbn [fst snd app]. f_equal. f_equal. arith.
  - rewrite encode_three by assumption. cbn [app].
    rewrite run_cons, step_idle, lead_three by arith.
    rewrite run_cons, step_continuation.
    2: discriminate.
    2: { destruct (Z.eqb_spec (224 + c / 4096) 224);
         destruct (Z.eqb_spec (224 + c / 4096) 237); arith. }
    norm_seen.
    rewrite run_cons, step_continuation by (try discriminate; arith).
    norm_seen.
    destruct (run (idle bom) rest). cbn [fst snd app]. f_equal. f_equal. arith.
  - rewrite encode_four by assumption. cbn [app].
    rewrite run_cons, step_idle, lead_four by arith.
    rewrite run_cons, step_continuation.
    2: discriminate.
    2: { destruct (Z.eqb_spec (240 + c / 262144) 240);
         destruct (Z.eqb_spec (240 + c / 262144) 244); arith. }
    norm_seen.
    rewrite run_cons, step_continuation by (try discriminate; arith).
    norm_seen.
    rewrite run_cons, step_continuation by (try discriminate; arith).
    norm_seen.
    destruct (run (idle bom) rest). cbn [fst snd app]. f_equal. f_equal. arith.
Qed.


Lemma run_encode bom t :
  Forall isScalar t -> run (idle bom) (encode t) = (idle bom, t).
Proof.
  induction 1 as [|c rest Hc _ IH]; [reflexivity|].
  unfold encode in *. cbn [flat_map].
  rewrite (run_encodeCodePoint bom (flat_map encodeCodePoint rest) Hc), IH.
  reflexivity.
Qed.

(** Once the head of the stream has gone by, a well-formed chunk decodes
    to the text it encodes. *)
Lemma decode_encode_seen t :
  Forall isScalar t -> decode (idle true) (encode t) = (idle true, t).
Proof. intros H. unfold decode. now rewrite (run_encode true H). Qed.

Lemma decode_encode_head c t :
  Forall isScalar (c :: t) -> c <> 0xFEFF ->
  decode (idle false) (encode (c :: t)) = (idle true, c :: t).
Proof.
  intros H Hc. unfold decode. rewrite (run_encode false H).
  unfold stripBOM. cbn [bomSeen idle].
  now replace (Z.eqb c 65279) with false by (symmetry; now apply Z.eqb_neq).
Qed.

Lemma run_app d a b :
  run d (a ++ b)
    = (fst (run (fst (run d a)) b), snd (run d a) ++ snd (run (fst (run d a)) b)).
Proof.
  revert d. induction a as [|x a IH]; intros d; cbn [app run].
  - cbn. now destruct (run d b).
  - destruct (step d x) as [d1 o1]. rewrite IH.
    destruct (run d1 a) as [d2 o2]. cbn [fst snd].
    destruct (run d2 b) as [d3 o3]. cbn [fst snd]. now rewrite app_assoc.
Qed.

(** The decoder's registers do not depend on the byte-order-mark flag. *)
Lemma lead_setBOM bom bom' b :
  lead bom' b = (setBOM bom' (fst (lead bom b)), snd (lead bom b)).
Proof.
  unfold lead.
  repeat match goal with |- context [if ?c then _ else _] => destruct c end;
    reflexivity.
Qed.

Lemma step_setBOM bom d b :
  step (setBOM bom d) b = (setBOM bom (fst (step d b)), snd (step d b)).
Proof.
  unfold step. cbn [setBOM bytesNeeded lowerBoundary upperBoundary codePoint
                    bytesSeen bomSeen].
  destruct (Z.eqb (bytesNeeded d) 0).
  - apply lead_setBOM.
  - destruct (between (lowerBoundary d) b (upperBoundary d)); cbn [negb].
    + destruct (Z.eqb (bytesSeen d + 1) (bytesNeeded d)); reflexivity.
    + rewrite (lead_setBOM (bomSeen d) bom b).
      destruct (lead (bomSeen d) b). reflexivity.
Qed.

Lemma run_setBOM bom d v :
  run (setBOM bom d) v = (setBOM bom (fst (run d v)), snd (run d v)).
Proof.
  revert d. induction v as [|b v IH]; intros d; cbn [run].
  - reflexivity.
  - rewrite step_setBOM. destruct (step d b) as [d1 o1]. cbn [fst snd].
    rewrite IH. destruct (run d1 v). reflexivity.
Qed.

Lemma run_bomSeen d v : bomSeen (fst (run d v)) = bomSeen d.
Proof.
  revert d. induction v as [|b v IH]; intros d; cbn [run]; [reflexivity|].
  assert (Hs : bomSeen (fst (step d b)) = bomSeen d).
  { unfold step, lead.
    repeat match goal with
           | |- context [if ?c then _ else _] => destruct c
           | |- context [let '(_, _) := ?x in _] => destruct x
           end; reflexivity. }
  destruct (step d b) as [d1 o1]. specialize (IH d1).
  destruct (run d1 v). cbn [fst] in *. congruence.
Qed.

Lemma setBOM_same d : setBOM (bomSeen d) d = d.
Proof. now destruct d. Qed.

(** The texts written for a sequence of chunks, put end to end, are the
    decoding of the chunks put end to end. *)
Lemma decoded_concat d pending :
  List.concat (decoded d pending)
    = if bomSeen d
      then snd (run d (List.concat pending))
      else dropBOM (snd (run d (List.concat pending))).
Proof.
  revert d. induction pending as [|value rest IH]; intros d.
  - cbn. now destruct (bomSeen d).
  - cbn [decoded List.concat]. rewrite run_app.
    unfold decode. pose proof (run_bomSeen d value) as Hb.
    destruct (run d value) as [d1 o1]. cbn [fst snd] in *.
    unfold stripBOM. rewrite Hb.
    destruct (bomSeen d) eqn:Hd.
    + cbn [fst snd]. rewrite IH, Hb. reflexivity.
    + destruct o1 as [|c o1]; cbn [fst snd].
      * rewrite IH, Hb. reflexivity.
      * rewrite IH. cbn [bomSeen].
        change (Build_Decoder (codePoint d1) (bytesSeen d1) (bytesNeeded d1)
                  (lowerBoundary d1) (upperBoundary d1) true)
          with (setBOM true d1).
        rewrite run_setBOM. cbn [snd]. unfold dropBOM. cbn [app].
        destruct (Z.eqb c 65279); reflexivity.
Qed.

Lemma encode_concat texts :
  encode (List.concat texts) = List.concat (map encode texts).
Proof.
  induction texts as [|t rest IH]; [reflexivity|].
  cbn [List.concat map]. unfold encode in *. now rewrite flat_map_app, IH.
Qed.

Lemma between_spec lo x hi : between lo x hi = true <-> lo <= x <= hi.
Proof.
  unfold between. rewrite andb_true_iff, !Z.leb_le. reflexivity.
Qed.

Lemma lead_other bom b :
  b < 0 \/ 0x7F < b < 0xC2 \/ 0xF4 < b -> lead bom b = (idle bom, [REPLACEMENT]).
Proof.
  intros H. unfold lead. now rewrite !between_false by lia.
Qed.

Lemma scalar_REPLACEMENT : isScalar REPLACEMENT.
Proof. unfold isScalar, REPLACEMENT. lia. Qed.

(** A byte met between two characters opens a sequence that can only
    end in a scalar value, or yields one at once. *)
Lemma lead_consistent bom b :
  consistent (fst (lead bom b)) /\ Forall isScalar (snd (lead bom b)).
Proof.
  assert (Hcases : 0 <= b <= 0x7F \/ 0xC2 <= b <= 0xDF \/ 0xE0 <= b <= 0xEF
                   \/ 0xF0 <= b <= 0xF4
                   \/ (b < 0 \/ 0x7F < b < 0xC2 \/ 0xF4 < b)) by lia.
  destruct Hcases as [H|[H|[H|[H|H]]]].
  - rewrite lead_one by assumption. cbn [fst snd]. split; [now left|].
    constructor; [unfold isScalar; lia|constructor].
  - rewrite lead_two by assumption. cbn [fst snd]. split; [|constructor].
    right. cbn. split; [lia|]. split; [lia|]. left. repeat split; arith.
  - rewrite lead_three by assumption. cbn [fst snd]. split; [|constructor].
    right. cbn [lowerBoundary upperBoundary bytesNeeded bytesSeen codePoint].
    destruct (Z.eqb_spec b 224); destruct (Z.eqb_spec b 237);
      (split; [lia|]); (split; [lia|]); right; left; repeat split; arith.
  - rewrite lead_four by assumption. cbn [fst snd]. split; [|constructor].
    right. cbn [lowerBoundary upperBoundary bytesNeeded bytesSeen codePoint].
    destruct (Z.eqb_spec b 240); destruct (Z.eqb_spec b 244);
      (split; [lia|]); (split; [lia|]); do 3 right; left; repeat split; arith.
  - rewrite lead_other by assumption. cbn [fst snd]. split; [now left|].
    constructor; [apply scalar_REPLACEMENT|constructor].
Qed.

(** Every byte keeps the registers consistent, and what the decoder
    yields for it are scalar values. *)
Lemma step_consistent d b :
  consistent d -> consistent (fst (step d b)) /\ Forall isScalar (snd (step d b)).
Proof.
  destruct d as [cp seen needed lo hi bom]. unfold consistent at 1.
  cbn [lowerBoundary upperBoundary bytesNeeded bytesSeen codePoint].
  intros [H|(Hlo & Hhi & H)].
  { subst needed. unfold step. cbn [bytesNeeded bomSeen Z.eqb].
    apply lead_consistent. }
  assert (Hn : needed <> 0) by lia.
  destruct (between lo b hi) eqn:Hb.
  2: { unfold step. cbn [lowerBoundary upperBoundary bytesNeeded bomSeen].
       replace (Z.eqb needed 0) with false by (symmetry; now apply Z.eqb_neq).
       rewrite Hb. cbn [negb].
       destruct (lead_consistent bom b) as [Hc Hs].
       destruct (lead bom b) as [d' out]. cbn [fst snd] in *.
       split; [exact Hc|]. constructor; [apply scalar_REPLACEMENT|exact Hs]. }
  apply between_spec in Hb.
  rewrite step_continuation by assumption.
  destruct H as [H|[H|[H|[H|[H|H]]]]].
  - destruct H as (-> & -> & Hcp). norm_seen. cbn [fst snd].
    split; [now left|]. constructor; [unfold isScalar; arith|constructor].
  - destruct H as (-> & -> & Hcp & H0 & H13). norm_seen. cbn [fst snd].
    split; [|constructor]. right.
    cbn [lowerBoundary upperBoundary bytesNeeded bytesSeen codePoint].
    split; [lia|]. split; [lia|]. right; right; left.
    assert (cp = 0 \/ cp = 13 \/ 1 <= cp <= 12 \/ 14 <= cp <= 15) by lia.
    repeat split; try reflexivity; arith.
  - destruct H as (-> & -> & Hcp & Hsur). norm_seen. cbn [fst snd].
    split; [now left|]. constructor; [unfold isScalar; arith|constructor].
  - destruct H as (-> & -> & Hcp & H0 & H4). norm_seen. cbn [fst snd].
    split; [|constructor]. right.
    cbn [lowerBoundary upperBoundary bytesNeeded bytesSeen codePoint].
    split; [lia|]. split; [lia|]. do 4 right; left.
    assert (cp = 0 \/ cp = 4 \/ 1 <= cp <= 3) by lia.
    repeat split; try reflexivity; arith.
  - destruct H as (-> & -> & Hcp). norm_seen. cbn [fst snd].
    split; [|constructor]. right.
    cbn [lowerBoundary upperBoundary bytesNeeded bytesSeen codePoint].
    split; [lia|]. split; [lia|]. do 5 right.
    repeat split; try reflexivity; arith.
  - destruct H as (-> & -> & Hcp). norm_seen. cbn [fst snd].
    split; [now left|]. constructor; [unfold isScalar; arith|constructor].
Qed.

Lemma run_consistent d v :
  consistent d -> consistent (fst (run d v)) /\ Forall isScalar (snd (run d v)).
Proof.
  revert d. induction v as [|b v IH]; intros d Hd; cbn [run].
  - split; [exact Hd|constructor].
  - destruct (step_consistent b Hd) as [H1 Ho1].
    destruct (step d b) as [d1 o1]. cbn [fst snd] in *.
    destruct (IH d1 H1) as [H2 Ho2].
    destruct (run d1 v) as [d2 o2]. cbn [fst snd] in *.
    split; [exact H2|]. apply Forall_app. now split.
Qed.

Lemma decode_consistent d v :
  consistent d ->
  consistent (fst (decode d v)) /\ Forall isScalar (snd (decode d v)).
Proof.
  intros Hd. unfold decode. destruct (run_consistent v Hd) as [H1 Ho].
  destruct (run d v) as [d1 out]. cbn [fst snd] in *.
  unfold stripBOM. destruct (bomSeen d1); [now split|].
  destruct out as [|c rest]; [now split|]. cbn [fst snd]. split.
  - exact H1.
  - destruct (Z.eqb c 65279); [now inversion Ho|exact Ho].
Qed.

(** Whatever the chunks, the texts the decoder yields for them are
    sequences of scalar values. *)
Lemma decoded_scalar d pending :
  consistent d -> Forall (Forall isScalar) (decoded d pending).
Proof.
  revert d. induction pending as [|value rest IH]; intros d Hd; cbn [decoded].
  - constructor.
  - destruct (decode_consistent value Hd) as [H1 Ho].
    constructor; [exact Ho|now apply IH].
Qed.

End DecoderProperties.

Section RouterProperties.
Import Forwarder TextDecoder OpenAIRoute Traces.

Variable Store : Type.
Variable decrementRequestCount : string -> Store -> Store.
Variable markAsCoolingDown : string -> Z -> Store -> Store.
Variable config : Config.
Variable env : Env.

Lemma quiet_app t1 t2 : quiet t1 -> quiet t2 -> quiet (t1 ++ t2).
Proof. unfold quiet. intros. apply Forall_app. auto. Qed.

Lemma quiet_filter t : quiet t -> filter isKeyManagerCall t = [].
Proof.
  induction 1 as [|ev t Hev _ IH]; simpl; [reflexivity|]. now rewrite Hev.
Qed.

Lemma passive_ret {A} (a : A) : passive (ret (S := Store) (E := Event) a).
Proof. intros s. split; [reflexivity|constructor]. Qed.

Lemma passive_throw {A} e : passive (throw (S := Store) (E := Event) (A := A) e).
Proof. intros s. split; [reflexivity|constructor]. Qed.

Lemma passive_settle {A} (c : Completion A) :
  passive (settle (S := Store) (E := Event) c).
Proof. intros s. split; [reflexivity|constructor]. Qed.

Lemma passive_emit ev :
  isKeyManagerCall ev = false -> passive (emit (S := Store) ev).
Proof. intros H s. split; [reflexivity|]. repeat constructor. exact H. Qed.

Lemma passive_bind {A B} (m : Eff Store Event A) (f : A -> Eff Store Event B) :
  passive m -> (forall a, passive (f a)) -> passive (bind m f).
Proof.
  intros Hm Hf s. unfold bind. specialize (Hm s).
  destruct (m s) as [[r s1] t1]. unfold final, trace in *; simpl in Hm. destruct Hm as [-> Hq1].
  destruct r as [a|e]; [|split; [reflexivity|exact Hq1]].
  specialize (Hf a s). destruct (f a s) as [[r2 s2] t2]. unfold final, trace in *; simpl in *.
  destruct Hf as [-> Hq2]. split; [reflexivity|]. now apply quiet_app.
Qed.

Lemma passive_try_catch {A} (m : Eff Store Event A) h :
  passive m -> (forall e, passive (h e)) -> passive (try_catch m h).
Proof.
  intros Hm Hh s. unfold try_catch. specialize (Hm s).
  destruct (m s) as [[r s1] t1]. unfold final, trace in *; simpl in Hm. destruct Hm as [-> Hq1].
  destruct r as [a|e]; [split; [reflexivity|exact Hq1]|].
  specialize (Hh e s). destruct (h e s) as [[r2 s2] t2]. unfold final, trace in *; simpl in *.
  destruct Hh as [-> Hq2]. split; [reflexivity|]. now apply quiet_app.
Qed.

Lemma passive_try_finally {A} (m : Eff Store Event A) fin :
  passive m -> passive fin -> passive (try_finally m fin).
Proof.
  intros Hm Hf s. unfold try_finally. specialize (Hm s).
  destruct (m s) as [[r s1] t1]. unfold final, trace in *; simpl in Hm. destruct Hm as [-> Hq1].
  specialize (Hf s). destruct (fin s) as [[r2 s2] t2]. unfold final, trace in *; simpl in Hf.
  destruct Hf as [-> Hq2].
  destruct r2; (split; [reflexivity|]); now apply quiet_app.
Qed.

Lemma passive_does {A} ev (c : Completion A) :
  isKeyManagerCall ev = false -> passive (does (Store := Store) ev c).
Proof.
  intros H. apply passive_bind; [now apply passive_emit|].
  intros _. apply passive_settle.
Qed.

Create HintDb passive.
#[local] Hint Resolve passive_ret passive_throw passive_settle passive_emit
  passive_does : passive.

Lemma passive_pump decoder written pending fin :
  passive (pump (Store := Store) env decoder written pending fin).
Proof.
  revert decoder written.
  induction pending as [|value rest IH]; intros decoder written; simpl.
  - destruct fin; [auto with passive|].
    apply passive_bind; auto with passive.
  - destruct (decode decoder value) as [decoder' chunk].
    apply passive_bind; [auto with passive|]. intros _.
    apply passive_bind; auto with passive.
Qed.

Lemma passive_setHeaders hs : passive (setHeaders (Store := Store) env hs).
Proof.
  induction hs as [|[name value] rest IH]; simpl; [auto with passive|].
  apply passive_bind; auto with passive.
Qed.

Lemma passive_handleStreamingResponse body apiKey :
  passive (handleStreamingResponse (Store := Store) env body apiKey).
Proof.
  unfold handleStreamingResponse.
  apply passive_bind; [apply passive_setHeaders|]. intros _.
  apply passive_bind; [auto with passive|]. intros _.
  apply passive_try_finally; [|auto with passive].
  apply passive_try_catch; [apply passive_pump|auto with passive].
Qed.


Local Abbreviation evaluate := (evaluate markAsCoolingDown config env).
Local Abbreviation serve := (serve decrementRequestCount markAsCoolingDown config env).

(** Evaluating the forward result touches the key manager only to cool
    the key down, and only for a rate-limit failure. *)
Lemma evaluate_key_manager route apiKey fr s :
  final (evaluate route apiKey fr s)
    = (if rateLimited fr
       then markAsCoolingDown (key apiKey) (KEY_COOL_DOWN_DURATION_MS config) s
       else s)
  /\ filter isKeyManagerCall (trace (evaluate route apiKey fr s))
    = (if rateLimited fr
       then [MarkAsCoolingDown (key apiKey) (KEY_COOL_DOWN_DURATION_MS config)]
       else []).
Proof.
  unfold OpenAIRoute.evaluate, rateLimited.
  destruct (error fr) as [err|].
  - destruct (isRateLimitError err).
    + set (d := does _ _).
      assert (Hd : passive (Store := Store) d) by (apply passive_does; reflexivity).
      specialize (Hd (markAsCoolingDown (key apiKey) (KEY_COOL_DOWN_DURATION_MS config) s)).
      unfold bind, emit, update.
      destruct (d _) as [[r s1] t1]. unfold final, trace in *; simpl in *.
      destruct Hd as [-> Hq]. split; [reflexivity|].
      now rewrite (quiet_filter Hq).
    + set (d := does _ _).
      assert (Hd : passive (Store := Store) d) by (apply passive_does; reflexivity).
      specialize (Hd s). unfold bind, ret.
      destruct (d s) as [[r s1] t1]. unfold final, trace in *; simpl in *.
      destruct Hd as [-> Hq]. split; [reflexivity|]. now apply quiet_filter.
  - assert (Hp : forall m : Eff Store Event unit, passive m ->
                 final (m s) = s /\ filter isKeyManagerCall (trace (m s)) = []).
    { intros m Hm. destruct (Hm s) as [-> Hq]. split; [reflexivity|].
      now apply quiet_filter. }
    destruct (if relaysStream route then stream fr else None).
    + apply Hp, passive_handleStreamingResponse.
    + destruct (truthy (response fr)); apply Hp; apply passive_does; reflexivity.
Qed.

(** The run of a handler whose forward call returned: the key is
    selected, the request forwarded, the key released, and then the
    forward result is evaluated. *)
Lemma serve_forwarded route reqBody s apiKey fr :
  selectApiKey env = Normal (Some apiKey) ->
  forward env (routePath route) (routeBody route reqBody) apiKey (routeMethod route)
    = Normal fr ->
  let released := decrementRequestCount (key apiKey) s in
  let after := evaluate route apiKey fr released in
  final (serve route reqBody s) = final after
  /\ trace (serve route reqBody s)
     = [SelectApiKey;
        ForwardOpenAIRequest (routePath route) (routeBody route reqBody)
                             apiKey (routeMethod route);
        DecrementRequestCount (key apiKey)]
       ++ trace after
       ++ match result after with
          | Normal _ => []
          | Throw e => [Next e]
          end.
Proof.
  intros Hsel Hfwd released after.
  unfold OpenAIRoute.serve, handle, does.
  unfold try_catch, bind, emit, settle, update.
  rewrite Hsel. cbv beta iota zeta. rewrite Hfwd. cbv beta iota zeta.
  fold released. fold after.
  destruct after as [[r s1] t1]. unfold final, trace, result; simpl.
  destruct r; simpl; split; try reflexivity.
  now rewrite app_nil_r.
Qed.


Lemma filter_release_key_manager k t :
  filter (isRelease k) t = filter (isRelease k) (filter isKeyManagerCall t).
Proof.
  induction t as [|ev t IH]; simpl; [reflexivity|].
  destruct ev; simpl; rewrite <- ?IH; reflexivity.
Qed.

Lemma filter_coolDown_key_manager t :
  filter isCoolDown t = filter isCoolDown (filter isKeyManagerCall t).
Proof.
  induction t as [|ev t IH]; simpl; [reflexivity|].
  destruct ev; simpl; rewrite <- ?IH; reflexivity.
Qed.

Lemma releases_app k t1 t2 : releases k (t1 ++ t2) = (releases k t1 + releases k t2)%nat.
Proof. unfold releases. now rewrite filter_app, length_app. Qed.

Lemma releases_evaluate k route apiKey fr s :
  releases k (trace (evaluate route apiKey fr s)) = 0%nat.
Proof.
  unfold releases. rewrite filter_release_key_manager.
  destruct (evaluate_key_manager route apiKey fr s) as [_ ->].
  destruct (rateLimited fr); reflexivity.
Qed.

(** C2, amended: when the dispatcher returned a credential and the
    forward call returned, the handler releases that credential exactly
    once, whatever the outcome and whether or not writing the response
    throws. *)
Theorem release_once_when_forward_returns route reqBody s apiKey fr :
  selectApiKey env = Normal (Some apiKey) ->
  forward env (routePath route) (routeBody route reqBody) apiKey (routeMethod route)
    = Normal fr ->
  releases (key apiKey) (trace (serve route reqBody s)) = 1%nat.
Proof.
  intros Hsel Hfwd.
  destruct (serve_forwarded route reqBody s Hsel Hfwd) as [_ ->].
  rewrite !releases_app, releases_evaluate.
  unfold releases at 1. simpl. rewrite String.eqb_refl. simpl.
  destruct (result _); reflexivity.
Qed.

(** C3: for a request that was forwarded, the handler cools the
    selected credential down, for the configured duration, exactly when
    the outcome is a failure flagged as a rate limit; otherwise the key
    manager sees the release and nothing else. *)
Theorem coolDown_iff_rate_limited route reqBody s apiKey fr :
  selectApiKey env = Normal (Some apiKey) ->
  forward env (routePath route) (routeBody route reqBody) apiKey (routeMethod route)
    = Normal fr ->
  filter isCoolDown (trace (serve route reqBody s))
    = (if rateLimited fr
       then [MarkAsCoolingDown (key apiKey) (KEY_COOL_DOWN_DURATION_MS config)]
       else [])
  /\ final (serve route reqBody s)
     = (if rateLimited fr
        then markAsCoolingDown (key apiKey) (KEY_COOL_DOWN_DURATION_MS config)
               (decrementRequestCount (key apiKey) s)
        else decrementRequestCount (key apiKey) s).
Proof.
  intros Hsel Hfwd.
  destruct (serve_forwarded route reqBody s Hsel Hfwd) as [-> ->].
  destruct (evaluate_key_manager route apiKey fr
              (decrementRequestCount (key apiKey) s)) as [-> Hk].
  split; [|reflexivity].
  rewrite !filter_app, (filter_coolDown_key_manager (trace _)), Hk.
  simpl. destruct (result _); destruct (rateLimited fr); reflexivity.
Qed.

(** C6: when the dispatcher returns the empty outcome, the handler
    answers 503 with the unavailability envelope; the forwarder is not
    called and the key manager is neither called nor changed. *)
Theorem no_key_responds_503 route reqBody s :
  selectApiKey env = Normal None ->
  trace (serve route reqBody s)
    = SelectApiKey :: ResStatusJson (JNum 503) noAvailableKeys
      :: match resJson env with Normal _ => [] | Throw e => [Next e] end
  /\ filter isForward (trace (serve route reqBody s)) = []
  /\ filter isKeyManagerCall (trace (serve route reqBody s)) = []
  /\ final (serve route reqBody s) = s.
Proof.
  intros Hsel.
  unfold OpenAIRoute.serve, handle, does.
  unfold try_catch, bind, emit, settle. rewrite Hsel. cbv beta iota.
  destruct (resJson env); unfold final, trace; simpl; repeat split.
Qed.

(** C9: once the forward call has returned, the handler's next step is
    the release of the selected credential, in the trace and in the key
    manager's state; the forward result is then evaluated from the
    released state, so that the cooldown, when there is one, is applied
    to the state in which the in-flight count is already decremented, and
    every event of the evaluation (cooldown marking, error response,
    response or stream delivery) follows the release.  The evaluation
    itself never releases. *)
Theorem release_precedes_evaluation route reqBody s apiKey fr :
  selectApiKey env = Normal (Some apiKey) ->
  forward env (routePath route) (routeBody route reqBody) apiKey (routeMethod route)
    = Normal fr ->
  let released := decrementRequestCount (key apiKey) s in
  let after := evaluate route apiKey fr released in
  serve route reqBody s
    = (Normal tt, final after,
       [SelectApiKey;
        ForwardOpenAIRequest (routePath route) (routeBody route reqBody)
                             apiKey (routeMethod route);
        DecrementRequestCount (key apiKey)]
       ++ trace after ++ handedToNext (result after))
  /\ final (serve route reqBody s)
     = (if rateLimited fr
        then markAsCoolingDown (key apiKey) (KEY_COOL_DOWN_DURATION_MS config) released
        else released)
  /\ releases (key apiKey) (trace after ++ handedToNext (result after)) = 0%nat
  /\ Forall (fun ev => isCoolDown ev || isDelivery ev = false)
            [SelectApiKey;
             ForwardOpenAIRequest (routePath route) (routeBody route reqBody)
                                  apiKey (routeMethod route);
             DecrementRequestCount (key apiKey)].
Proof.
  intros Hsel Hfwd released after.
  assert (Hrun : serve route reqBody s
            = (Normal tt, final after,
               [SelectApiKey;
                ForwardOpenAIRequest (routePath route) (routeBody route reqBody)
                                     apiKey (routeMethod route);
                DecrementRequestCount (key apiKey)]
               ++ trace after ++ handedToNext (result after))).
  { unfold OpenAIRoute.serve, handle, does.
    unfold try_catch, bind, emit, settle, update.
    rewrite Hsel. cbv beta iota zeta. rewrite Hfwd. cbv beta iota zeta.
    fold released. fold after.
    destruct after as [[r s1] t1]. unfold final, trace, result; cbn [fst snd].
    destruct r as [[]|e]; cbn [handedToNext app]; rewrite ?app_nil_r; reflexivity. }
  split; [exact Hrun|]. split; [|split].
  - rewrite Hrun. unfold final at 1; cbn [fst snd].
    exact (proj1 (evaluate_key_manager route apiKey fr released)).
  - rewrite releases_app. unfold after. rewrite releases_evaluate.
    destruct (result _); reflexivity.
  - repeat constructor.
Qed.

End RouterProperties.

Section RelayProperties.
Import Forwarder TextDecoder OpenAIRoute.

Variable Store : Type.
Variable env : Env.

Lemma writes_app t1 t2 : writes (t1 ++ t2) = writes t1 ++ writes t2.
Proof.
  induction t1 as [|ev t1 IH]; simpl; [reflexivity|].
  destruct ev; simpl; rewrite ?IH; reflexivity.
Qed.

Lemma writes_relayed decoder pending fin :
  writes (relayed decoder pending fin) = decoded decoder pending.
Proof.
  revert decoder. induction pending as [|value rest IH]; intros decoder; simpl.
  - reflexivity.
  - now rewrite IH.
Qed.

Lemma decoded_length decoder pending :
  List.length (decoded decoder pending) = List.length pending.
Proof.
  revert decoder. induction pending as [|value rest IH]; intros decoder; simpl;
    [reflexivity|]. now rewrite IH.
Qed.

(** The read loop against a sink that accepts every write. *)
Lemma pump_accepted decoder written pending fin (s : Store) :
  (forall n, resWrite env n = Normal tt) ->
  pump env decoder written pending fin s
    = (match fin with EndOfStream => Normal tt | StreamFailure e => Throw e end,
       s,
       removelast (relayed decoder pending fin)).
Proof.
  intros Hw. revert decoder written.
  induction pending as [|value rest IH]; intros decoder written; simpl.
  - destruct fin; reflexivity.
  - destruct (decode decoder value) as [decoder' chunk] eqn:Hd. simpl.
    unfold does, bind, emit, settle. rewrite Hw. cbv beta iota.
    rewrite IH. simpl.
    destruct (relayed decoder' rest fin) eqn:Hr.
    + destruct rest; discriminate.
    + reflexivity.
Qed.

Lemma relayed_last decoder pending fin :
  relayed decoder pending fin = removelast (relayed decoder pending fin) ++ [ResEnd].
Proof.
  revert decoder. induction pending as [|value rest IH]; intros decoder.
  - reflexivity.
  - cbn [relayed]. set (d := fst _). specialize (IH d).
    destruct (relayed d rest fin) eqn:Hr; [destruct rest; discriminate|].
    rewrite <- Hr in *. 
    change (ReaderRead (ReadValue value) :: ResWrite (snd (decode decoder value)) :: relayed d rest fin)
      with ([ReaderRead (ReadValue value); ResWrite (snd (decode decoder value))] ++ relayed d rest fin).
    rewrite removelast_app by (rewrite Hr; discriminate).
    rewrite <- app_assoc, <- IH. reflexivity.
Qed.

Lemma setHeaders_accepted hs (s : Store) :
  resSetHeader env = Normal tt ->
  setHeaders env hs s
    = (Normal tt, s, map (fun h => ResSetHeader (fst h) (snd h)) hs).
Proof.
  intros Hh. induction hs as [|[name value] rest IH]; simpl; [reflexivity|].
  unfold does, bind, emit, settle. rewrite Hh. cbv beta iota. rewrite IH.
  reflexivity.
Qed.

Lemma handleStreamingResponse_accepted body apiKey (s : Store) :
  sinkAccepts env ->
  handleStreamingResponse env body apiKey s
    = (Normal tt, s,
       map (fun h => ResSetHeader (fst h) (snd h)) streamHeaders
       ++ GetReader :: relayed fresh (chunks body) (ending body)).
Proof.
  intros (Hh & Hg & Hw & He).
  unfold handleStreamingResponse.
  unfold bind at 1. rewrite (setHeaders_accepted _ _ Hh).
  unfold does. unfold bind, try_finally, try_catch, emit, settle, ret.
  rewrite Hg, He. cbv beta iota zeta.
  rewrite (pump_accepted _ _ _ _ _ Hw).
  pose proof (relayed_last fresh (chunks body) (ending body)) as Hl.
  set (pre := removelast _) in *. rewrite Hl.
  destruct (ending body); simpl; rewrite ?app_nil_r; reflexivity.
Qed.


Lemma decoded_encoded_seen texts :
  Forall (Forall isScalar) texts ->
  decoded (idle true) (map encode texts) = texts.
Proof.
  induction 1 as [|t rest Ht _ IH]; [reflexivity|].
  cbn [map decoded]. rewrite (decode_encode_seen Ht). cbn [fst snd].
  now rewrite IH.
Qed.

Lemma decoded_encoded texts :
  Forall (Forall isScalar) texts ->
  hd 0 (List.concat texts) <> 0xFEFF ->
  decoded fresh (map encode texts) = texts.
Proof.
  induction 1 as [|t rest Ht Hrest IH]; intros Hbom; [reflexivity|].
  cbn [map decoded]. destruct t as [|c t].
  - cbn. f_equal. apply IH. exact Hbom.
  - change fresh with (idle false).
    rewrite (decode_encode_head Ht) by exact Hbom. cbn [fst snd].
    now rewrite (decoded_encoded_seen Hrest).
Qed.

(** A stream that is UTF-8 text as a whole is decoded to that text,
    wherever the chunk boundaries fall. *)
Lemma decoded_stream pending t :
  Forall isScalar t ->
  hd 0 t <> 0xFEFF ->
  List.concat pending = encode t ->
  List.concat (decoded fresh pending) = t.
Proof.
  intros Ht Hbom Hc. rewrite decoded_concat, Hc. cbn [fresh idle bomSeen].
  change (idle false) with fresh. unfold fresh.
  rewrite (run_encode false Ht). cbn [snd].
  destruct t as [|c t]; [reflexivity|]. cbn [dropBOM hd] in *.
  now replace (Z.eqb c 65279) with false by (symmetry; now apply Z.eqb_neq).
Qed.

Lemma writes_handleStreamingResponse body apiKey (s : Store) :
  sinkAccepts env ->
  writes (trace (handleStreamingResponse env body apiKey s))
    = decoded fresh (chunks body).
Proof.
  intros Hs. rewrite (handleStreamingResponse_accepted body apiKey s Hs).
  unfold trace; cbn [snd]. rewrite writes_app. simpl. apply writes_relayed.
Qed.

(** C5, amended: against a sink that accepts its calls, the relay reads
    the chunks one at a time and, before it reads the next, writes the
    text decoded from the chunk just read: one write per chunk, in
    upstream order.  After the last chunk it reads the end of the
    stream, or the failure, and closes the sink; nothing else is
    written.  When the stream as a whole is UTF-8 text (not opening with
    a byte-order mark), the bytes written are the bytes read, none
    dropped, duplicated or reordered, wherever the chunk boundaries
    fall. *)
Theorem relay_preserves_order body apiKey (s : Store) :
  sinkAccepts env ->
  trace (handleStreamingResponse env body apiKey s)
    = map (fun h => ResSetHeader (fst h) (snd h)) streamHeaders
      ++ GetReader :: relayed fresh (chunks body) (ending body)
  /\ result (handleStreamingResponse env body apiKey s) = Normal tt
  /\ writes (trace (handleStreamingResponse env body apiKey s))
     = decoded fresh (chunks body)
  /\ List.length (writes (trace (handleStreamingResponse env body apiKey s)))
     = List.length (chunks body)
  /\ (forall t,
        Forall isScalar t -> hd 0 t <> 0xFEFF ->
        List.concat (chunks body) = encode t ->
        List.concat
          (map encode (writes (trace (handleStreamingResponse env body apiKey s))))
          = List.concat (chunks body)).
Proof.
  intros Hs. rewrite (writes_handleStreamingResponse body apiKey s Hs).
  rewrite (handleStreamingResponse_accepted body apiKey s Hs).
  unfold trace, result; cbn [fst snd].
  repeat split.
  - apply decoded_length.
  - intros t Ht Hbom Hc.
    rewrite <- encode_concat, (decoded_stream _ Ht Hbom Hc). now symmetry.
Qed.

(** C4, amended: against a response that accepts its calls, the relay
    writes for each chunk read, in order, the text a streaming UTF-8
    decoder yields for it, one write per chunk.  When every chunk is the
    complete UTF-8 encoding of a text and the stream does not open with a
    byte-order mark, each write is the text of the chunk read, so that
    the bytes written are those read, chunk by chunk.  What is written
    is always a text of scalar values, so that a chunk which is not by
    itself the complete UTF-8 encoding of a text is never written byte
    for byte. *)
Theorem relay_text_verbatim body apiKey (s : Store) :
  sinkAccepts env ->
  writes (trace (handleStreamingResponse env body apiKey s))
    = decoded fresh (chunks body)
  /\ List.length (writes (trace (handleStreamingResponse env body apiKey s)))
     = List.length (chunks body)
  /\ (forall texts : list Text,
        Forall (Forall isScalar) texts ->
        hd 0 (List.concat texts) <> 0xFEFF ->
        chunks body = map encode texts ->
        writes (trace (handleStreamingResponse env body apiKey s)) = texts
        /\ map encode (writes (trace (handleStreamingResponse env body apiKey s)))
           = chunks body)
  /\ Forall (Forall isScalar)
            (writes (trace (handleStreamingResponse env body apiKey s)))
  /\ (forall k chunk,
        nth_error (chunks body) k = Some chunk ->
        nth_error
          (map encode (writes (trace (handleStreamingResponse env body apiKey s)))) k
          = Some chunk ->
        isText chunk).
Proof.
  intros Hs.
  rewrite (writes_handleStreamingResponse body apiKey s Hs).
  assert (Hscalar : Forall (Forall isScalar) (decoded fresh (chunks body))).
  { apply decoded_scalar. now left. }
  split; [reflexivity|]. split; [apply decoded_length|]. split; [|split].
  - intros texts Ht Hbom Hc. rewrite Hc.
    rewrite (decoded_encoded Ht Hbom). split; reflexivity.
  - exact Hscalar.
  - intros k chunk _ Hk. rewrite nth_error_map in Hk.
    destruct (nth_error (decoded fresh (chunks body)) k) as [t|] eqn:Ht;
      [|discriminate].
    injection Hk as <-. exists t. split; [|reflexivity].
    rewrite Forall_forall in Hscalar. apply Hscalar.
    eapply nth_error_In. exact Ht.
Qed.

End RelayProperties.

Section ServerProperties.
Import Server.

Lemma trimStart_head s :
  match trimStart s with
  | [] => True
  | c :: _ => isWhiteSpace c = false
  end.
Proof.
  induction s as [|c rest IH]; simpl; [exact I|].
  destruct (isWhiteSpace c) eqn:Hc; [exact IH|exact Hc].
Qed.

(** [trimEnd] keeps the front of the string. *)
Lemma trimEnd_head c rest :
  trimEnd (c :: rest) = [] \/ exists kept, trimEnd (c :: rest) = c :: kept.
Proof.
  simpl. destruct (trimEnd rest) as [|k kept].
  - destruct (isWhiteSpace c); eauto.
  - eauto.
Qed.

Lemma trimEnd_last s :
  match trimEnd s with
  | [] => True
  | kept => isWhiteSpace (last kept 0) = false
  end.
Proof.
  induction s as [|c rest IH]; simpl; [exact I|].
  destruct (trimEnd rest) as [|k kept].
  - destruct (isWhiteSpace c) eqn:Hc; [exact I|exact Hc].
  - exact IH.
Qed.

Lemma trim_no_outer_white_space s : hasOuterWhiteSpace (trim s) = false.
Proof.
  unfold trim, hasOuterWhiteSpace.
  pose proof (trimStart_head s) as Hh.
  destruct (trimStart s) as [|c rest]; [reflexivity|].
  pose proof (trimEnd_last (c :: rest)) as Hl.
  destruct (trimEnd_head c rest) as [->|[kept Hk]]; [reflexivity|].
  rewrite Hk in *. now rewrite Hh, Hl.
Qed.

Lemma split_nonempty sep s : split sep s <> [].
Proof.
  destruct s as [|c rest]; simpl; [discriminate|].
  destruct (Z.eqb c sep); [discriminate|].
  destruct (split sep rest); discriminate.
Qed.

Lemma join_split sep s : join sep (split sep s) = s.
Proof.
  induction s as [|c rest IH]; [reflexivity|].
  cbn [split]. destruct (Z.eqb_spec c sep) as [->|Hne].
  - pose proof (split_nonempty sep rest) as Hn.
    cbn [join]. destruct (split sep rest); [contradiction|].
    now rewrite IH.
  - pose proof (split_nonempty sep rest) as Hn.
    destruct (split sep rest) as [|piece pieces]; [contradiction|].
    cbn [join] in *. destruct pieces; cbn [app]; now rewrite IH.
Qed.

Lemma split_pieces sep s : Forall (fun piece => ~ In sep piece) (split sep s).
Proof.
  induction s as [|c rest IH]; simpl; [repeat constructor; auto|].
  destruct (Z.eqb_spec c sep) as [->|Hne].
  - constructor; auto.
  - destruct (split sep rest) as [|piece pieces]; [repeat constructor; simpl; tauto|].
    inversion IH; subst. constructor; auto. simpl. tauto.
Qed.

(** [" k1, ,k2 ,"] loads the two keys [k1] and [k2]; [" , "] loads
    none and the process exits. *)
Example loadApiKeys_two_keys :
  loadApiKeys (Some [32; 107; 49; 44; 32; 44; 107; 50; 32; 44])
    = Loaded [[107; 49]; [107; 50]]
  /\ loadApiKeys (Some [32; 44; 32]) = Exit 1.
Proof. split; reflexivity. Qed.

End ServerProperties.

Section KeyManagerProperties.
Import KeyManager.

(** Releasing a credential leaves every cooldown deadline as it was, and
    never takes an in-flight count below zero. *)
Lemma release_keeps_cooldowns k s : cooldowns (release k s) = cooldowns s.
Proof.
  unfold cooldowns, release, onCredential. rewrite map_map.
  apply map_ext. intros c. now destruct (String.eqb (id c) k).
Qed.

Lemma release_floor k s :
  Forall (fun c => 0 <= inFlightCount c) s ->
  Forall (fun c => 0 <= inFlightCount c) (release k s).
Proof.
  unfold release, onCredential. intros H. apply Forall_map.
  eapply Forall_impl; [|exact H]. intros c Hc. cbv beta in Hc |- *.
  destruct (String.eqb (id c) k); simpl; lia.
Qed.

End KeyManagerProperties.

Section Scenarios.
Import Forwarder TextDecoder OpenAIRoute Traces Requests Scenario.

(** In the scenarios [JSON.stringify] serialises every value, unless
    another platform is named. *)
#[local] Existing Instance serialising.

(** The condition on [fetch] cannot be dropped: were [fetch] replaced
    by a function that rejects with an error carrying status code 429,
    the failure would carry 429 and not be flagged as a rate limit. *)
Example forwardOpenAIRequest_thrown_429_not_rate_limit :
  ~ rejectsWithout429 fetchThrowing429
  /\ exists err,
       settled (forwardOpenAIRequest fetchThrowing429
                  "/v1/chat/completions" chatBody key1 "POST")
         = Normal (Build_ForwardResult JUndefined None (Some err))
       /\ statusCode err = JNum 429
       /\ isRateLimitError err = false.
Proof.
  split.
  - intros H. specialize (H "" (requestOptions JNull key1 "GET")). discriminate H.
  - eexists. split; [reflexivity|]. split; reflexivity.
Qed.


(** C8 fails as stated: the SDK refuses an empty model name when the
    handle is asked for, before the method name is looked at; the
    exception leaves [forwardRequest] and no error outcome is
    returned. *)
Lemma forwardRequest_unsupported_method_throws :
  settled (forwardRequest strictSdk "" "embedContent" (JObj []) key1)
    = Throw (JObj [("message", JStr "Must provide a model name.")])
  /\ isNormal (settled (forwardRequest strictSdk "" "embedContent" (JObj []) key1))
     = false.
Proof. split; reflexivity. Qed.

Lemma forwardRequest_unsupported_method_witness :
  upstreamCalls (forwardRequest quietSdk "gemini-pro" "embedContent" (JObj []) key1) = []
  /\ settled (forwardRequest quietSdk "gemini-pro" "embedContent" (JObj []) key1)
     = Normal (Build_ForwardResult JUndefined None
                 (Some {| message := "Unsupported API method: embedContent";
                          statusCode := JNum 400;
                          apiKey := "key-1";
                          isRateLimitError := false |})).
Proof.
  apply (@forwardRequest_unsupported_method serialising quietSdk "gemini-pro"
           "embedContent" (JObj []) key1); discriminate.
Defined.



(** C4 fails as stated: a two-byte character split over two chunks is
    written as an empty chunk followed by the whole character, and a byte
    that is not UTF-8 is written as the three bytes of U+FFFD. *)
Lemma relay_rewrites_chunks :
  map encode (writes (trace (relay [[0xC3]; [0xA9]] EndOfStream)))
    = [[]; [0xC3; 0xA9]]
  /\ map encode (writes (trace (relay [[0xFF]] EndOfStream)))
     = [[0xEF; 0xBF; 0xBD]]
  /\ map encode (writes (trace (relay [[0xC3]; [0xA9]] EndOfStream)))
     <> [[0xC3]; [0xA9]]
  /\ map encode (writes (trace (relay [[0xFF]] EndOfStream))) <> [[0xFF]].
Proof. repeat split; try reflexivity; discriminate. Qed.

Lemma sinkAccepts_envOf selected forwarded : sinkAccepts (envOf selected forwarded).
Proof. repeat split. Qed.

Lemma relay_text_verbatim_witness :
  writes (trace (relay [[0x68; 0xC3; 0xA9]; [0xE2; 0x82; 0xAC]] EndOfStream))
    = [[0x68; 0xE9]; [0x20AC]]
  /\ map encode
       (writes (trace (relay [[0x68; 0xC3; 0xA9]; [0xE2; 0x82; 0xAC]] EndOfStream)))
     = [[0x68; 0xC3; 0xA9]; [0xE2; 0x82; 0xAC]].
Proof.
  destruct (@relay_text_verbatim KeyManager.Store (envOf (Normal None) (Throw JNull))
              (streamOf [[0x68; 0xC3; 0xA9]; [0xE2; 0x82; 0xAC]] EndOfStream)
              key1 store1 (sinkAccepts_envOf _ _)) as (_ & _ & Hv & _).
  apply (Hv [[0x68; 0xE9]; [0x20AC]]).
  - repeat constructor; unfold isScalar; lia.
  - simpl. lia.
  - reflexivity.
Defined.

(** C2 fails as stated: when the forward call throws, the handler hands
    the exception to [next] and the selected credential is not released;
    its in-flight count stays as it was.  So it is with the repository's
    own forwarder when its [catch] block throws. *)
Lemma release_skipped_when_forward_throws :
  let served := run (envOf (Normal (Some key1)) (Throw (JObj [])))
                    ChatCompletions chatBody in
  let served' := run (envOver (Normal (Some key1)) fetchThrowingUndefined)
                     Embeddings chatBody in
  trace served
    = [SelectApiKey;
       ForwardOpenAIRequest "/v1/chat/completions" chatBody key1 "POST";
       Next (JObj [])]
  /\ releases (key key1) (trace served) = 0%nat
  /\ releases (key key1) (trace served) <> 1%nat
  /\ final served = store1
  /\ releases (key key1) (trace served') = 0%nat
  /\ final served' = store1.
Proof. repeat split; discriminate. Qed.

Lemma release_once_when_forward_returns_witness :
  releases (key key1)
    (trace (run (envOf (Normal (Some key1)) (Normal (streamed [[97]; [98]])))
                ChatCompletions chatBody)) = 1%nat.
Proof.
  apply (@release_once_when_forward_returns KeyManager.Store
           KeyManager.release (KeyManager.coolDown 1000) config
           (envOf (Normal (Some key1)) (Normal (streamed [[97]; [98]])))
           ChatCompletions chatBody store1 key1 (streamed [[97]; [98]]));
    reflexivity.
Defined.

Lemma coolDown_iff_rate_limited_witness :
  filter isCoolDown
    (trace (run (envOf (Normal (Some key1)) (Normal rateLimitFailure))
                Embeddings chatBody))
    = [MarkAsCoolingDown "key-1" 60000]
  /\ final (run (envOf (Normal (Some key1)) (Normal rateLimitFailure))
                Embeddings chatBody)
     = KeyManager.coolDown 1000 "key-1" 60000 (KeyManager.release "key-1" store1).
Proof.
  apply (@coolDown_iff_rate_limited KeyManager.Store
           KeyManager.release (KeyManager.coolDown 1000) config
           (envOf (Normal (Some key1)) (Normal rateLimitFailure))
           Embeddings chatBody store1 key1 rateLimitFailure);
    reflexivity.
Defined.

Lemma no_key_responds_503_witness :
  trace (run (envOf (Normal None) (Throw JNull)) Models JNull)
    = [SelectApiKey; ResStatusJson (JNum 503) noAvailableKeys]
  /\ filter isForward (trace (run (envOf (Normal None) (Throw JNull)) Models JNull)) = []
  /\ filter isKeyManagerCall
       (trace (run (envOf (Normal None) (Throw JNull)) Models JNull)) = []
  /\ final (run (envOf (Normal None) (Throw JNull)) Models JNull) = store1.
Proof.
  apply (@no_key_responds_503 KeyManager.Store
           KeyManager.release (KeyManager.coolDown 1000) config
           (envOf (Normal None) (Throw JNull)) Models JNull store1).
  reflexivity.
Defined.

Lemma release_precedes_evaluation_witness :
  run (envOf (Normal (Some key1)) (Normal rateLimitFailure)) ImagesGenerations chatBody
    = (Normal tt,
       [{| KeyManager.id := "key-1"; KeyManager.inFlightCount := 0;
           KeyManager.cooldownUntil := Some 61000 |}],
       [SelectApiKey;
        ForwardOpenAIRequest "/v1/images/generations" chatBody key1 "POST";
        DecrementRequestCount "key-1";
        MarkAsCoolingDown "key-1" 60000;
        ResStatusJson (JNum 429) (forwardError
          {| message := "OpenAI Compatible API Error: 429 Too Many Requests - ";
             statusCode := JNum 429; apiKey := "key-1";
             isRateLimitError := true |})])
  /\ final (run (envOf (Normal (Some key1)) (Normal rateLimitFailure))
                ImagesGenerations chatBody)
     = KeyManager.coolDown 1000 "key-1" 60000 (KeyManager.release "key-1" store1).
Proof.
  destruct (@release_precedes_evaluation KeyManager.Store
              KeyManager.release (KeyManager.coolDown 1000) config
              (envOf (Normal (Some key1)) (Normal rateLimitFailure))
              ImagesGenerations chatBody store1 key1 rateLimitFailure
              eq_refl eq_refl) as (Hrun & Hfinal & _ & _).
  split; [exact Hrun|exact Hfinal].
Defined.

(** C5 fails as stated: a byte-order mark at the head of the stream is
    read and not written, and so are the bytes of a character left
    unfinished when the stream ends. *)
Lemma relay_drops_bytes :
  writes (trace (relay [[0xEF; 0xBB; 0xBF; 0x61]; [0x62]] EndOfStream))
    = [[0x61]; [0x62]]
  /\ List.concat
       (map encode
          (writes (trace (relay [[0xEF; 0xBB; 0xBF; 0x61]; [0x62]] EndOfStream))))
     <> List.concat [[0xEF; 0xBB; 0xBF; 0x61]; [0x62]]
  /\ writes (trace (relay [[0x61]; [0xC3]] EndOfStream)) = [[0x61]; []]
  /\ List.concat (map encode (writes (trace (relay [[0x61]; [0xC3]] EndOfStream))))
     <> List.concat [[0x61]; [0xC3]].
Proof. repeat split; discriminate. Qed.

Lemma relay_preserves_order_witness :
  trace (relay [[0x61; 0xE2]; [0x82; 0xAC]] (StreamFailure (JStr "reset")))
    = map (fun h => ResSetHeader (fst h) (snd h)) (streamHeaders)
      ++ [GetReader;
          ReaderRead (ReadValue [0x61; 0xE2]); ResWrite [0x61];
          ReaderRead (ReadValue [0x82; 0xAC]); ResWrite [0x20AC];
          ReaderRead (ReadRejected (JStr "reset")); ResEnd]
  /\ List.concat
       (map encode
          (writes (trace (relay [[0x61; 0xE2]; [0x82; 0xAC]]
                            (StreamFailure (JStr "reset"))))))
     = [0x61; 0xE2; 0x82; 0xAC].
Proof.
  destruct (@relay_preserves_order KeyManager.Store (envOf (Normal None) (Throw JNull))
              (streamOf [[0x61; 0xE2]; [0x82; 0xAC]] (StreamFailure (JStr "reset")))
              key1 store1 (sinkAccepts_envOf _ _)) as (Ht & _ & _ & _ & Hb).
  split.
  - exact Ht.
  - apply (Hb [0x61; 0x20AC]).
    + repeat constructor; unfold isScalar; lia.
    + simpl. lia.
    + reflexivity.
Defined.

End Scenarios.

(* ===================================================================== *)
(** * Further properties of the forwarder *)
(* ===================================================================== *)

Section ForwarderCalls.
Import Forwarder Requests.

Context {J : JSON}.

Ltac run_calls :=
  unfold settled, upstreamCalls, result, trace, bind, try_catch, call, settle, emit, ret.



(** X1: [forwardRequest] never makes more than one upstream call: the
    call named by the method once the model handle is obtained, none for
    another method name, and no second call when the first one rejects. *)
Theorem forwardRequest_one_call sdk modelId methodName requestBody apiKey0 :
  upstreamCalls (forwardRequest sdk modelId methodName requestBody apiKey0)
    = match sdk (key apiKey0) modelId with
      | Normal _ => sdkCall modelId methodName requestBody apiKey0
      | Throw _ => []
      end
  /\ (List.length
        (upstreamCalls (forwardRequest sdk modelId methodName requestBody apiKey0))
      <= 1)%nat.
Proof.
  unfold upstreamCalls. rewrite forwardRequest_run. unfold sdkCall.
  destruct (sdk (key apiKey0) modelId) as [m|e0]; [|split; [reflexivity|cbn; lia]].
  destruct (String.eqb methodName "generateContent").
  { destruct (generateContent m requestBody); split; try reflexivity; cbn; lia. }
  destruct (String.eqb methodName "streamGenerateContent").
  { destruct (generateContentStream m requestBody); split; try reflexivity; cbn; lia. }
  destruct (String.eqb methodName "countTokens").
  { destruct (countTokens m requestBody); split; try reflexivity; cbn; lia. }
  split; [reflexivity|cbn; lia].
Qed.

(** X2: once the model handle is obtained, and with an upstream whose
    rejections are objects that [JSON.stringify] serialises,
    [forwardRequest] returns an outcome, which is an error outcome
    exactly when the method name is not one it serves or the upstream
    call rejected. *)
Theorem forwardRequest_error_iff sdk modelId methodName requestBody apiKey0 m :
  sdk (key apiKey0) modelId = Normal m ->
  modelThrowsObjects m ->
  exists r,
    settled (forwardRequest sdk modelId methodName requestBody apiKey0) = Normal r
    /\ (match error r with Some _ => true | None => false end
        = negb (supported methodName) || negb (sdkResolves m methodName requestBody)).
Proof.
  intros Hm Hobj. destruct (Hobj requestBody) as (Hg & Hs & Hc).
  unfold settled. rewrite forwardRequest_run, Hm. unfold supported, sdkResolves.
  assert (Hcatch : forall e, plainError e ->
            exists r, settled (forwardRequestCatch apiKey0 e) = Normal r
                      /\ match error r with Some _ => true | None => false end = true).
  { intros e He. destruct (forwardRequestCatch_returns apiKey0 He) as [err Hr].
    unfold settled. rewrite Hr. eexists. split; reflexivity. }
  destruct (String.eqb methodName "generateContent").
  { destruct (generateContent m requestBody) as [x|e]; cbn [result fst isNormal negb orb].
    - eexists. split; reflexivity.
    - destruct (Hcatch e Hg) as [r [-> Hr]]. eexists. split; [reflexivity|exact Hr]. }
  destruct (String.eqb methodName "streamGenerateContent").
  { destruct (generateContentStream m requestBody) as [x|e]; cbn [result fst isNormal negb orb].
    - eexists. split; reflexivity.
    - destruct (Hcatch e Hs) as [r [-> Hr]]. eexists. split; [reflexivity|exact Hr]. }
  destruct (String.eqb methodName "countTokens").
  { destruct (countTokens m requestBody) as [x|e]; cbn [result fst isNormal negb orb].
    - eexists. split; reflexivity.
    - destruct (Hcatch e Hc) as [r [-> Hr]]. eexists. split; [reflexivity|exact Hr]. }
  eexists. split; reflexivity.
Qed.

(** X3: an error outcome of either forwarding function names the
    credential that was used and carries neither response nor stream. *)
Theorem forwarder_error_shape :
  (forall sdk modelId methodName requestBody apiKey0 r err,
     settled (forwardRequest sdk modelId methodName requestBody apiKey0) = Normal r ->
     error r = Some err ->
     apiKey err = key apiKey0 /\ response r = JUndefined /\ stream r = None)
  /\ (forall fetch path requestBody apiKey0 method r err,
       settled (forwardOpenAIRequest fetch path requestBody apiKey0 method) = Normal r ->
       error r = Some err ->
       apiKey err = key apiKey0 /\ response r = JUndefined /\ stream r = None).
Proof.
  split.
  - intros sdk modelId methodName requestBody apiKey0 r err.
    unfold settled at 1. rewrite forwardRequest_run.
    assert (Hcatch : forall e, settled (forwardRequestCatch apiKey0 e) = Normal r ->
              error r = Some err ->
              apiKey err = key apiKey0 /\ response r = JUndefined /\ stream r = None).
    { intros e Hr He. destruct (forwardRequestCatch_shape _ _ Hr) as (err' & He' & Hk & Hrest).
      rewrite He in He'. injection He' as <-. now split. }
    destruct (sdk (key apiKey0) modelId) as [m|e0]; [|discriminate].
    destruct (String.eqb methodName "generateContent").
    { destruct (generateContent m requestBody) as [x|e]; cbn [result fst].
      - intros [= <-]; discriminate.
      - apply Hcatch. }
    destruct (String.eqb methodName "streamGenerateContent").
    { destruct (generateContentStream m requestBody) as [x|e]; cbn [result fst].
      - intros [= <-]; discriminate.
      - apply Hcatch. }
    destruct (String.eqb methodName "countTokens").
    { destruct (countTokens m requestBody) as [x|e]; cbn [result fst].
      - intros [= <-]; discriminate.
      - apply Hcatch. }
    cbn [result fst]. intros [= <-]. cbn. intros [= <-]. repeat split.
  - intros fetch path requestBody apiKey0 method r err.
    unfold settled at 1. rewrite forwardOpenAIRequest_run.
    assert (Hcatch : forall e, settled (forwardOpenAIRequestCatch apiKey0 e) = Normal r ->
              error r = Some err ->
              apiKey err = key apiKey0 /\ response r = JUndefined /\ stream r = None).
    { intros e Hr He.
      destruct (forwardOpenAIRequestCatch_shape _ _ Hr) as (err' & He' & Hk & Hr1 & Hr2 & _).
      rewrite He in He'. injection He' as <-. now repeat split. }
    destruct (fetch _ _) as [resp|e]; [|apply Hcatch].
    destruct (ok resp).
    + destruct (wantsStream requestBody); cbn [result fst].
      * intros [= <-]; discriminate.
      * destruct (json resp); cbn [result fst]; [intros [= <-]; discriminate|apply Hcatch].
    + destruct (text resp); cbn [result fst]; [|apply Hcatch].
      intros [= <-]. cbn. intros [= <-]. repeat split.
Qed.


(** X4: the passthrough reports a rate limit exactly when [fetch]
    resolved with status 429 and the error body could be read; a thrown
    error, or a 429 whose body cannot be read, is not a rate limit. *)
Theorem forwardOpenAIRequest_rate_limit_iff fetch path requestBody apiKey0 method r :
  settled (forwardOpenAIRequest fetch path requestBody apiKey0 method) = Normal r ->
  (OpenAIRoute.rateLimited r = true
   <-> exists resp errorBody,
         fetch (requestUrl path) (requestOptions requestBody apiKey0 method) = Normal resp
         /\ status resp = 429
         /\ text resp = Normal errorBody).
Proof.
  unfold settled. rewrite forwardOpenAIRequest_run.
  assert (Hcatch : forall e, settled (forwardOpenAIRequestCatch apiKey0 e) = Normal r ->
            OpenAIRoute.rateLimited r = false).
  { intros e Hr.
    destruct (forwardOpenAIRequestCatch_shape _ _ Hr) as (err & He & _ & _ & _ & Hrl & _).
    unfold OpenAIRoute.rateLimited. now rewrite He. }
  destruct (fetch _ _) as [resp|e] eqn:Hf.
  2: { intros Hr. rewrite (Hcatch e Hr). split; [discriminate|].
       intros (resp & b & [=] & _). }
  destruct (ok resp) eqn:Hok.
  - assert (Hne : status resp <> 429).
    { unfold ok in Hok. apply andb_true_iff in Hok. destruct Hok as [_ H2].
      apply Z.leb_le in H2. lia. }
    assert (Hno : OpenAIRoute.rateLimited r = false ->
              (OpenAIRoute.rateLimited r = true <->
               exists resp0 errorBody, Normal resp = Normal resp0
                 /\ status resp0 = 429 /\ text resp0 = Normal errorBody)).
    { intros ->. split; [discriminate|].
      intros (resp0 & b & [= <-] & Hs & _). contradiction. }
    destruct (wantsStream requestBody); cbn [result fst].
    + intros [= <-]. now apply Hno.
    + destruct (json resp); cbn [result fst].
      * intros [= <-]. now apply Hno.
      * intros Hr. apply Hno. now apply (Hcatch e).
  - destruct (text resp) as [b|e] eqn:Ht; cbn [result fst].
    + intros [= <-]. unfold OpenAIRoute.rateLimited. cbn. split.
      * intros H. apply Z.eqb_eq in H. exists resp, b. now repeat split.
      * intros (resp0 & b0 & [= <-] & Hs & _). now apply Z.eqb_eq.
    + intros Hr. rewrite (Hcatch e Hr). split; [discriminate|].
      intros (resp0 & b0 & [= <-] & _ & Ht'). congruence.
Qed.

Lemma forwardOpenAIRequest_calls_aux fetch path requestBody apiKey0 method :
  upstreamCalls (forwardOpenAIRequest fetch path requestBody apiKey0 method)
    = CallFetch (requestUrl path) (requestOptions requestBody apiKey0 method)
      :: match fetch (requestUrl path) (requestOptions requestBody apiKey0 method) with
         | Throw _ => []
         | Normal resp =>
             if ok resp then
               if wantsStream requestBody then [] else [CallReadJson]
             else [CallReadText]
         end.
Proof.
  unfold upstreamCalls. rewrite forwardOpenAIRequest_run.
  destruct (fetch _ _) as [resp|e]; [|reflexivity].
  destruct (ok resp).
  - destruct (wantsStream requestBody); [reflexivity|].
    destruct (json resp); reflexivity.
  - destruct (text resp); reflexivity.
Qed.

(** X5: [forwardOpenAIRequest] fetches once and never again; it then
    reads the body at most once: as text for a non-2xx response, as JSON
    for a 2xx response unless the request asked for a stream, in which
    case the body is handed on unread. *)
Theorem forwardOpenAIRequest_calls fetch path requestBody apiKey0 method :
  upstreamCalls (forwardOpenAIRequest fetch path requestBody apiKey0 method)
    = CallFetch (requestUrl path) (requestOptions requestBody apiKey0 method)
      :: match fetch (requestUrl path) (requestOptions requestBody apiKey0 method) with
         | Throw _ => []
         | Normal resp =>
             if ok resp then
               if wantsStream requestBody then [] else [CallReadJson]
             else [CallReadText]
         end.
Proof. apply forwardOpenAIRequest_calls_aux. Qed.

Lemma substring_whole s : String.substring 0 (String.length s) s = s.
Proof. induction s as [|c s IH]; cbn; [reflexivity|]. now rewrite IH. Qed.

Lemma cleanPath_v1 p : cleanPath ("/v1/" ++ p) = ("/" ++ p)%string.
Proof.
  unfold cleanPath. cbn.
  assert (Hp : String.prefix "" p = true) by (destruct p; reflexivity).
  rewrite Hp. now rewrite substring_whole.
Qed.

(** X6: a path under [/v1/] is fetched at the base URL with the [/v1]
    prefix removed, any other path at the base URL followed by the path
    as given; the request carries the caller's method, the credential
    as bearer token and the JSON content type, and a body unless the
    method is GET or the request body is falsy. *)
Theorem forwardOpenAIRequest_fetch_call fetch path requestBody apiKey0 method :
  hd_error (upstreamCalls
              (forwardOpenAIRequest fetch ("/v1/" ++ path) requestBody apiKey0 method))
    = Some (CallFetch (baseUrl ++ "/" ++ path)%string
                      (requestOptions requestBody apiKey0 method))
  /\ (String.prefix "/v1/" path = false ->
      hd_error (upstreamCalls
                  (forwardOpenAIRequest fetch path requestBody apiKey0 method))
        = Some (CallFetch (baseUrl ++ path)%string
                          (requestOptions requestBody apiKey0 method)))
  /\ fo_method (requestOptions requestBody apiKey0 method) = method
  /\ fo_headers (requestOptions requestBody apiKey0 method)
     = [("Authorization", ("Bearer " ++ key apiKey0)%string);
        ("Content-Type", "application/json"%string)]
  /\ (fo_body (requestOptions requestBody apiKey0 method) = None
      <-> method = "GET"%string \/ truthy requestBody = false)
  /\ (fo_body (requestOptions requestBody apiKey0 method) <> None ->
      fo_body (requestOptions requestBody apiKey0 method) = Some requestBody).
Proof.
  repeat split.
  - unfold upstreamCalls. rewrite forwardOpenAIRequest_run.
    unfold requestUrl. rewrite cleanPath_v1.
    destruct (fetch _ _) as [resp|e]; [|reflexivity].
    destruct (ok resp); [destruct (wantsStream requestBody); [|destruct (json resp)]
                        |destruct (text resp)]; reflexivity.
  - intros Hp. unfold upstreamCalls. rewrite forwardOpenAIRequest_run.
    unfold requestUrl, cleanPath. rewrite Hp.
    destruct (fetch _ _) as [resp|e]; [|reflexivity].
    destruct (ok resp); [destruct (wantsStream requestBody); [|destruct (json resp)]
                        |destruct (text resp)]; reflexivity.
  - cbn. destruct (String.eqb_spec method "GET") as [->|Hne]; cbn.
    + intros _. now left.
    + destruct (truthy requestBody); [discriminate|]. intros _. now right.
  - cbn. intros [->|Ht].
    + reflexivity.
    + rewrite Ht. now rewrite andb_false_r.
  - cbn. destruct (negb (String.eqb method "GET") && truthy requestBody);
      [reflexivity|contradiction].
Qed.

(** X7: when the upstream call of [forwardRequest] rejects with an
    error object that [JSON.stringify] serialises, the failure's status
    code is the error's
    [response.status] when that is truthy and its [statusCode]
    otherwise, and the failure is a rate limit exactly when the status
    so chosen is the number 429: a truthy [response.status] other than
    429 hides a [statusCode] of 429. *)
Theorem forwardRequest_status_precedence
    sdk modelId methodName requestBody apiKey0 m e :
  sdk (key apiKey0) modelId = Normal m ->
  supported methodName = true ->
  (if String.eqb methodName "generateContent" then
     generateContent m requestBody = Throw e
   else if String.eqb methodName "streamGenerateContent" then
     generateContentStream m requestBody = Throw e
   else countTokens m requestBody = Throw e) ->
  stringify e = Normal tt ->
  nullish e = false ->
  exists resp respStatus thrownStatus err,
    get e "response" = Normal resp
    /\ get_opt resp "status" = Normal respStatus
    /\ get e "statusCode" = Normal thrownStatus
    /\ settled (forwardRequest sdk modelId methodName requestBody apiKey0)
       = Normal (Build_ForwardResult JUndefined None (Some err))
    /\ statusCode err = (if truthy respStatus then respStatus else thrownStatus)
    /\ isRateLimitError err
       = strict_eq_num (if truthy respStatus then respStatus else thrownStatus) 429.
Proof.
  intros Hm Hsup Hthrow Hjson He.
  destruct (get_object e "response" He) as [resp Hr].
  destruct (get_object e "statusCode" He) as [sc Hs].
  destruct (get_object e "message" He) as [msg Hmsg].
  destruct (get_opt_normal resp "status") as [rs Hrs].
  assert (Hcatch : settled (forwardRequestCatch apiKey0 e)
            = Normal (Build_ForwardResult JUndefined None
                (Some {| message := ("Google API Error: " ++ toString msg)%string;
                         statusCode := if truthy rs then rs else sc;
                         apiKey := key apiKey0;
                         isRateLimitError :=
                           strict_eq_num (if truthy rs then rs else sc) 429 |}))).
  { unfold forwardRequestCatch. run_calls. rewrite Hjson. cbv beta iota.
    rewrite Hr. cbv beta iota.
    rewrite Hrs. cbv beta iota.
    destruct (truthy rs); cbv beta iota; rewrite ?Hs; cbv beta iota;
      rewrite Hmsg; reflexivity. }
  exists resp, rs, sc. eexists. repeat split; try eassumption.
  - unfold settled. rewrite forwardRequest_run, Hm.
    unfold supported in Hsup.
    destruct (String.eqb methodName "generateContent").
    { rewrite Hthrow. exact Hcatch. }
    destruct (String.eqb methodName "streamGenerateContent").
    { rewrite Hthrow. exact Hcatch. }
    destruct (String.eqb methodName "countTokens"); [|discriminate].
    rewrite Hthrow. exact Hcatch.
  - reflexivity.
  - reflexivity.
Qed.

End ForwarderCalls.

(* ===================================================================== *)
(** * Further properties of the routes *)
(* ===================================================================== *)

Section HandlerTraces.
Import Forwarder TextDecoder OpenAIRoute Traces Requests.

Variable Store : Type.
Variable decrementRequestCount : string -> Store -> Store.
Variable markAsCoolingDown : string -> Z -> Store -> Store.
Variable config : Config.
Variable env : Env.

Variable P : Event -> bool.

Lemma confined_ret {A} (a : A) : confined P (ret (S := Store) (E := Event) a).
Proof. intros s. reflexivity. Qed.

Lemma confined_throw {A} e : confined P (throw (S := Store) (E := Event) (A := A) e).
Proof. intros s. reflexivity. Qed.

Lemma confined_settle {A} (c : Completion A) :
  confined P (settle (S := Store) (E := Event) c).
Proof. intros s. reflexivity. Qed.

Lemma confined_update f : confined P (update (S := Store) (E := Event) f).
Proof. intros s. reflexivity. Qed.

Lemma confined_emit ev : P ev = true -> confined P (emit (S := Store) ev).
Proof. intros H s. cbn. now rewrite H. Qed.

Lemma confined_bind {A B} (m : Eff Store Event A) (f : A -> Eff Store Event B) :
  confined P m -> (forall a, confined P (f a)) -> confined P (bind m f).
Proof.
  intros Hm Hf s. unfold bind. specialize (Hm s).
  destruct (m s) as [[r s1] t1]. unfold trace in *; cbn [snd] in *.
  destruct r as [a|e]; [|exact Hm].
  specialize (Hf a s1). unfold trace in Hf.
  destruct (f a s1) as [[r2 s2] t2]. cbn [snd] in *.
  now rewrite forallb_app, Hm, Hf.
Qed.

Lemma confined_try_catch {A} (m : Eff Store Event A) h :
  confined P m -> (forall e, confined P (h e)) -> confined P (try_catch m h).
Proof.
  intros Hm Hh s. unfold try_catch. specialize (Hm s).
  destruct (m s) as [[r s1] t1]. unfold trace in *; cbn [snd] in *.
  destruct r as [a|e]; [exact Hm|].
  specialize (Hh e s1). unfold trace in Hh.
  destruct (h e s1) as [[r2 s2] t2]. cbn [snd] in *.
  now rewrite forallb_app, Hm, Hh.
Qed.

Lemma confined_try_finally {A} (m : Eff Store Event A) fin :
  confined P m -> confined P fin -> confined P (try_finally m fin).
Proof.
  intros Hm Hf s. unfold try_finally. specialize (Hm s).
  destruct (m s) as [[r s1] t1]. specialize (Hf s1).
  destruct (fin s1) as [[r2 s2] t2]. unfold trace in *; cbn [snd] in *.
  destruct r2; cbn [snd]; now rewrite forallb_app, Hm, Hf.
Qed.

Lemma confined_does {A} ev (c : Completion A) :
  P ev = true -> confined P (does (Store := Store) ev c).
Proof.
  intros H. apply confined_bind; [now apply confined_emit|].
  intros _. apply confined_settle.
Qed.

Hypothesis relay_events : forall ev, isRelayEvent ev = true -> P ev = true.

Lemma confined_pump decoder written pending fin :
  confined P (pump (Store := Store) env decoder written pending fin).
Proof.
  revert decoder written.
  induction pending as [|value rest IH]; intros decoder written; cbn [pump].
  - destruct fin.
    + apply confined_emit. now apply relay_events.
    + apply confined_bind; [apply confined_emit; now apply relay_events|].
      intros _. apply confined_throw.
  - destruct (decode decoder value) as [decoder' chunk].
    apply confined_bind; [apply confined_emit; now apply relay_events|]. intros _.
    apply confined_bind; [apply confined_does; now apply relay_events|]. intros _.
    apply IH.
Qed.

Lemma confined_setHeaders hs : confined P (setHeaders (Store := Store) env hs).
Proof.
  induction hs as [|[name value] rest IH]; cbn [setHeaders]; [apply confined_ret|].
  apply confined_bind; [apply confined_does; now apply relay_events|].
  intros _. exact IH.
Qed.

Lemma confined_handleStreamingResponse body apiKey0 :
  confined P (handleStreamingResponse (Store := Store) env body apiKey0).
Proof.
  unfold handleStreamingResponse.
  apply confined_bind; [apply confined_setHeaders|]. intros _.
  apply confined_bind; [apply confined_does; now apply relay_events|]. intros _.
  apply confined_try_finally; [|apply confined_does; now apply relay_events].
  apply confined_try_catch; [apply confined_pump|]. intros _. apply confined_ret.
Qed.

Hypothesis evaluation_events : forall ev, isEvaluationEvent ev = true -> P ev = true.

Lemma confined_evaluate route apiKey0 fr :
  confined P (evaluate markAsCoolingDown config env route apiKey0 fr).
Proof.
  unfold evaluate. destruct (error fr) as [err|].
  - apply confined_bind; [|intros _; apply confined_does; now apply evaluation_events].
    destruct (isRateLimitError err); [|apply confined_ret].
    apply confined_bind; [apply confined_emit; now apply evaluation_events|].
    intros _. apply confined_update.
  - destruct (if relaysStream route then stream fr else None).
    + apply confined_handleStreamingResponse.
    + destruct (truthy (response fr)); apply confined_does; now apply evaluation_events.
Qed.

End HandlerTraces.

Section HandlerRuns.
Import Forwarder TextDecoder OpenAIRoute Traces Requests.

Variable Store : Type.
Variable decrementRequestCount : string -> Store -> Store.
Variable markAsCoolingDown : string -> Z -> Store -> Store.
Variable config : Config.
Variable env : Env.

Local Abbreviation evaluate := (evaluate markAsCoolingDown config env).
Local Abbreviation serve := (serve decrementRequestCount markAsCoolingDown config env).

(** The run of a handler, by what the dispatcher and the forwarder
    settle to. *)
Lemma serve_cases route reqBody s :
  serve route reqBody s
    = match selectApiKey env with
      | Throw e => (Normal tt, s, [SelectApiKey; Next e])
      | Normal None =>
          (Normal tt, s,
           SelectApiKey :: ResStatusJson (JNum 503) noAvailableKeys
           :: handedToNext (resJson env))
      | Normal (Some apiKey0) =>
          let sent := ForwardOpenAIRequest (routePath route) (routeBody route reqBody)
                                           apiKey0 (routeMethod route) in
          match forward env (routePath route) (routeBody route reqBody)
                        apiKey0 (routeMethod route) with
          | Throw e => (Normal tt, s, [SelectApiKey; sent; Next e])
          | Normal fr =>
              let after := evaluate route apiKey0 fr
                             (decrementRequestCount (key apiKey0) s) in
              (Normal tt, final after,
               [SelectApiKey; sent; DecrementRequestCount (key apiKey0)]
               ++ trace after ++ handedToNext (result after))
          end
      end.
Proof.
  unfold OpenAIRoute.serve, handle, does.
  unfold try_catch, bind, emit, settle, update.
  destruct (selectApiKey env) as [[apiKey0|]|e]; cbv beta iota zeta.
  - destruct (forward env _ _ _ _) as [fr|e]; cbv beta iota zeta; [|reflexivity].
    destruct (OpenAIRoute.evaluate _ _ _ _ _ _ _) as [[r s1] t1].
    unfold final, trace, result; cbn [fst snd].
    destruct r as [[]|e]; cbn [handedToNext app]; rewrite ?app_nil_r; reflexivity.
  - destruct (resJson env) as [[]|e]; reflexivity.
  - reflexivity.
Qed.


Lemma filter_none (P : Event -> bool) t :
  forallb (fun ev => negb (P ev)) t = true -> filter P t = [].
Proof.
  induction t as [|ev t IH]; cbn; [reflexivity|].
  intros H. apply andb_true_iff in H. destruct H as [Hev Ht].
  apply negb_true_iff in Hev. rewrite Hev. now apply IH.
Qed.

(** Evaluating a forward result neither selects, nor forwards, nor
    calls [next]. *)
Lemma evaluate_confined (P : Event -> bool) route apiKey0 fr s :
  (forall ev, isEvaluationEvent ev = true -> P ev = false) ->
  filter P (trace (evaluate route apiKey0 fr s)) = [].
Proof.
  intros H. apply filter_none.
  apply (@confined_evaluate Store markAsCoolingDown config env
           (fun ev => negb (P ev))).
  - intros ev Hev. apply negb_true_iff, H. destruct ev; try discriminate; reflexivity.
  - intros ev Hev. now apply negb_true_iff, H.
Qed.

(** X8: the calls a handler makes on the key manager are, for every
    request: none when no credential was selected or the forward call
    threw; otherwise one release of the selected credential, followed by
    one cooldown of that same credential when the outcome is a rate
    limit.  No credential is released twice, and none but the selected
    one is touched. *)
Theorem handler_key_manager_calls route reqBody s :
  filter isKeyManagerCall (trace (serve route reqBody s))
    = match selectApiKey env with
      | Normal (Some apiKey0) =>
          match forward env (routePath route) (routeBody route reqBody)
                        apiKey0 (routeMethod route) with
          | Normal fr =>
              DecrementRequestCount (key apiKey0)
              :: (if rateLimited fr
                  then [MarkAsCoolingDown (key apiKey0)
                                          (KEY_COOL_DOWN_DURATION_MS config)]
                  else [])
          | Throw _ => []
          end
      | _ => []
      end.
Proof.
  rewrite serve_cases.
  destruct (selectApiKey env) as [[apiKey0|]|e]; cbv zeta.
  - destruct (forward env _ _ _ _) as [fr|e]; [|reflexivity].
    unfold trace at 1; cbn [snd]. rewrite !filter_app.
    destruct (evaluate_key_manager markAsCoolingDown config env route apiKey0 fr
                (decrementRequestCount (key apiKey0) s)) as [_ ->].
    cbn. destruct (result _); cbn; now rewrite app_nil_r.
  - unfold trace; cbn. destruct (resJson env); reflexivity.
  - reflexivity.
Qed.

(** X9: a handler's own promise always resolves, and every exception
    of its [try] block is handed to [next], as the last thing the
    handler does: the exception of the dispatcher, right after the
    selection; the exception of the forward call, right after that call
    and without a release; the exception of the response object,
    whether met when answering 503 or when the forward result is
    evaluated.  Nothing else is handed to [next]: the evaluation of a
    forward result never calls it. *)
Theorem handler_never_rejects route reqBody s :
  serve route reqBody s
    = match selectApiKey env with
      | Throw e => (Normal tt, s, [SelectApiKey; Next e])
      | Normal None =>
          (Normal tt, s,
           [SelectApiKey; ResStatusJson (JNum 503) noAvailableKeys]
           ++ match resJson env with
              | Normal _ => []
              | Throw e => [Next e]
              end)
      | Normal (Some apiKey0) =>
          let sent := ForwardOpenAIRequest (routePath route) (routeBody route reqBody)
                                           apiKey0 (routeMethod route) in
          match forward env (routePath route) (routeBody route reqBody)
                        apiKey0 (routeMethod route) with
          | Throw e => (Normal tt, s, [SelectApiKey; sent; Next e])
          | Normal fr =>
              let after := evaluate route apiKey0 fr
                             (decrementRequestCount (key apiKey0) s) in
              (Normal tt, final after,
               [SelectApiKey; sent; DecrementRequestCount (key apiKey0)]
               ++ trace after
               ++ match result after with
                  | Normal _ => []
                  | Throw e => [Next e]
                  end)
          end
      end
  /\ result (serve route reqBody s) = Normal tt
  /\ (forall apiKey0 fr s',
        filter isNext (trace (evaluate route apiKey0 fr s')) = [])
  /\ (List.length (filter isNext (trace (serve route reqBody s))) <= 1)%nat.
Proof.
  assert (Hev : forall apiKey0 fr s',
            filter isNext (trace (evaluate route apiKey0 fr s')) = []).
  { intros apiKey0 fr s'. apply evaluate_confined.
    intros ev Hev. destruct ev; try discriminate; reflexivity. }
  rewrite serve_cases. split; [|split; [|split; [exact Hev|]]].
  - destruct (selectApiKey env) as [[apiKey0|]|e]; reflexivity.
  - destruct (selectApiKey env) as [[apiKey0|]|e]; cbv zeta; try reflexivity.
    destruct (forward env _ _ _ _) as [fr|e]; reflexivity.
  - destruct (selectApiKey env) as [[apiKey0|]|e]; cbv zeta.
    + destruct (forward env _ _ _ _) as [fr|e]; [|cbn; lia].
      unfold trace at 1; cbn [snd]. rewrite !filter_app, Hev.
      destruct (result _); cbn; lia.
    + unfold trace; cbn [snd]. destruct (resJson env); cbn; lia.
    + cbn; lia.
Qed.

(** X10: a handler asks the dispatcher for a credential once, before
    anything else, and forwards the request at most once, with the
    selected credential: a failed or rate-limited request is not retried
    with another one. *)
Theorem handler_forwards_once route reqBody s :
  hd_error (trace (serve route reqBody s)) = Some SelectApiKey
  /\ filter isSelect (trace (serve route reqBody s)) = [SelectApiKey]
  /\ filter isForward (trace (serve route reqBody s))
     = match selectApiKey env with
       | Normal (Some apiKey0) =>
           [ForwardOpenAIRequest (routePath route) (routeBody route reqBody)
                                 apiKey0 (routeMethod route)]
       | _ => []
       end.
Proof.
  rewrite serve_cases.
  destruct (selectApiKey env) as [[apiKey0|]|e]; cbv zeta.
  - destruct (forward env _ _ _ _) as [fr|e]; [|repeat split].
    assert (HS : filter isSelect (trace (evaluate route apiKey0 fr
                   (decrementRequestCount (key apiKey0) s))) = [])
      by (apply evaluate_confined; intros ev Hev; destruct ev;
          try discriminate; reflexivity).
    assert (HF : filter isForward (trace (evaluate route apiKey0 fr
                   (decrementRequestCount (key apiKey0) s))) = [])
      by (apply evaluate_confined; intros ev Hev; destruct ev;
          try discriminate; reflexivity).
    unfold trace in *; cbn [snd]. split; [reflexivity|].
    rewrite !filter_app, HS, HF.
    destruct (result _); split; reflexivity.
  - unfold trace; cbn. destruct (resJson env); repeat split.
  - repeat split.
Qed.

Lemma unknown_result_answered_500_aux route reqBody s apiKey0 fr :
  selectApiKey env = Normal (Some apiKey0) ->
  forward env (routePath route) (routeBody route reqBody) apiKey0 (routeMethod route)
    = Normal fr ->
  error fr = None ->
  relaysStream route = false \/ stream fr = None ->
  truthy (response fr) = false ->
  trace (serve route reqBody s)
    = [SelectApiKey;
       ForwardOpenAIRequest (routePath route) (routeBody route reqBody)
                            apiKey0 (routeMethod route);
       DecrementRequestCount (key apiKey0);
       ResStatusJson (JNum 500) unknownError]
      ++ handedToNext (resJson env)
  /\ final (serve route reqBody s) = decrementRequestCount (key apiKey0) s.
Proof.
  intros Hsel Hfwd Herr Hstream Hresp.
  rewrite serve_cases, Hsel. cbv zeta. rewrite Hfwd.
  unfold OpenAIRoute.evaluate. rewrite Herr, Hresp.
  assert (Hs : (if relaysStream route then stream fr else None) = None).
  { destruct Hstream as [->| ->]; [reflexivity|]. now destruct (relaysStream route). }
  rewrite Hs. unfold does, bind, emit, settle, final, trace, result.
  destruct (resJson env) as [[]|e]; split; reflexivity.
Qed.

(** X11: an outcome that is no error, has no stream the route relays and
    no truthy response is answered with status 500 and the
    [unknown_error] envelope, after the release.  This is what a stream
    outcome gets on every route but chat completions, and what a falsy
    JSON value gets on all of them. *)
Theorem unknown_result_answered_500 route reqBody s apiKey0 fr :
  selectApiKey env = Normal (Some apiKey0) ->
  forward env (routePath route) (routeBody route reqBody) apiKey0 (routeMethod route)
    = Normal fr ->
  error fr = None ->
  relaysStream route = false \/ stream fr = None ->
  truthy (response fr) = false ->
  trace (serve route reqBody s)
    = [SelectApiKey;
       ForwardOpenAIRequest (routePath route) (routeBody route reqBody)
                            apiKey0 (routeMethod route);
       DecrementRequestCount (key apiKey0);
       ResStatusJson (JNum 500) unknownError]
      ++ handedToNext (resJson env)
  /\ final (serve route reqBody s) = decrementRequestCount (key apiKey0) s.
Proof. apply unknown_result_answered_500_aux. Qed.

(** The run of a handler on an error outcome. *)
Lemma serve_error_outcome route reqBody s apiKey0 fr err :
  selectApiKey env = Normal (Some apiKey0) ->
  forward env (routePath route) (routeBody route reqBody) apiKey0 (routeMethod route)
    = Normal fr ->
  error fr = Some err ->
  trace (serve route reqBody s)
    = [SelectApiKey;
       ForwardOpenAIRequest (routePath route) (routeBody route reqBody)
                            apiKey0 (routeMethod route);
       DecrementRequestCount (key apiKey0)]
      ++ (if isRateLimitError err
          then [MarkAsCoolingDown (key apiKey0) (KEY_COOL_DOWN_DURATION_MS config)]
          else [])
      ++ [ResStatusJson (js_or (statusCode err) (JNum 500)) (forwardError err)]
      ++ handedToNext (resJson env)
  /\ final (serve route reqBody s)
     = (if isRateLimitError err
        then markAsCoolingDown (key apiKey0) (KEY_COOL_DOWN_DURATION_MS config)
               (decrementRequestCount (key apiKey0) s)
        else decrementRequestCount (key apiKey0) s).
Proof.
  intros Hsel Hfwd Herr.
  rewrite serve_cases, Hsel. cbv zeta. rewrite Hfwd.
  unfold OpenAIRoute.evaluate. rewrite Herr.
  unfold does, bind, emit, settle, update, ret, final, trace, result.
  destruct (isRateLimitError err); destruct (resJson env) as [[]|e];
    split; reflexivity.
Qed.

End HandlerRuns.

Section EndToEnd.
Import Forwarder TextDecoder OpenAIRoute Traces Requests.

Variable Store : Type.
Variable decrementRequestCount : string -> Store -> Store.
Variable markAsCoolingDown : string -> Z -> Store -> Store.
Variable config : Config.
Variable env : Env.
Variable fetch : Fetch.
Context {J : JSON}.

Local Abbreviation serve := (serve decrementRequestCount markAsCoolingDown config env).

(** X12: a request that asks for a stream on the embeddings or the
    image-generation route is forwarded, the 2xx answer's body is left
    unread, and the caller gets status 500 with the [unknown_error]
    envelope: these routes have no branch for a stream outcome. *)
Theorem stream_request_on_plain_route route reqBody s apiKey0 resp :
  route = Embeddings \/ route = ImagesGenerations ->
  usesForwarder env fetch ->
  selectApiKey env = Normal (Some apiKey0) ->
  wantsStream reqBody = true ->
  fetch (requestUrl (routePath route)) (requestOptions reqBody apiKey0 "POST")
    = Normal resp ->
  ok resp = true ->
  trace (serve route reqBody s)
    = [SelectApiKey;
       ForwardOpenAIRequest (routePath route) reqBody apiKey0 "POST";
       DecrementRequestCount (key apiKey0);
       ResStatusJson (JNum 500) unknownError]
      ++ handedToNext (resJson env)
  /\ upstreamCalls (forwardOpenAIRequest fetch (routePath route) reqBody apiKey0 "POST")
     = [CallFetch (requestUrl (routePath route))
                  (requestOptions reqBody apiKey0 "POST")].
Proof.
  intros Hroute Huses Hsel Hstream Hfetch Hok.
  assert (Hrun : forwardOpenAIRequest fetch (routePath route) reqBody apiKey0 "POST" tt
                 = (Normal (Build_ForwardResult JUndefined (body resp) None), tt,
                    [CallFetch (requestUrl (routePath route))
                               (requestOptions reqBody apiKey0 "POST")])).
  { rewrite forwardOpenAIRequest_run. cbv zeta. now rewrite Hfetch, Hok, Hstream. }
  split.
  - assert (Hb : routeBody route reqBody = reqBody /\ routeMethod route = "POST"%string
                 /\ relaysStream route = false)
      by (destruct Hroute as [-> | ->]; repeat split).
    destruct Hb as (Hb & Hm & Hr).
    destruct (@unknown_result_answered_500_aux Store decrementRequestCount
                markAsCoolingDown config env route reqBody s apiKey0
                (Build_ForwardResult JUndefined (body resp) None)) as [Ht _];
      try reflexivity; auto.
    + rewrite Hb, Hm, (Huses (routePath route) reqBody apiKey0 "POST"%string).
      unfold settled. now rewrite Hrun.
    + rewrite Ht, Hb, Hm. reflexivity.
  - unfold upstreamCalls. now rewrite Hrun.
Qed.


(** X13: a non-2xx answer of the upstream whose body can be read as
    text reaches the caller with the upstream's status (500 when that
    status is 0), the upstream's status line and body in the message,
    and the [rate_limit_exceeded] code exactly when the status is 429,
    in which case the credential is cooled down before the answer is
    written. *)
Theorem upstream_error_reaches_client route reqBody s apiKey0 resp errorBody :
  usesForwarder env fetch ->
  selectApiKey env = Normal (Some apiKey0) ->
  fetch (requestUrl (routePath route))
        (requestOptions (routeBody route reqBody) apiKey0 (routeMethod route))
    = Normal resp ->
  ok resp = false ->
  text resp = Normal errorBody ->
  let limited := Z.eqb (status resp) 429 in
  trace (serve route reqBody s)
    = [SelectApiKey;
       ForwardOpenAIRequest (routePath route) (routeBody route reqBody)
                            apiKey0 (routeMethod route);
       DecrementRequestCount (key apiKey0)]
      ++ (if limited
          then [MarkAsCoolingDown (key apiKey0) (KEY_COOL_DOWN_DURATION_MS config)]
          else [])
      ++ [ResStatusJson
            (JNum (if Z.eqb (status resp) 0 then 500 else status resp))
            (errorEnvelope
               (JStr (if limited then "rate_limit_exceeded" else "api_error"))
               (JStr ("OpenAI Compatible API Error: "
                        ++ num_to_string (status resp) ++ " "
                        ++ statusText resp ++ " - " ++ errorBody))
               (JStr (if limited then "rate_limit_error" else "api_error")))]
      ++ handedToNext (resJson env).
Proof.
  intros Huses Hsel Hfetch Hok Htext limited.
  set (err := {| message := ("OpenAI Compatible API Error: "
                               ++ num_to_string (status resp) ++ " "
                               ++ statusText resp ++ " - " ++ errorBody)%string;
                 statusCode := JNum (status resp);
                 apiKey := key apiKey0;
                 isRateLimitError := limited |}).
  destruct (@serve_error_outcome Store decrementRequestCount markAsCoolingDown
              config env route reqBody s apiKey0
              (Build_ForwardResult JUndefined None (Some err)) err Hsel) as [Ht _].
  - rewrite Huses. unfold settled. rewrite forwardOpenAIRequest_run. cbv zeta.
    now rewrite Hfetch, Hok, Htext.
  - reflexivity.
  - rewrite Ht. unfold forwardError, js_or. cbn [statusCode isRateLimitError message err truthy].
    destruct (Z.eqb (status resp) 0) eqn:H0; [|reflexivity].
    apply Z.eqb_eq in H0. now rewrite H0.
Qed.

(** X14: when [fetch] itself fails with an error object that
    [JSON.stringify] serialises, the caller is answered with the error's
    [statusCode], or 500 when it has none, and the [api_error] code; the
    credential is released and not cooled down.  When [JSON.stringify]
    throws on the error object, its exception leaves the forwarder: the
    handler hands it to [next] and the credential is not released. *)
Theorem transport_failure_reaches_client route reqBody s apiKey0 e :
  usesForwarder env fetch ->
  selectApiKey env = Normal (Some apiKey0) ->
  fetch (requestUrl (routePath route))
        (requestOptions (routeBody route reqBody) apiKey0 (routeMethod route))
    = Throw e ->
  nullish e = false ->
  match stringify e with
  | Normal _ =>
      exists msg thrownStatus,
        get e "message" = Normal msg
        /\ get e "statusCode" = Normal thrownStatus
        /\ trace (serve route reqBody s)
           = [SelectApiKey;
              ForwardOpenAIRequest (routePath route) (routeBody route reqBody)
                                   apiKey0 (routeMethod route);
              DecrementRequestCount (key apiKey0);
              ResStatusJson
                (if truthy thrownStatus then thrownStatus else JNum 500)
                (errorEnvelope
                   (JStr "api_error")
                   (JStr ("OpenAI Compatible API Error: " ++ toString msg))
                   (JStr "api_error"))]
             ++ handedToNext (resJson env)
        /\ final (serve route reqBody s) = decrementRequestCount (key apiKey0) s
  | Throw thrown =>
      serve route reqBody s
        = (Normal tt, s,
           [SelectApiKey;
            ForwardOpenAIRequest (routePath route) (routeBody route reqBody)
                                 apiKey0 (routeMethod route);
            Next thrown])
  end.
Proof.
  intros Huses Hsel Hfetch He.
  destruct (stringify e) as [[]|thrown] eqn:Hjson.
  - destruct (get_object e "message" He) as [msg Hm].
    destruct (get_object e "statusCode" He) as [sc Hs].
    exists msg, sc. split; [exact Hm|]. split; [exact Hs|].
    set (err := {| message := ("OpenAI Compatible API Error: " ++ toString msg)%string;
                   statusCode := js_or sc (JNum 500);
                   apiKey := key apiKey0;
                   isRateLimitError := false |}).
    destruct (@serve_error_outcome Store decrementRequestCount markAsCoolingDown
                config env route reqBody s apiKey0
                (Build_ForwardResult JUndefined None (Some err)) err Hsel) as [Ht Hf].
    + rewrite Huses. unfold settled. rewrite forwardOpenAIRequest_run. cbv zeta.
      rewrite Hfetch. unfold settled, forwardOpenAIRequestCatch, bind, settle, ret, result.
      now rewrite Hjson, Hm, Hs.
    + reflexivity.
    + split; [|exact Hf]. rewrite Ht. unfold forwardError.
      cbn [statusCode isRateLimitError message err app].
      unfold js_or at 2. unfold js_or.
      destruct (truthy sc) eqn:Hsc; cbn [truthy]; rewrite ?Hsc; reflexivity.
  - rewrite serve_cases, Hsel. cbv zeta. rewrite Huses.
    unfold settled at 1. rewrite forwardOpenAIRequest_run. cbv zeta.
    rewrite Hfetch. cbn [result fst].
    now rewrite (forwardOpenAIRequestCatch_stringify_throws apiKey0 e Hjson).
Qed.

Lemma cleanPath_route route : cleanPath (routePath route) = upstreamPath route.
Proof.
  destruct route; try reflexivity.
  unfold routePath, upstreamPath.
  change ("/v1/models/" ++ modelId)%string with ("/v1/" ++ ("models/" ++ modelId))%string.
  now rewrite cleanPath_v1.
Qed.

(** X15: every route is served from the base URL followed by its own
    path without the [/v1] prefix, the model id of the retrieve route
    being put in as given.  The two GET routes send no body, whatever
    the inbound request carries; the POST routes send the inbound body
    unless it is falsy. *)
Theorem route_upstream_request route reqBody apiKey0 :
  hd_error (upstreamCalls
              (forwardOpenAIRequest fetch (routePath route) (routeBody route reqBody)
                                    apiKey0 (routeMethod route)))
    = Some (CallFetch (baseUrl ++ upstreamPath route)%string
              {| fo_method := routeMethod route;
                 fo_headers := [("Authorization", ("Bearer " ++ key apiKey0)%string);
                                ("Content-Type", "application/json"%string)];
                 fo_body := match route with
                            | Models | ModelRetrieve _ => None
                            | _ => if truthy reqBody then Some reqBody else None
                            end |}).
Proof.
  rewrite forwardOpenAIRequest_calls_aux. cbn [hd_error].
  unfold requestUrl. rewrite cleanPath_route.
  destruct route; reflexivity.
Qed.

(** X16: a chat completion that asks for a stream and is answered 2xx
    with a body is relayed from that body, provided the caller's
    response accepts every call made on it: the forwarder reads nothing
    of the body, the credential is released before the first header is
    set, and the caller's response receives the headers, one write per
    chunk and the close. *)
Theorem chat_stream_end_to_end reqBody s apiKey0 resp upstream :
  usesForwarder env fetch ->
  selectApiKey env = Normal (Some apiKey0) ->
  wantsStream reqBody = true ->
  fetch (requestUrl "/v1/chat/completions") (requestOptions reqBody apiKey0 "POST")
    = Normal resp ->
  ok resp = true ->
  body resp = Some upstream ->
  sinkAccepts env ->
  serve ChatCompletions reqBody s
    = (Normal tt, decrementRequestCount (key apiKey0) s,
       [SelectApiKey;
        ForwardOpenAIRequest "/v1/chat/completions" reqBody apiKey0 "POST";
        DecrementRequestCount (key apiKey0)]
       ++ map (fun h => ResSetHeader (fst h) (snd h)) streamHeaders
       ++ GetReader :: relayed fresh (chunks upstream) (ending upstream))
  /\ upstreamCalls (forwardOpenAIRequest fetch "/v1/chat/completions"
                      reqBody apiKey0 "POST")
     = [CallFetch (requestUrl "/v1/chat/completions")
                  (requestOptions reqBody apiKey0 "POST")].
Proof.
  intros Huses Hsel Hstream Hfetch Hok Hbody Hsink.
  assert (Hrun : forwardOpenAIRequest fetch "/v1/chat/completions" reqBody apiKey0 "POST" tt
                 = (Normal (Build_ForwardResult JUndefined (Some upstream) None), tt,
                    [CallFetch (requestUrl "/v1/chat/completions")
                               (requestOptions reqBody apiKey0 "POST")])).
  { rewrite forwardOpenAIRequest_run. cbv zeta. now rewrite Hfetch, Hok, Hstream, Hbody. }
  split; [|unfold upstreamCalls; now rewrite Hrun].
  rewrite serve_cases, Hsel. cbv zeta. cbn [routePath routeBody routeMethod].
  rewrite Huses. unfold settled. rewrite Hrun. cbn [result fst].
  unfold evaluate. cbn [error relaysStream stream].
  rewrite (@handleStreamingResponse_accepted Store env upstream apiKey0
             (decrementRequestCount (key apiKey0) s) Hsink).
  unfold final, trace, result. cbn [fst snd handedToNext]. now rewrite app_nil_r.
Qed.

(** X17: a 2xx answer to a request that does not ask for a stream
    reaches the caller as the JSON value the upstream sent, unchanged,
    provided that value is truthy; the body is read once, as JSON. *)
Theorem json_reply_reaches_client route reqBody s apiKey0 resp data :
  usesForwarder env fetch ->
  selectApiKey env = Normal (Some apiKey0) ->
  wantsStream (routeBody route reqBody) = false ->
  fetch (requestUrl (routePath route))
        (requestOptions (routeBody route reqBody) apiKey0 (routeMethod route))
    = Normal resp ->
  ok resp = true ->
  json resp = Normal data ->
  truthy data = true ->
  trace (serve route reqBody s)
    = [SelectApiKey;
       ForwardOpenAIRequest (routePath route) (routeBody route reqBody)
                            apiKey0 (routeMethod route);
       DecrementRequestCount (key apiKey0);
       ResJson data]
      ++ handedToNext (resJson env)
  /\ final (serve route reqBody s) = decrementRequestCount (key apiKey0) s
  /\ upstreamCalls (forwardOpenAIRequest fetch (routePath route)
                      (routeBody route reqBody) apiKey0 (routeMethod route))
     = [CallFetch (requestUrl (routePath route))
                  (requestOptions (routeBody route reqBody) apiKey0 (routeMethod route));
        CallReadJson].
Proof.
  intros Huses Hsel Hstream Hfetch Hok Hjson Hdata.
  assert (Hrun : forwardOpenAIRequest fetch (routePath route) (routeBody route reqBody)
                   apiKey0 (routeMethod route) tt
                 = (Normal (Build_ForwardResult data None None), tt,
                    [CallFetch (requestUrl (routePath route))
                       (requestOptions (routeBody route reqBody) apiKey0
                                       (routeMethod route));
                     CallReadJson])).
  { rewrite forwardOpenAIRequest_run. cbv zeta. now rewrite Hfetch, Hok, Hstream, Hjson. }
  repeat split; [| |unfold upstreamCalls; now rewrite Hrun].
  - rewrite serve_cases, Hsel. cbv zeta.
    rewrite Huses. unfold settled. rewrite Hrun. cbn [result fst].
    unfold evaluate. cbn [error stream response]. rewrite Hdata.
    assert (Hs : (if relaysStream route then @None (Stream Bytes) else None) = None)
      by now destruct (relaysStream route).
    rewrite Hs. unfold does, bind, emit, settle, trace, result.
    destruct (resJson env) as [[]|e]; reflexivity.
  - rewrite serve_cases, Hsel. cbv zeta.
    rewrite Huses. unfold settled. rewrite Hrun. cbn [result fst].
    unfold evaluate. cbn [error stream response]. rewrite Hdata.
    assert (Hs : (if relaysStream route then @None (Stream Bytes) else None) = None)
      by now destruct (relaysStream route).
    rewrite Hs. unfold does, bind, emit, settle, final.
    destruct (resJson env) as [[]|e]; reflexivity.
Qed.

End EndToEnd.

Section RelayFailures.
Import Forwarder TextDecoder OpenAIRoute Traces.

Variable Store : Type.
Variable env : Env.

(** The read loop when the write with index [written + n] throws, the
    earlier ones being accepted. *)
Lemma pump_failed_write n : forall decoder written pending fin (s : Store) e,
  (forall i, (written <= i < written + n)%nat -> resWrite env i = Normal tt) ->
  resWrite env (written + n) = Throw e ->
  (n < List.length pending)%nat ->
  pump env decoder written pending fin s
    = (Throw e, s, exchanged decoder (firstn (S n) pending)).
Proof.
  induction n as [|n IH]; intros decoder written pending fin s e Hok Hfail Hlen.
  - destruct pending as [|value rest]; [cbn in Hlen; lia|].
    cbn [pump firstn exchanged].
    destruct (decode decoder value) as [decoder' chunk]. cbn [fst snd].
    unfold does, bind, emit, settle. rewrite Nat.add_0_r in Hfail. rewrite Hfail.
    reflexivity.
  - destruct pending as [|value rest]; [cbn in Hlen; lia|].
    cbn [pump]. change (firstn (S (S n)) (value :: rest))
      with (value :: firstn (S n) rest). cbn [exchanged].
    destruct (decode decoder value) as [decoder' chunk]. cbn [fst snd].
    unfold does, bind, emit, settle. rewrite (Hok written) by lia.
    cbv beta iota.
    rewrite (IH decoder' (S written) rest fin s e).
    + reflexivity.
    + intros i Hi. apply Hok. lia.
    + now replace (S written + n)%nat with (written + S n)%nat by lia.
    + cbn in Hlen. lia.
Qed.

(** X18: when a write on the caller's response throws, the relay reads
    no further chunk, closes the response and resolves: the trace ends
    with the failed write and [res.end()], and the failure is not
    rethrown. *)
Theorem relay_stops_on_failed_write body apiKey0 (s : Store) n e :
  resSetHeader env = Normal tt ->
  getReader env = Normal tt ->
  resEnd env = Normal tt ->
  (forall i, (i < n)%nat -> resWrite env i = Normal tt) ->
  resWrite env n = Throw e ->
  (n < List.length (chunks body))%nat ->
  handleStreamingResponse env body apiKey0 s
    = (Normal tt, s,
       map (fun h => ResSetHeader (fst h) (snd h)) streamHeaders
       ++ GetReader :: exchanged fresh (firstn (S n) (chunks body)) ++ [ResEnd])
  /\ List.length (filter isRead (trace (handleStreamingResponse env body apiKey0 s)))
     = S n.
Proof.
  intros Hh Hg He Hok Hfail Hlen.
  assert (Hrun : handleStreamingResponse env body apiKey0 s
            = (Normal tt, s,
               map (fun h => ResSetHeader (fst h) (snd h)) streamHeaders
               ++ GetReader :: exchanged fresh (firstn (S n) (chunks body)) ++ [ResEnd])).
  { unfold handleStreamingResponse.
    unfold bind at 1. rewrite (@setHeaders_accepted Store env streamHeaders s Hh).
    unfold does. unfold bind, try_finally, try_catch, emit, settle, ret.
    rewrite Hg, He. cbv beta iota zeta.
    rewrite (@pump_failed_write n fresh 0%nat (chunks body) (ending body) s e);
      [|intros i Hi; apply Hok; lia|exact Hfail|exact Hlen].
    cbn [app]. now rewrite !app_nil_r. }
  split; [exact Hrun|]. rewrite Hrun. unfold trace; cbn [snd].
  rewrite filter_app.
  assert (Hhd : filter isRead (map (fun h => ResSetHeader (fst h) (snd h)) streamHeaders) = [])
    by reflexivity.
  rewrite Hhd. cbn [app filter isRead]. rewrite filter_app. cbn [filter isRead].
  rewrite app_nil_r.
  assert (Hex : forall d cs, List.length (filter isRead (exchanged d cs)) = List.length cs).
  { intros d cs. revert d. induction cs as [|c cs IH]; intros d; cbn; [reflexivity|].
    now rewrite IH. }
  rewrite Hex, length_firstn. lia.
Qed.

Lemma pump_no_end decoder written pending fin (s : Store) :
  filter isEnd (trace (pump env decoder written pending fin s)) = [].
Proof.
  revert decoder written.
  induction pending as [|value rest IH]; intros decoder written; cbn [pump].
  - destruct fin; reflexivity.
  - destruct (decode decoder value) as [decoder' chunk].
    unfold does, bind, emit, settle.
    destruct (resWrite env written); cbv beta iota; [|reflexivity].
    specialize (IH decoder' (S written)).
    destruct (pump env decoder' (S written) rest fin s) as [[r s1] t1].
    unfold trace in *; cbn [snd] in *. exact IH.
Qed.

(** X19: the relay closes the caller's response exactly when it got as
    far as obtaining the reader, whatever happens to the reads and
    writes afterwards; and it rejects only when setting a header,
    obtaining the reader or closing the response throws: a failure of a
    read or of a write is swallowed. *)
Theorem relay_closes_response body apiKey0 (s : Store) :
  filter isEnd (trace (handleStreamingResponse env body apiKey0 s))
    = match resSetHeader env, getReader env with
      | Normal _, Normal _ => [ResEnd]
      | _, _ => []
      end
  /\ result (handleStreamingResponse env body apiKey0 s)
     = match resSetHeader env with
       | Throw e => Throw e
       | Normal _ =>
           match getReader env with
           | Throw e => Throw e
           | Normal _ =>
               match resEnd env with
               | Throw e => Throw e
               | Normal _ => Normal tt
               end
           end
       end.
Proof.
  unfold handleStreamingResponse, does.
  unfold bind, try_finally, try_catch, emit, settle, ret.
  destruct (resSetHeader env) as [[]|e] eqn:Hh.
  2: { unfold streamHeaders. cbn [setHeaders]. unfold does, bind, emit, settle.
       rewrite Hh. split; reflexivity. }
  rewrite (@setHeaders_accepted Store env streamHeaders s Hh).
  destruct (getReader env) as [[]|e]; cbv beta iota zeta.
  2: { split; [|reflexivity]. unfold trace; cbn [snd].
       rewrite filter_app. reflexivity. }
  pose proof (pump_no_end fresh 0 (chunks body) (ending body) s) as Hp.
  destruct (pump env fresh 0 (chunks body) (ending body) s) as [[r s1] t1].
  unfold trace in Hp; cbn [snd] in Hp.
  assert (Hhd : filter isEnd (map (fun h => ResSetHeader (fst h) (snd h)) streamHeaders) = [])
    by reflexivity.
  destruct r as [[]|e]; destruct (resEnd env) as [[]|e'];
    unfold trace, result; cbn [fst snd]; (split; [|reflexivity]);
    rewrite !filter_app, Hhd; cbn [app filter isEnd];
    rewrite ?filter_app, Hp; reflexivity.
Qed.

End RelayFailures.

(* ===================================================================== *)
(** * Further properties of the credential loading *)
(* ===================================================================== *)

Section KeyLoading.
Import Server Keys.

Lemma trimStart_incl s c : In c (trimStart s) -> In c s.
Proof.
  induction s as [|x s IH]; cbn; [tauto|].
  destruct (isWhiteSpace x); [intros H; right; now apply IH|intros H; exact H].
Qed.

Lemma trimEnd_incl s c : In c (trimEnd s) -> In c s.
Proof.
  induction s as [|x s IH]; cbn [trimEnd]; [tauto|].
  destruct (trimEnd s) as [|k kept].
  - destruct (isWhiteSpace x); cbn; tauto.
  - intros [->|H]; [now left|right; now apply IH].
Qed.

Lemma trim_incl s c : In c (trim s) -> In c s.
Proof. intros H. now apply trimStart_incl, trimEnd_incl. Qed.

Lemma trimStart_keeps s c : In c s -> isWhiteSpace c = false -> In c (trimStart s).
Proof.
  intros Hin Hc. induction s as [|x s IH]; cbn; [contradiction|].
  destruct (isWhiteSpace x) eqn:Hx; [|exact Hin].
  destruct Hin as [->|Hin]; [congruence|now apply IH].
Qed.

Lemma trimEnd_keeps s c : In c s -> isWhiteSpace c = false -> In c (trimEnd s).
Proof.
  intros Hin Hc. induction s as [|x s IH]; cbn [trimEnd]; [contradiction|].
  destruct Hin as [->|Hin].
  - destruct (trimEnd s); [rewrite Hc|]; now left.
  - specialize (IH Hin). destruct (trimEnd s); [contradiction|now right].
Qed.

Lemma trim_keeps s c : In c s -> isWhiteSpace c = false -> In c (trim s).
Proof. intros Hin Hc. now apply trimEnd_keeps; [apply trimStart_keeps|]. Qed.

Lemma trimEnd_clean s :
  s <> [] -> isWhiteSpace (last s 0) = false -> trimEnd s = s.
Proof.
  induction s as [|x s IH]; [contradiction|]. intros _ Hl.
  cbn [trimEnd]. destruct s as [|y s].
  - cbn in *. now rewrite Hl.
  - rewrite IH; [reflexivity|discriminate|exact Hl].
Qed.

Lemma trim_clean key : clean key -> trim key = key.
Proof.
  intros (Hne & _ & Hw). unfold trim.
  destruct key as [|c key]; [contradiction|].
  cbn in Hw. apply orb_false_iff in Hw. destruct Hw as [Hc Hl].
  cbn [trimStart]. rewrite Hc. apply trimEnd_clean; [discriminate|exact Hl].
Qed.

Lemma trimStart_padding ws s :
  Forall (fun c => isWhiteSpace c = true) ws -> trimStart (ws ++ s) = trimStart s.
Proof. induction 1 as [|c ws Hc _ IH]; [reflexivity|]. cbn. now rewrite Hc. Qed.

Lemma trimEnd_white r :
  Forall (fun c => isWhiteSpace c = true) r -> trimEnd r = [].
Proof.
  induction 1 as [|c r Hc _ IH]; [reflexivity|]. cbn [trimEnd]. now rewrite IH, Hc.
Qed.

Lemma trimEnd_padding k r :
  Forall (fun c => isWhiteSpace c = true) r -> trimEnd (k ++ r) = trimEnd k.
Proof.
  intros Hr. induction k as [|c k IH]; cbn [app trimEnd].
  - now apply trimEnd_white.
  - now rewrite IH.
Qed.

(** Trimming takes the white space off both ends and nothing else. *)
Lemma trim_padded l k r :
  Forall (fun c => isWhiteSpace c = true) l ->
  Forall (fun c => isWhiteSpace c = true) r ->
  hasOuterWhiteSpace k = false ->
  trim (l ++ k ++ r) = k.
Proof.
  intros Hl Hr Hk. unfold trim. rewrite (trimStart_padding _ Hl).
  destruct k as [|c k].
  - cbn [app]. rewrite <- (app_nil_r r), (trimStart_padding _ Hr). reflexivity.
  - cbn in Hk. apply orb_false_iff in Hk. destruct Hk as [Hc Hlast].
    cbn [app trimStart]. rewrite Hc.
    change (c :: k ++ r) with ((c :: k) ++ r).
    rewrite (trimEnd_padding _ Hr).
    apply trimEnd_clean; [discriminate|exact Hlast].
Qed.

Lemma trimStart_split s :
  exists l, s = l ++ trimStart s /\ Forall (fun c => isWhiteSpace c = true) l.
Proof.
  induction s as [|c s IH]; [exists []; split; [reflexivity|constructor]|].
  cbn [trimStart]. destruct (isWhiteSpace c) eqn:Hc.
  - destruct IH as (l & Hl & Hw). exists (c :: l). split.
    + cbn [app]. now rewrite <- Hl.
    + now constructor.
  - exists []. split; [reflexivity|constructor].
Qed.

Lemma trimEnd_split s :
  exists r, s = trimEnd s ++ r /\ Forall (fun c => isWhiteSpace c = true) r.
Proof.
  induction s as [|c s IH]; [exists []; split; [reflexivity|constructor]|].
  cbn [trimEnd]. destruct IH as (r & Hr & Hw).
  destruct (trimEnd s) as [|k kept].
  - cbn [app] in Hr. subst s. destruct (isWhiteSpace c) eqn:Hc.
    + exists (c :: r). split; [reflexivity|now constructor].
    + exists r. split; [reflexivity|assumption].
  - exists r. split; [|assumption]. cbn [app] in *. now rewrite <- Hr.
Qed.

Lemma trim_split s :
  exists l r, s = l ++ trim s ++ r
              /\ Forall (fun c => isWhiteSpace c = true) l
              /\ Forall (fun c => isWhiteSpace c = true) r.
Proof.
  destruct (trimStart_split s) as (l & Hl & Hwl).
  destruct (trimEnd_split (trimStart s)) as (r & Hr & Hwr).
  exists l, r. unfold trim. rewrite <- Hr. auto.
Qed.

Lemma split_app sep a b :
  split sep (a ++ sep :: b) = split sep a ++ split sep b.
Proof.
  induction a as [|c a IH]; cbn [app split].
  - now rewrite Z.eqb_refl.
  - destruct (Z.eqb c sep); [now rewrite IH|].
    rewrite IH. pose proof (split_nonempty sep a) as Hn.
    destruct (split sep a); [contradiction|reflexivity].
Qed.

Lemma split_piece sep piece : ~ In sep piece -> split sep piece = [piece].
Proof.
  induction piece as [|c piece IH]; cbn [split]; [reflexivity|].
  intros Hn. destruct (Z.eqb_spec c sep) as [->|_]; [exfalso; apply Hn; now left|].
  rewrite IH; [reflexivity|]. intros H. apply Hn. now right.
Qed.

Lemma split_join sep pieces :
  pieces <> [] -> Forall (fun piece => ~ In sep piece) pieces ->
  split sep (join sep pieces) = pieces.
Proof.
  intros Hne H. induction H as [|piece rest Hp Hrest IH]; [contradiction|].
  destruct rest as [|next rest].
  - cbn [join]. now apply split_piece.
  - cbn [join]. change (join sep (next :: rest)) with (join sep (next :: rest)).
    rewrite split_app, split_piece by assumption.
    cbn [app]. f_equal. apply IH. discriminate.
Qed.

Lemma split_covers sep s c :
  In c s -> c <> sep -> exists piece, In piece (split sep s) /\ In c piece.
Proof.
  intros Hin Hc. induction s as [|x s IH]; [contradiction|].
  cbn [split]. destruct (Z.eqb_spec x sep) as [->|Hx].
  - destruct Hin as [->|Hin]; [contradiction|].
    destruct (IH Hin) as (piece & Hp & Hcp). exists piece. split; [now right|exact Hcp].
  - pose proof (split_nonempty sep s) as Hn.
    destruct (split sep s) as [|piece pieces]; [contradiction|].
    destruct Hin as [->|Hin].
    + exists (c :: piece). split; now left.
    + destruct (IH Hin) as (p & [<-|Hp] & Hcp).
      * exists (x :: piece). split; [now left|now right].
      * exists p. split; [now right|exact Hcp].
Qed.

Lemma split_incl sep s piece c :
  In piece (split sep s) -> In c piece -> In c s.
Proof.
  revert piece. induction s as [|x s IH]; intros piece; cbn [split].
  - intros [<-|[]] [].
  - destruct (Z.eqb x sep).
    + intros [<-|Hp] Hc; [contradiction|]. right. now apply (IH piece).
    + pose proof (split_nonempty sep s) as Hn.
      destruct (split sep s) as [|p ps]; [contradiction|].
      intros [<-|Hp] Hc.
      * destruct Hc as [->|Hc]; [now left|]. right. apply (IH p); [now left|exact Hc].
      * right. apply (IH piece); [now right|exact Hc].
Qed.

Lemma written_no_comma e : isEntry e -> ~ In comma (written e).
Proof.
  intros (Hl & Hr & Hk & _) Hin. unfold written in Hin.
  rewrite Forall_forall in Hl, Hr.
  apply in_app_or in Hin. destruct Hin as [Hin|Hin].
  - specialize (Hl _ Hin). discriminate Hl.
  - apply in_app_or in Hin. destruct Hin as [Hin|Hin]; [contradiction|].
    specialize (Hr _ Hin). discriminate Hr.
Qed.

(** Every list of pieces free of commas is a list of entries. *)
Lemma entries_of pieces :
  Forall (fun piece => ~ In comma piece) pieces ->
  exists entries, map written entries = pieces /\ Forall isEntry entries.
Proof.
  induction 1 as [|p ps Hp _ IH]; [exists []; split; [reflexivity|constructor]|].
  destruct IH as (es & <- & Hes).
  destruct (trim_split p) as (l & r & Hsplit & Hl & Hr).
  exists ({| padBefore := l; keyText := trim p; padAfter := r |} :: es). split.
  - cbn [map]. unfold written at 1. cbn [padBefore keyText padAfter].
    now rewrite <- Hsplit.
  - constructor; [|assumption]. repeat split; cbn [padBefore keyText padAfter]; auto.
    + intros Hc. apply Hp. now apply trim_incl.
    + apply trim_no_outer_white_space.
Qed.

Lemma loadApiKeys_run (env : JsString) :
  loadApiKeys (Some env)
    = match parseApiKeys env with
      | [] => Exit 1
      | _ => Loaded (parseApiKeys env)
      end.
Proof.
  destruct env as [|c env]; [reflexivity|].
  unfold loadApiKeys. destruct (parseApiKeys (c :: env)); reflexivity.
Qed.

(** C10: the variable is a sequence of entries separated by commas, each
    a key, possibly missing, with white space around it.  The pool is the
    keys of the entries, in the order written, the missing ones left out:
    the variable is split at the commas, each piece is trimmed of the
    white space around it and of nothing else, and the empty pieces are
    dropped.  Every key of the pool is non-empty, with no white space at
    either end and no comma; and the process exits with code 1, instead
    of going on with an empty pool, when the variable is unset or no key
    is left. *)
Theorem loadApiKeys_pool :
  loadApiKeys None = Exit 1
  /\ (forall entries : list Entry,
        entries <> [] ->
        Forall isEntry entries ->
        let pool := filter nonEmpty (map keyText entries) in
        split comma (join comma (map written entries)) = map written entries
        /\ map trim (map written entries) = map keyText entries
        /\ parseApiKeys (join comma (map written entries)) = pool
        /\ loadApiKeys (Some (join comma (map written entries)))
           = match pool with
             | [] => Exit 1
             | _ => Loaded pool
             end)
  /\ (forall env : JsString,
        exists entries,
          entries <> [] /\ Forall isEntry entries
          /\ env = join comma (map written entries))
  /\ (forall env pool,
        loadApiKeys (Some env) = Loaded pool ->
        pool <> []
        /\ Forall (fun key => key <> []
                              /\ hasOuterWhiteSpace key = false
                              /\ ~ In comma key) pool).
Proof.
  split; [reflexivity|]. split; [|split].
  - intros entries Hne Hentries pool.
    assert (Hsplit : split comma (join comma (map written entries))
                     = map written entries).
    { apply split_join.
      - destruct entries; [contradiction|discriminate].
      - apply Forall_map. eapply Forall_impl; [|exact Hentries].
        intros e. apply written_no_comma. }
    assert (Htrim : map trim (map written entries) = map keyText entries).
    { rewrite map_map. clear Hne Hsplit pool.
      induction Hentries as [|e es (Hl & Hr & _ & Hk) _ IH]; [reflexivity|].
      cbn [map]. rewrite IH. unfold written at 1.
      now rewrite (@trim_padded _ _ _ Hl Hr Hk). }
    assert (Hparse : parseApiKeys (join comma (map written entries)) = pool).
    { unfold parseApiKeys. now rewrite Hsplit, Htrim. }
    repeat split; try assumption.
    rewrite loadApiKeys_run, Hparse. reflexivity.
  - intros env.
    destruct (entries_of (split_pieces comma env)) as (es & Hmap & Hes).
    exists es. split; [|split; [exact Hes|]].
    + intros ->. symmetry in Hmap. now apply split_nonempty in Hmap.
    + now rewrite Hmap, join_split.
  - intros env pool. rewrite loadApiKeys_run.
    destruct (parseApiKeys env) as [|key rest] eqn:Hp; [discriminate|].
    intros [= <-]. split; [discriminate|].
    rewrite <- Hp. unfold parseApiKeys.
    apply Forall_forall. intros k Hin.
    apply filter_In in Hin. destruct Hin as [Hin Hnon].
    apply in_map_iff in Hin. destruct Hin as (piece & <- & Hpiece).
    split; [|split].
    + destruct (trim piece); discriminate.
    + apply trim_no_outer_white_space.
    + intros Hc. apply trim_incl in Hc.
      pose proof (split_pieces comma env) as Hs.
      rewrite Forall_forall in Hs. exact (Hs piece Hpiece Hc).
Qed.

(** X20: no loaded key contains a comma. *)
Theorem loaded_keys_have_no_comma (env : JsString) :
  Forall (fun key => ~ In comma key) (parseApiKeys env).
Proof.
  unfold parseApiKeys. apply Forall_forall. intros key Hin.
  apply filter_In in Hin. destruct Hin as [Hin _].
  apply in_map_iff in Hin. destruct Hin as (piece & <- & Hp).
  intros Hc. apply trim_incl in Hc.
  pose proof (split_pieces comma env) as Hs.
  rewrite Forall_forall in Hs. exact (Hs piece Hp Hc).
Qed.

(** X21: loading keeps the order in which the keys are written and
    keeps repeated keys: the keys of two lists joined by a comma are the
    keys of the first followed by the keys of the second. *)
Theorem parseApiKeys_app (a b : JsString) :
  parseApiKeys (a ++ comma :: b) = parseApiKeys a ++ parseApiKeys b.
Proof.
  unfold parseApiKeys. now rewrite split_app, map_app, filter_app.
Qed.

(** X22: keys written one after the other with commas between them are
    loaded back as they were written, in the same order, when each key
    is non-empty, free of commas and of white space at its ends. *)
Theorem loadApiKeys_join (keys : list JsString) :
  Forall clean keys ->
  parseApiKeys (join comma keys) = keys
  /\ (keys <> [] -> loadApiKeys (Some (join comma keys)) = Loaded keys).
Proof.
  intros Hclean.
  assert (Hparse : parseApiKeys (join comma keys) = keys).
  { destruct keys as [|key rest]; [reflexivity|].
    unfold parseApiKeys. rewrite split_join.
    - assert (Hmap : map trim (key :: rest) = key :: rest).
      { clear -Hclean. induction Hclean as [|k ks Hk _ IH]; [reflexivity|].
        cbn [map]. now rewrite (trim_clean Hk), IH. }
      rewrite Hmap. clear Hmap.
      induction Hclean as [|k ks Hk _ IH]; [reflexivity|].
      cbn [filter]. destruct Hk as (Hne & _). destruct k; [contradiction|].
      cbn. now rewrite IH.
    - discriminate.
    - eapply Forall_impl; [|exact Hclean]. intros k (_ & Hk & _). exact Hk. }
  split; [exact Hparse|]. intros Hne.
  unfold loadApiKeys. rewrite Hparse.
  destruct keys as [|key rest]; [contradiction|].
  inversion Hclean as [|? ? (Hk & _) _]; subst.
  destruct key as [|c key]; [contradiction|].
  destruct rest; reflexivity.
Qed.

Lemma parseApiKeys_empty_iff (env : JsString) :
  parseApiKeys env = [] <-> Forall isPadding env.
Proof.
  unfold parseApiKeys, isPadding. split.
  - intros Hnone. apply Forall_forall. intros c Hin.
    destruct (Z.eq_dec c comma) as [->|Hc]; [now left|].
    destruct (isWhiteSpace c) eqn:Hw; [now right|]. exfalso.
    destruct (@split_covers comma env c Hin Hc) as (piece & Hp & Hcp).
    assert (Hk : In (trim piece) (filter nonEmpty (map trim (split comma env)))).
    { apply filter_In. split; [now apply in_map|].
      pose proof (@trim_keeps piece c Hcp Hw) as Ht.
      destruct (trim piece); [contradiction|reflexivity]. }
    rewrite Hnone in Hk. contradiction.
  - intros Hall.
    destruct (filter nonEmpty (map trim (split comma env))) as [|key rest] eqn:Hf;
      [reflexivity|]. exfalso.
    assert (Hin : In key (filter nonEmpty (map trim (split comma env))))
      by (rewrite Hf; now left).
    apply filter_In in Hin. destruct Hin as [Hin Hne].
    apply in_map_iff in Hin. destruct Hin as (piece & <- & Hp).
    pose proof (trim_no_outer_white_space piece) as Hw.
    destruct (trim piece) as [|c t] eqn:Ht; [discriminate|].
    cbn in Hw. apply orb_false_iff in Hw. destruct Hw as [Hc _].
    assert (Hcin : In c piece) by (apply trim_incl; rewrite Ht; now left).
    assert (Hce : In c env) by (eapply split_incl; eassumption).
    rewrite Forall_forall in Hall. destruct (Hall c Hce) as [->|Hws].
    + pose proof (split_pieces comma env) as Hs. rewrite Forall_forall in Hs.
      exact (Hs piece Hp Hcin).
    + congruence.
Qed.

(** X23: the loading of the keys (lines 17-32) ends the process, with
    code 1, exactly when the variable is unset or holds nothing but
    commas and white space; otherwise it hands on a pool that is not
    empty. *)
Theorem loadApiKeys_exit_iff (apiKeysEnv : option JsString) :
  (loadApiKeys apiKeysEnv = Exit 1
   <-> apiKeysEnv = None
       \/ exists env, apiKeysEnv = Some env /\ Forall isPadding env)
  /\ (forall code, loadApiKeys apiKeysEnv = Exit code -> code = 1)
  /\ (forall apiKeys, loadApiKeys apiKeysEnv = Loaded apiKeys -> apiKeys <> []).
Proof.
  assert (Hrun : loadApiKeys apiKeysEnv
                 = match apiKeysEnv with
                   | None => Exit 1
                   | Some env =>
                       match parseApiKeys env with
                       | [] => Exit 1
                       | _ => Loaded (parseApiKeys env)
                       end
                   end).
  { destruct apiKeysEnv as [[|c env]|]; try reflexivity.
    unfold loadApiKeys. destruct (parseApiKeys (c :: env)); reflexivity. }
  rewrite Hrun. destruct apiKeysEnv as [env|].
  - pose proof (parseApiKeys_empty_iff env) as Hiff.
    destruct (parseApiKeys env) as [|key rest] eqn:Hp.
    + split; [split|split].
      * intros _. right. exists env. split; [reflexivity|]. now apply Hiff.
      * reflexivity.
      * now intros code [= <-].
      * discriminate.
    + split; [split|split].
      * discriminate.
      * intros [[=]|(env' & [= <-] & Hall)]. apply Hiff in Hall. discriminate.
      * discriminate.
      * intros apiKeys [= <-]. discriminate.
  - split; [split|split].
    + intros _. now left.
    + reflexivity.
    + now intros code [= <-].
    + discriminate.
Qed.

End KeyLoading.

(* ===================================================================== *)
(** * Properties of the configuration *)
(* ===================================================================== *)

Section Configuration.
Import Server ConfigLoader.

Lemma orDefault_blank value fallback : blank value -> orDefault value fallback = fallback.
Proof. intros [-> | ->]; reflexivity. Qed.

Lemma orDefault_set c rest fallback : orDefault (Some (c :: rest)) fallback = c :: rest.
Proof. reflexivity. Qed.

Lemma digit_not_space c : isDigit c = true -> isWhiteSpace c = false.
Proof.
  unfold isDigit, isWhiteSpace. intros H. apply andb_true_iff in H.
  destruct H as [H1 H2]. apply Z.leb_le in H1, H2.
  repeat (apply orb_false_iff; split);
    try (apply andb_false_iff; (left; apply Z.leb_gt; lia) || (right; apply Z.leb_gt; lia));
    apply Z.eqb_neq; lia.
Qed.

Lemma leadingDigits_app ds rest : forall acc,
  Forall (fun c => isDigit c = true) ds ->
  leadingDigits acc (ds ++ rest)
    = leadingDigits (fold_left (fun a c => 10 * a + (c - 48)) ds acc) rest.
Proof.
  induction ds as [|d ds IH]; intros acc H; [reflexivity|].
  inversion H as [|? ? Hd Hds]; subst. cbn. rewrite Hd. now apply IH.
Qed.

Lemma leadingDigits_stop acc rest :
  match rest with [] => True | c :: _ => isDigit c = false end ->
  leadingDigits acc rest = acc.
Proof. destruct rest as [|c rest]; [reflexivity|]. cbn. now intros ->. Qed.

(** A number written in digits, with white space before it and anything
    that does not begin with a digit after it. *)
Lemma parseInt10_digits ws d ds rest :
  Forall (fun c => isWhiteSpace c = true) ws ->
  Forall (fun c => isDigit c = true) (d :: ds) ->
  match rest with [] => True | c :: _ => isDigit c = false end ->
  parseInt10 (ws ++ (d :: ds) ++ rest) = Some (decimal (d :: ds)).
Proof.
  intros Hws Hds Hrest. unfold parseInt10. rewrite (trimStart_padding _ Hws).
  inversion Hds as [|? ? Hd _]; subst.
  cbn [app trimStart]. rewrite (digit_not_space _ Hd).
  assert (Hsign : d <> 45 /\ d <> 43).
  { unfold isDigit in Hd. apply andb_true_iff in Hd. destruct Hd as [H1 _].
    apply Z.leb_le in H1. lia. }
  assert (Hval : (if isDigit d
                  then Some (1 * leadingDigits 0 (d :: ds ++ rest)) else None)
                 = Some (decimal (d :: ds))).
  { rewrite Hd. f_equal.
    change (d :: ds ++ rest) with ((d :: ds) ++ rest).
    rewrite (leadingDigits_app _ 0 Hds), (leadingDigits_stop _ _ Hrest).
    unfold decimal. lia. }
  destruct Hsign as [Hm Hp].
  destruct d as [|p|p]; try exact Hval.
  do 6 (destruct p as [p|p|]; try exact Hval); contradiction.
Qed.


Lemma parseInt10_notNumeric s : notNumeric s -> parseInt10 s = None.
Proof.
  unfold notNumeric, parseInt10. destruct (trimStart s) as [|c rest]; [reflexivity|].
  intros [Hc Hsign].
  assert (Hbody : (if isDigit c then Some (1 * leadingDigits 0 (c :: rest)) else None)
                  = @None Z) by now rewrite Hc.
  assert (Hrest : forall sign, c = 45 \/ c = 43 ->
            match rest with
            | [] => None
            | d :: _ => if isDigit d then Some (sign * leadingDigits 0 rest) else None
            end = @None Z).
  { intros sign H. specialize (Hsign H). destruct rest; [reflexivity|now rewrite Hsign]. }
  destruct c as [|p|p]; try exact Hbody.
  do 6 (destruct p as [p|p|]; try exact Hbody);
    apply Hrest; (now left) || (now right).
Qed.

(** X24: a setting whose variable is unset or empty takes its default:
    port 3145, cooldown 60000 ms, log level [info], strategy
    [round_robin]; a log level or strategy that is set is taken as
    written, whatever it is. *)
Theorem config_defaults (env : ProcessEnv) :
  (blank (env_PORT env) -> PORT (loadConfig env) = Some 3145)
  /\ (blank (env_KEY_COOL_DOWN_DURATION_MS env) ->
      KEY_COOL_DOWN_DURATION_MS (loadConfig env) = Some 60000)
  /\ (blank (env_LOG_LEVEL env) -> LOG_LEVEL (loadConfig env) = defaultLogLevel)
  /\ (blank (env_DISPATCH_STRATEGY env) ->
      DISPATCH_STRATEGY (loadConfig env) = defaultStrategy)
  /\ (forall value, env_LOG_LEVEL env = Some value -> value <> [] ->
      LOG_LEVEL (loadConfig env) = value)
  /\ (forall value, env_DISPATCH_STRATEGY env = Some value -> value <> [] ->
      DISPATCH_STRATEGY (loadConfig env) = value).
Proof.
  unfold loadConfig. cbn [PORT KEY_COOL_DOWN_DURATION_MS LOG_LEVEL DISPATCH_STRATEGY].
  repeat split.
  - intros H. now rewrite (orDefault_blank _ H).
  - intros H. now rewrite (orDefault_blank _ H).
  - intros H. now rewrite (orDefault_blank _ H).
  - intros H. now rewrite (orDefault_blank _ H).
  - intros value -> Hne. destruct value; [contradiction|reflexivity].
  - intros value -> Hne. destruct value; [contradiction|reflexivity].
Qed.

(** X25: a numeric setting is the number written by the digits at the
    head of its variable, after any leading white space; what follows
    the digits is ignored, and no range is checked.  (Up to fifteen
    digits, which a JavaScript number holds exactly.) *)
Theorem config_number (env : ProcessEnv) ws d ds rest :
  Forall (fun c => isWhiteSpace c = true) ws ->
  Forall (fun c => isDigit c = true) (d :: ds) ->
  (List.length (d :: ds) <= 15)%nat ->
  match rest with [] => True | c :: _ => isDigit c = false end ->
  (env_PORT env = Some (ws ++ (d :: ds) ++ rest) ->
   PORT (loadConfig env) = Some (decimal (d :: ds)))
  /\ (env_KEY_COOL_DOWN_DURATION_MS env = Some (ws ++ (d :: ds) ++ rest) ->
      KEY_COOL_DOWN_DURATION_MS (loadConfig env) = Some (decimal (d :: ds))).
Proof.
  intros Hws Hds _ Hrest.
  assert (Hset : forall fallback,
            orDefault (Some (ws ++ (d :: ds) ++ rest)) fallback
            = ws ++ (d :: ds) ++ rest) by (intros fallback; destruct ws; reflexivity).
  unfold loadConfig. cbn [PORT KEY_COOL_DOWN_DURATION_MS].
  split; intros ->; rewrite Hset; now apply parseInt10_digits.
Qed.

(** X26: a numeric setting whose variable is set to a text without a
    number at its head is [NaN]: the default does not stand in for
    it. *)
Theorem config_not_a_number (env : ProcessEnv) value :
  value <> [] ->
  notNumeric value ->
  (env_PORT env = Some value -> PORT (loadConfig env) = None)
  /\ (env_KEY_COOL_DOWN_DURATION_MS env = Some value ->
      KEY_COOL_DOWN_DURATION_MS (loadConfig env) = None).
Proof.
  intros Hne Hnot.
  assert (Hset : forall fallback, orDefault (Some value) fallback = value)
    by (intros fallback; destruct value; [contradiction|reflexivity]).
  unfold loadConfig. cbn [PORT KEY_COOL_DOWN_DURATION_MS].
  split; intros ->; rewrite Hset; now apply parseInt10_notNumeric.
Qed.

End Configuration.

(* ===================================================================== *)
(** * The further properties at work *)
(* ===================================================================== *)

Section Cases.
Import Forwarder TextDecoder OpenAIRoute Traces Requests Scenario Cases.

(** [JSON.stringify] serialises every value of these cases, unless
    another platform is named. *)
#[local] Existing Instance serialising.

Lemma forwardRequest_error_iff_witness :
  exists r,
    settled (forwardRequest failingSdk "gemini-pro" "countTokens" (JObj []) key1)
      = Normal r
    /\ (match error r with Some _ => true | None => false end
        = negb (supported "countTokens")
          || negb (sdkResolves failingModel "countTokens" (JObj []))).
Proof.
  apply (@forwardRequest_error_iff serialising failingSdk "gemini-pro" "countTokens"
           (JObj []) key1 failingModel).
  - reflexivity.
  - intro b. repeat split.
Defined.

Lemma forwarder_error_shape_witness :
  settled (forwardOpenAIRequest fetchThrowing429 "/v1/models" JNull key1 "GET")
  = Normal (Build_ForwardResult (C := Bytes) JUndefined None
              (Some {| message := "OpenAI Compatible API Error: Too Many Requests";
                       statusCode := JNum 429; apiKey := "key-1";
                       isRateLimitError := false |}))
  /\ apiKey {| message := "OpenAI Compatible API Error: Too Many Requests";
               statusCode := JNum 429; apiKey := "key-1";
               isRateLimitError := false |} = key key1.
Proof.
  split; [reflexivity|].
  apply (proj2 (forwarder_error_shape (J := serialising)) fetchThrowing429 "/v1/models" JNull key1 "GET"
           _ _ eq_refl eq_refl).
Defined.

Lemma forwardOpenAIRequest_rate_limit_iff_witness :
  rateLimited
    (Build_ForwardResult (C := Bytes) JUndefined None
       (Some {| message := "OpenAI Compatible API Error: 429 Too Many Requests - quota exceeded";
                statusCode := JNum 429; apiKey := "key-1";
                isRateLimitError := true |})) = true
  <-> exists resp errorBody,
        fetch429 (requestUrl "/v1/chat/completions")
                 (requestOptions chatBody key1 "POST") = Normal resp
        /\ status resp = 429
        /\ text resp = Normal errorBody.
Proof.
  apply (@forwardOpenAIRequest_rate_limit_iff serialising fetch429
           "/v1/chat/completions" chatBody key1 "POST").
  reflexivity.
Defined.

Lemma forwardOpenAIRequest_fetch_call_witness :
  hd_error (upstreamCalls (forwardOpenAIRequest okFetch "/models" JNull key1 "GET"))
    = Some (CallFetch "https://generativelanguage.googleapis.com/v1beta/openai/models"
                      (requestOptions JNull key1 "GET")).
Proof.
  apply (proj1 (proj2 (@forwardOpenAIRequest_fetch_call serialising okFetch
                         "/models" JNull key1 "GET"))).
  reflexivity.
Defined.

Lemma usesForwarder_envOver (J : JSON) selected fetch :
  usesForwarder (envOver selected fetch) fetch.
Proof. intros path requestBody apiKey0 method. reflexivity. Qed.

Lemma unknown_result_answered_500_witness :
  trace (run (envOf (Normal (Some key1)) (Normal (streamed [[97]]))) Embeddings chatBody)
    = [SelectApiKey;
       ForwardOpenAIRequest "/v1/embeddings" chatBody key1 "POST";
       DecrementRequestCount "key-1";
       ResStatusJson (JNum 500) unknownError]
  /\ final (run (envOf (Normal (Some key1)) (Normal (streamed [[97]]))) Embeddings chatBody)
     = KeyManager.release "key-1" store1.
Proof.
  apply (@unknown_result_answered_500 KeyManager.Store KeyManager.release
           (KeyManager.coolDown 1000) config
           (envOf (Normal (Some key1)) (Normal (streamed [[97]])))
           Embeddings chatBody store1 key1 (streamed [[97]]));
    try reflexivity.
  now left.
Defined.

Lemma stream_request_on_plain_route_witness :
  trace (run (envOver (Normal (Some key1)) okFetch) ImagesGenerations streamBody)
    = [SelectApiKey;
       ForwardOpenAIRequest "/v1/images/generations" streamBody key1 "POST";
       DecrementRequestCount "key-1";
       ResStatusJson (JNum 500) unknownError]
  /\ upstreamCalls (forwardOpenAIRequest okFetch "/v1/images/generations"
                      streamBody key1 "POST")
     = [CallFetch (requestUrl "/v1/images/generations")
                  (requestOptions streamBody key1 "POST")].
Proof.
  apply (@stream_request_on_plain_route KeyManager.Store KeyManager.release
           (KeyManager.coolDown 1000) config
           (envOver (Normal (Some key1)) okFetch) okFetch serialising
           ImagesGenerations streamBody store1 key1 okResponse);
    try reflexivity.
  - now right.
  - apply usesForwarder_envOver.
Defined.

Lemma upstream_error_reaches_client_witness :
  trace (run (envOver (Normal (Some key1)) fetch429) ChatCompletions chatBody)
    = [SelectApiKey;
       ForwardOpenAIRequest "/v1/chat/completions" chatBody key1 "POST";
       DecrementRequestCount "key-1";
       MarkAsCoolingDown "key-1" 60000;
       ResStatusJson (JNum 429)
         (errorEnvelope
            (JStr "rate_limit_exceeded")
            (JStr "OpenAI Compatible API Error: 429 Too Many Requests - quota exceeded")
            (JStr "rate_limit_error"))].
Proof.
  apply (@upstream_error_reaches_client KeyManager.Store KeyManager.release
           (KeyManager.coolDown 1000) config
           (envOver (Normal (Some key1)) fetch429) fetch429 serialising
           ChatCompletions chatBody store1 key1 tooManyRequests "quota exceeded");
    try reflexivity.
  apply usesForwarder_envOver.
Defined.

Lemma transport_failure_reaches_client_witness :
  (exists msg thrownStatus,
     get (JObj [("message", JStr "Too Many Requests"); ("statusCode", JNum 429)])
         "message" = Normal msg
     /\ get (JObj [("message", JStr "Too Many Requests"); ("statusCode", JNum 429)])
            "statusCode" = Normal thrownStatus
     /\ trace (run (envOver (Normal (Some key1)) fetchThrowing429) Models JNull)
        = [SelectApiKey;
           ForwardOpenAIRequest "/v1/models" JNull key1 "GET";
           DecrementRequestCount "key-1";
           ResStatusJson
             (if truthy thrownStatus then thrownStatus else JNum 500)
             (errorEnvelope
                (JStr "api_error")
                (JStr ("OpenAI Compatible API Error: " ++ toString msg))
                (JStr "api_error"))]
          ++ handedToNext (Normal tt)
     /\ final (run (envOver (Normal (Some key1)) fetchThrowing429) Models JNull)
        = KeyManager.release "key-1" store1)
  /\ run (envOver (J := circular) (Normal (Some key1)) fetchThrowing429) Models JNull
     = (Normal tt, store1,
        [SelectApiKey;
         ForwardOpenAIRequest "/v1/models" JNull key1 "GET";
         Next (TypeError "Converting circular structure to JSON")]).
Proof.
  split.
  - apply (@transport_failure_reaches_client KeyManager.Store KeyManager.release
             (KeyManager.coolDown 1000) config
             (envOver (Normal (Some key1)) fetchThrowing429) fetchThrowing429
             serialising Models JNull store1 key1
             (JObj [("message", JStr "Too Many Requests"); ("statusCode", JNum 429)]));
      try reflexivity.
    apply usesForwarder_envOver.
  - apply (@transport_failure_reaches_client KeyManager.Store KeyManager.release
             (KeyManager.coolDown 1000) config
             (envOver (J := circular) (Normal (Some key1)) fetchThrowing429)
             fetchThrowing429 circular Models JNull store1 key1
             (JObj [("message", JStr "Too Many Requests"); ("statusCode", JNum 429)]));
      try reflexivity.
    apply usesForwarder_envOver.
Defined.

Lemma forwardRequest_status_precedence_witness :
  exists resp respStatus thrownStatus err,
    get (JObj [("message", JStr "quota"); ("statusCode", JNum 429)]) "response"
      = Normal resp
    /\ get_opt resp "status" = Normal respStatus
    /\ get (JObj [("message", JStr "quota"); ("statusCode", JNum 429)]) "statusCode"
       = Normal thrownStatus
    /\ settled (forwardRequest failingSdk "gemini-pro" "countTokens" (JObj []) key1)
       = Normal (Build_ForwardResult JUndefined None (Some err))
    /\ statusCode err = (if truthy respStatus then respStatus else thrownStatus)
    /\ isRateLimitError err
       = strict_eq_num (if truthy respStatus then respStatus else thrownStatus) 429.
Proof.
  apply (@forwardRequest_status_precedence serialising failingSdk "gemini-pro" "countTokens"
           (JObj []) key1 failingModel
           (JObj [("message", JStr "quota"); ("statusCode", JNum 429)]));
    reflexivity.
Defined.

Lemma chat_stream_end_to_end_witness :
  run (envOver (Normal (Some key1)) streamingFetch) ChatCompletions streamBody
    = (Normal tt, KeyManager.release "key-1" store1,
       [SelectApiKey;
        ForwardOpenAIRequest "/v1/chat/completions" streamBody key1 "POST";
        DecrementRequestCount "key-1"]
       ++ map (fun h => ResSetHeader (fst h) (snd h)) streamHeaders
       ++ GetReader
          :: relayed fresh (chunks (streamOf [[97]; [98]] EndOfStream))
                     (ending (streamOf [[97]; [98]] EndOfStream)))
  /\ upstreamCalls (forwardOpenAIRequest streamingFetch "/v1/chat/completions"
                      streamBody key1 "POST")
     = [CallFetch (requestUrl "/v1/chat/completions")
                  (requestOptions streamBody key1 "POST")].
Proof.
  apply (@chat_stream_end_to_end KeyManager.Store KeyManager.release
           (KeyManager.coolDown 1000) config
           (envOver (Normal (Some key1)) streamingFetch) streamingFetch serialising
           streamBody store1 key1 streamingResponse
           (streamOf [[97]; [98]] EndOfStream));
    try reflexivity.
  - apply usesForwarder_envOver.
  - repeat split.
Defined.

Lemma json_reply_reaches_client_witness :
  trace (run (envOver (Normal (Some key1)) okFetch) Models chatBody)
    = [SelectApiKey;
       ForwardOpenAIRequest "/v1/models" JNull key1 "GET";
       DecrementRequestCount "key-1";
       ResJson (JObj [])]
  /\ final (run (envOver (Normal (Some key1)) okFetch) Models chatBody)
     = KeyManager.release "key-1" store1
  /\ upstreamCalls (forwardOpenAIRequest okFetch "/v1/models" JNull key1 "GET")
     = [CallFetch (requestUrl "/v1/models") (requestOptions JNull key1 "GET");
        CallReadJson].
Proof.
  apply (@json_reply_reaches_client KeyManager.Store KeyManager.release
           (KeyManager.coolDown 1000) config
           (envOver (Normal (Some key1)) okFetch) okFetch serialising
           Models chatBody store1 key1 okResponse (JObj []));
    try reflexivity.
  apply usesForwarder_envOver.
Defined.

Lemma relay_stops_on_failed_write_witness :
  handleStreamingResponse envFailingWrite (streamOf [[97]; [98]; [99]] EndOfStream)
                          key1 store1
    = (Normal tt, store1,
       map (fun h => ResSetHeader (fst h) (snd h)) streamHeaders
       ++ [GetReader;
           ReaderRead (ReadValue [97]); ResWrite [97];
           ReaderRead (ReadValue [98]); ResWrite [98];
           ResEnd])
  /\ List.length
       (filter isRead
          (trace (handleStreamingResponse envFailingWrite
                    (streamOf [[97]; [98]; [99]] EndOfStream) key1 store1)))
     = 2%nat.
Proof.
  apply (@relay_stops_on_failed_write KeyManager.Store envFailingWrite
           (streamOf [[97]; [98]; [99]] EndOfStream) key1 store1 1%nat (JStr "EPIPE"));
    try reflexivity.
  - intros i Hi. destruct i as [|i]; [reflexivity|lia].
  - cbn. lia.
Defined.

End Cases.

Section KeyCases.
Import Server Keys ConfigLoader.

(** [" k1, ,k2 ,"]: four entries, two of them without a key. *)
Lemma loadApiKeys_pool_witness :
  parseApiKeys [32; 107; 49; 44; 32; 44; 107; 50; 32; 44] = [[107; 49]; [107; 50]]
  /\ loadApiKeys (Some [32; 107; 49; 44; 32; 44; 107; 50; 32; 44])
     = Loaded [[107; 49]; [107; 50]].
Proof.
  destruct (proj1 (proj2 loadApiKeys_pool)
              [{| padBefore := [32]; keyText := [107; 49]; padAfter := [] |};
               {| padBefore := [32]; keyText := []; padAfter := [] |};
               {| padBefore := []; keyText := [107; 50]; padAfter := [32] |};
               {| padBefore := []; keyText := []; padAfter := [] |}])
    as (_ & _ & Hparse & Hload).
  - discriminate.
  - repeat (apply Forall_cons;
            [unfold isEntry; cbn [padBefore keyText padAfter];
             repeat split; try reflexivity; repeat constructor;
             unfold comma; cbn; intuition lia|]).
    apply Forall_nil.
  - split; [exact Hparse|exact Hload].
Defined.

Lemma loadApiKeys_join_witness :
  parseApiKeys (join comma [[107; 49]; [107; 50]; [107; 49]])
    = [[107; 49]; [107; 50]; [107; 49]]
  /\ ([[107; 49]; [107; 50]; [107; 49]] <> [] ->
      loadApiKeys (Some (join comma [[107; 49]; [107; 50]; [107; 49]]))
        = Loaded [[107; 49]; [107; 50]; [107; 49]]).
Proof.
  apply loadApiKeys_join.
  repeat (apply Forall_cons;
          [unfold clean; repeat split;
           try discriminate; try reflexivity; unfold comma; cbn; intuition lia|]).
  apply Forall_nil.
Defined.

Lemma loadApiKeys_exit_iff_witness :
  loadApiKeys (Some [32; 44; 44; 9]) = Exit 1.
Proof.
  apply (proj1 (loadApiKeys_exit_iff (Some [32; 44; 44; 9]))).
  right. eexists. split; [reflexivity|].
  repeat constructor; unfold isPadding; (now left) || (now right).
Defined.

Lemma config_defaults_witness :
  LOG_LEVEL (loadConfig Cases.oddEnv) = defaultLogLevel
  /\ DISPATCH_STRATEGY (loadConfig Cases.oddEnv) = defaultStrategy.
Proof.
  destruct (config_defaults Cases.oddEnv) as (_ & _ & Hl & Hs & _).
  split; [apply Hl; now left|apply Hs; now right].
Defined.

Lemma config_number_witness :
  KEY_COOL_DOWN_DURATION_MS (loadConfig Cases.oddEnv) = Some 90.
Proof.
  apply (proj2 (@config_number Cases.oddEnv [32] 57 [48] [109; 115]
                  ltac:(repeat constructor)
                  ltac:(repeat constructor)
                  ltac:(cbn; lia)
                  ltac:(reflexivity))).
  reflexivity.
Defined.

Lemma config_not_a_number_witness : PORT (loadConfig Cases.oddEnv) = None.
Proof.
  apply (proj1 (@config_not_a_number Cases.oddEnv [97; 98; 99]
                  ltac:(discriminate)
                  ltac:(cbn; split; [reflexivity|intros [H|H]; discriminate]))).
  reflexivity.
Defined.

End KeyCases.
